(** * Random image composition with segmentation masks (img_comp.py)

    A shallow embedding of [MaskJsonUtils] and [ImageComposition] and the
    properties of the compositor, the transform engine, the mask registry
    and the argument validation.

    Conventions of the embedding.
    - Python [int]s are [Z]; pixel channels are [Z] with the 8-bit
      wrap-around written out where the C or numpy code truncates.
    - A Python [float] is the rational that the binary64 number is, and
      every operation on floats rounds its exact result to binary64; the
      C [float]s of Pillow's blend are rounded to binary32.
    - An image (and a numpy array of an image) is its size together with
      its rows of pixels.
    - The [random] module is an oracle: a tape of raw draws and a cursor.
    - A Python exception ends the computation with [Raise].
    - The calls into Pillow and numpy are modelled by what the libraries
      compute on 8-bit data; the interpolation kernels of [rotate] and
      [resize] and the canvas of a rotation that is not a quarter turn are
      a parameter ([Resampling]).
    - Files are not written: [save] records the path and the image. *)

From Stdlib Require Import ZArith QArith Qround Qabs Qpower Lia Lqa Ascii.
From stdpp Require Import gmap strings list fin_maps pretty.

Close Scope Q_scope.
Open Scope Z_scope.

(* [set_solver] clears hypotheses that its own steps already consumed. *)
#[local] Set Warnings "-clear-no-such-hyp".

(* ===================================================================== *)
(** * Exceptions, results and the computation monad                       *)
(* ===================================================================== *)

Inductive exn : Type :=
| AssertionError (msg : string)
| AttributeError
| IndexError
| KeyError
| ValueError
| OverflowError
| FileNotFoundError
| FileExistsError
| PermissionError
| SystemExit.

Inductive result (A : Type) : Type :=
| Return (a : A)
| Raise (e : exn).
Arguments Return {A} a.
Arguments Raise {A} e.

(** The state of the [random] module: raw draws and how many were used. *)
Record Random : Type := mkRandom { tape : nat → Z; cursor : nat }.

(** Computations that draw random numbers and may raise. *)
Definition M (A : Type) : Type := Random → result (A * Random).

Global Instance M_ret : MRet M := λ A a g, Return (a, g).
Global Instance M_bind : MBind M := λ A B f m g,
  match m g with
  | Return (a, g') => f a g'
  | Raise e => Raise e
  end.

Definition raise {A} (e : exn) : M A := λ _, Raise e.

(** [assert cond, msg] *)
Definition assert (cond : bool) (msg : string) : M unit :=
  if cond then mret () else raise (AssertionError msg).

(** A [for] loop that threads an accumulator. *)
Fixpoint for_each {A S} (body : A → S → M S) (xs : list A) (s : S) : M S :=
  match xs with
  | [] => mret s
  | x :: xs' => s' ← body x s; for_each body xs' s'
  end.

(* ===================================================================== *)
(** * The [random] module                                                  *)
(* ===================================================================== *)

Module random.

Definition next_raw : M Z :=
  λ g, Return (tape g (cursor g), mkRandom (tape g) (S (cursor g))).

(** [Random._randbelow(n)], for [0 < n]: some integer of [0, n). *)
Definition _randbelow (n : Z) : M Z := r ← next_raw; mret (r `mod` n).

(** [random.randint(a, b)]: an integer of [a, b], both ends included. *)
Definition randint (a b : Z) : M Z :=
  if b <? a then raise ValueError
  else k ← _randbelow (b - a + 1); mret (a + k).

(** [random.choice(seq)] *)
Definition choice {A} (seq : list A) : M A :=
  match seq with
  | [] => raise IndexError
  | _ =>
      i ← _randbelow (Z.of_nat (length seq));
      match seq !! Z.to_nat i with
      | Some x => mret x
      | None => raise IndexError
      end
  end.

(** [random.random()]: a multiple of 2^-53 in [0, 1). *)
Definition random : M Q :=
  k ← _randbelow (2 ^ 53); mret (Qmake k (2 ^ 53)).

End random.

(* ===================================================================== *)
(** * Images and arrays                                                    *)
(* ===================================================================== *)

Record Image (A : Type) : Type := mkImage {
  im_width : nat;
  im_height : nat;
  im_rows : list (list A)
}.
Arguments mkImage {A} _ _ _.
Arguments im_width {A} _.
Arguments im_height {A} _.
Arguments im_rows {A} _.

Definition RGB : Type := Z * Z * Z.
Definition RGBA : Type := Z * Z * Z * Z.

Definition transparent : RGBA := (0, 0, 0, 0).
Definition black : RGB := (0, 0, 0).

Definition alpha_of (p : RGBA) : Z := p.2.

(** The image of size [w] x [h] whose pixel at [(x, y)] is [f x y]. *)
Definition tabulate {A} (w h : nat) (f : nat → nat → A) : Image A :=
  mkImage w h ((λ y, (λ x, f x y) <$> seq 0 w) <$> seq 0 h).

Definition getpixel {A} (im : Image A) (x y : nat) : option A :=
  im_rows im !! y ≫= (.!! x).

(** The pixel at [(x, y)], [d] outside the stored data. *)
Definition pixel {A} (d : A) (im : Image A) (x y : nat) : A :=
  default d (getpixel im x y).

Definition image_map {A B} (f : A → B) (im : Image A) : Image B :=
  mkImage (im_width im) (im_height im) ((λ row : list A, f <$> row) <$> im_rows im).

(** [Image.new(mode, size, color)] *)
Definition Image_new {A} (size : nat * nat) (color : A) : Image A :=
  tabulate size.1 size.2 (λ _ _, color).

Definition im_size {A} (im : Image A) : nat * nat := (im_width im, im_height im).

(** [dst.paste(src, position)] without a mask: the pixels of [src] replace
    those of [dst] in the box at [position]; what falls outside [dst] is
    clipped. *)
Definition paste {A} (d : A) (dst src : Image A) (position : Z * Z) : Image A :=
  tabulate (im_width dst) (im_height dst) (λ x y,
    let sx := Z.of_nat x - position.1 in
    let sy := Z.of_nat y - position.2 in
    if (0 <=? sx) && (sx <? Z.of_nat (im_width src)) &&
       (0 <=? sy) && (sy <? Z.of_nat (im_height src))
    then pixel d src (Z.to_nat sx) (Z.to_nat sy)
    else pixel d dst x y).

(** [im.crop((left, upper, left + w, upper + h))] *)
Definition crop {A} (d : A) (im : Image A) (left upper : Z) (w h : Z) : Image A :=
  tabulate (Z.to_nat w) (Z.to_nat h) (λ x y,
    let sx := left + Z.of_nat x in
    let sy := upper + Z.of_nat y in
    if (0 <=? sx) && (0 <=? sy) then pixel d im (Z.to_nat sx) (Z.to_nat sy) else d).

(** [im.getchannel(3)] of an RGBA image. *)
Definition getchannel3 (im : Image RGBA) : Image Z := image_map alpha_of im.

(** [im.convert('RGB')] of an RGBA image: the alpha band is dropped. *)
Definition convert_RGB (im : Image RGBA) : Image RGB :=
  image_map (λ p : RGBA, (p.1.1.1, p.1.1.2, p.1.2)) im.

(** ** Pillow's 8-bit blending (Paste.c, ImagingCore) *)

Definition DIV255 (a : Z) : Z :=
  let tmp := a + 128 in Z.shiftr (Z.shiftr tmp 8 + tmp) 8.

(** [BLEND(mask, in1, in2)], stored into a [UINT8]. *)
Definition BLEND (mask in1 in2 : Z) : Z :=
  DIV255 (in1 * (255 - mask) + in2 * mask) `mod` 256.

Definition BLEND_RGB (mask : Z) (p1 p2 : RGB) : RGB :=
  (BLEND mask p1.1.1 p2.1.1, BLEND mask p1.1.2 p2.1.2, BLEND mask p1.2 p2.2).

Definition BLEND_RGBA (mask : Z) (p1 p2 : RGBA) : RGBA :=
  (BLEND mask p1.1.1.1 p2.1.1.1, BLEND mask p1.1.1.2 p2.1.1.2,
   BLEND mask p1.1.2 p2.1.2, BLEND mask p1.2 p2.2).

(** [Image.composite(image1, image2, mask)] with an "L" mask: a copy of
    [image2] on which [image1] is pasted through [mask].  The three images
    have one size (they are all made with the size of the composite). *)
Definition Image_composite {A} (blend : Z → A → A → A) (d : A)
    (image1 image2 : Image A) (mask : Image Z) : Image A :=
  tabulate (im_width image2) (im_height image2) (λ x y,
    blend (pixel 0 mask x y) (pixel d image2 x y) (pixel d image1 x y)).

(** ** numpy on uint8 arrays *)

(** [np.array(np.greater(arr, threshold), dtype=np.uint8)] *)
Definition np_greater (arr : Image Z) (threshold : Z) : Image Z :=
  image_map (λ v, if threshold <? v then 1 else 0) arr.

(** [arr * c] on a uint8 array and a scalar that fits in uint8. *)
Definition np_mul (arr : Image Z) (c : Z) : Image Z :=
  image_map (λ v, (v * c) `mod` 256) arr.

(** [np.dstack((r, g, b))] read back with [Image.fromarray(_, 'RGB')]. *)
Definition np_dstack (r g b : Image Z) : Image RGB :=
  tabulate (im_width r) (im_height r) (λ x y,
    (pixel 0 r x y, pixel 0 g x y, pixel 0 b x y)).

(** [np.any(arr == v)] *)
Definition np_any_eq (arr : Image Z) (v : Z) : bool :=
  existsb (existsb (Z.eqb v)) (im_rows arr).

(* ===================================================================== *)
(** * Binary floating point                                                *)
(* ===================================================================== *)

(** A Python [float] is a binary64 number and a C [float] a binary32
    number; each is kept as the rational that it is.  There is no
    infinity here: a rounded result of [2^1024] or more stands for the
    overflow of binary64, and the two conversions below turn it into the
    exception of Python. *)

(** The nearest integer of a rational, the even one of two that are
    equally near. *)
Definition round_half_even (q : Q) : Z :=
  let f := Qfloor q in
  match (q - inject_Z f ?= 1 # 2)%Q with
  | Lt => f
  | Gt => f + 1
  | Eq => if Z.even f then f else f + 1
  end.

(** The binary exponent of a positive rational: [2^e <= q < 2^(e+1)]. *)
Definition Qlog2 (q : Q) : Z :=
  let e := Z.log2 (Qnum q) - Z.log2 (Z.pos (Qden q)) in
  if Qle_bool (2 ^ e) q then e else e - 1.

(** Rounding to the nearest number with [prec] significant bits, ties to
    the even significand: the rounding of the IEEE 754 binary formats
    from their smallest normal number on. *)
Definition round_float (prec : Z) (q : Q) : Q :=
  if Qeq_bool q 0 then 0%Q
  else
    let ulp := (2 ^ (Qlog2 (Qabs q) - prec + 1))%Q in
    (inject_Z (round_half_even (q / ulp)) * ulp)%Q.

Definition binary64 : Q → Q := round_float 53.
Definition binary32 : Q → Q := round_float 24.

(** [a * b] and [a + b] on two Python floats. *)
Definition float_mul (a b : Q) : Q := binary64 (a * b).
Definition float_add (a b : Q) : Q := binary64 (a + b).

(** The conversion of an [int] that meets a [float] in an arithmetic
    operation: correctly rounded, [OverflowError] ("int too large to
    convert to float") beyond the range of binary64. *)
Definition float_of_int (n : Z) : M Q :=
  let x := binary64 (inject_Z n) in
  if Qle_bool (2 ^ 1024) (Qabs x) then raise OverflowError else mret x.

(** Truncation toward zero. *)
Definition py_int (q : Q) : Z := Z.quot (Qnum q) (Z.pos (Qden q)).

(** [int(x)] of a float: [OverflowError] on an infinity. *)
Definition int_of_float (x : Q) : M Z :=
  if Qle_bool (2 ^ 1024) (Qabs x) then raise OverflowError else mret (py_int x).

(* ===================================================================== *)
(** * Pillow operations used by the transform engine                       *)
(* ===================================================================== *)

(** The resampling filters that both [rotate] and [resize] accept. *)
Inductive Filter : Type := NEAREST | BILINEAR | BICUBIC.

(** The methods of [Image.transpose] that [rotate] uses. *)
Inductive Transpose : Type := ROTATE_90 | ROTATE_180 | ROTATE_270.

(** The interpolation kernels of Pillow and the canvas that
    [rotate(..., expand=True)] computes for an angle that is not a
    multiple of 90 degrees are not part of the program: the development
    is parametric in them. *)
Class Resampling : Type := {
  (** size of the expanded canvas of a rotation by [angle] degrees *)
  rotate_size : nat * nat → Z → nat * nat;
  (** pixel [(x, y)] of the rotation of an image by [angle] degrees with
      a filter, on the expanded canvas or on a canvas of the size of the
      image *)
  rotate_pixel : Filter → bool → Image RGBA → Z → nat → nat → RGBA;
  (** pixel [(x, y)] of an image resized to a given size with a filter *)
  resize_pixel : Filter → Image RGBA → nat * nat → nat → nat → RGBA
}.

(** Nearest-neighbour sampling without a change of the canvas, to run the
    pipeline on concrete inputs. *)
Definition nearest : Resampling := {|
  rotate_size := λ size _, size;
  rotate_pixel := λ _ _ im _ x y, pixel transparent im x y;
  resize_pixel := λ _ im size x y,
    pixel transparent im (x * im_width im / size.1)%nat (y * im_height im / size.2)%nat
|}.

(** [ImagingBlend(im1, im2, alpha)], one 8-bit band, [alpha] a C float:
    [(UINT8) (in1 + alpha * (in2 - in1))] in float arithmetic, clipped
    when [alpha] is outside [0, 1]. *)
Definition ImagingBlend_band (alpha : Q) (in1 in2 : Z) : Z :=
  let temp := binary32 (inject_Z in1 + binary32 (alpha * inject_Z (in2 - in1)))%Q in
  if Qle_bool 0 alpha && Qle_bool alpha 1 then py_int temp `mod` 256
  else if Qle_bool temp 0 then 0
  else if Qle_bool 255 temp then 255
  else py_int temp.

(** [Image.blend(im1, im2, alpha)] on two RGBA images of one size; the
    Python float [alpha] is passed to [ImagingBlend] as [(float) alpha]. *)
Definition Image_blend (im1 im2 : Image RGBA) (alpha : Q) : Image RGBA :=
  let alpha := binary32 alpha in
  tabulate (im_width im1) (im_height im1) (λ x y,
    let p1 := pixel transparent im1 x y in
    let p2 := pixel transparent im2 x y in
    (ImagingBlend_band alpha p1.1.1.1 p2.1.1.1,
     ImagingBlend_band alpha p1.1.1.2 p2.1.1.2,
     ImagingBlend_band alpha p1.1.2 p2.1.2,
     ImagingBlend_band alpha p1.2 p2.2)).

(** [ImageEnhance.Brightness(image).enhance(factor)]: the blend of a black
    image that carries the alpha band of [image] with [image]. *)
Definition Brightness_enhance (image : Image RGBA) (factor : Q) : Image RGBA :=
  let degenerate := image_map (λ p : RGBA, (0, 0, 0, alpha_of p)) image in
  Image_blend degenerate image factor.

(** [im.transpose(method)]: the quarter turns and the half turn move the
    pixels, nothing is interpolated.  [ROTATE_90] and [ROTATE_270] are
    counter-clockwise, as the angles of [rotate]. *)
Definition Image_transpose (im : Image RGBA) (method : Transpose) : Image RGBA :=
  let w := im_width im in
  let h := im_height im in
  match method with
  | ROTATE_90 => tabulate h w (λ x y, pixel transparent im (w - 1 - y) x)
  | ROTATE_180 => tabulate w h (λ x y, pixel transparent im (w - 1 - x) (h - 1 - y))
  | ROTATE_270 => tabulate h w (λ x y, pixel transparent im y (h - 1 - x))
  end.

(** Whether a Python [int] is a C [int] (the format ["i"] of
    [PyArg_ParseTuple] raises [OverflowError] otherwise). *)
Definition fits_C_int (z : Z) : bool := (- 2 ^ 31 <=? z) && (z <? 2 ^ 31).

Section Pillow.
Context {R : Resampling}.

(** [im.rotate(angle, resample, expand)] with an integer angle.  The
    multiples of 90 degrees are done without a filter: 0 is a copy, 180
    the half turn, and 90 and 270 the quarter turns when the canvas
    expands or the image is a square.  Every other rotation is the affine
    transform of Pillow, onto the expanded canvas when [expand] is set
    and onto a canvas of the size of the image otherwise. *)
Definition Image_rotate (im : Image RGBA) (angle : Z) (resample : Filter) (expand : bool)
    : Image RGBA :=
  let angle := angle `mod` 360 in
  if decide (angle = 0) then im
  else if decide (angle = 180) then Image_transpose im ROTATE_180
  else if bool_decide (angle = 90 ∨ angle = 270)
          && (expand || bool_decide (im_width im = im_height im))
  then Image_transpose im (if decide (angle = 90) then ROTATE_90 else ROTATE_270)
  else
    let size := if expand then rotate_size (im_size im) angle else im_size im in
    tabulate size.1 size.2 (rotate_pixel resample expand im angle).

(** [im.resize(size, resample)]: resizing to the size the image has is a
    copy; otherwise the two numbers must be C [int]s, and a size below 1
    in an axis is refused ("height and width must be > 0"). *)
Definition Image_resize (im : Image RGBA) (size : Z * Z) (resample : Filter)
    : M (Image RGBA) :=
  if decide (size = (Z.of_nat (im_width im), Z.of_nat (im_height im))) then mret im
  else if negb (fits_C_int size.1 && fits_C_int size.2) then raise OverflowError
  else if (size.1 <? 1) || (size.2 <? 1) then raise ValueError
  else
    let size' := (Z.to_nat size.1, Z.to_nat size.2) in
    mret (tabulate size'.1 size'.2 (resize_pixel resample im size')).

End Pillow.

(* ===================================================================== *)
(** * ImageComposition: transform engine and compositor                    *)
(* ===================================================================== *)

(** An entry of the list [foregrounds] built by [_generate_images]. *)
Record Foreground : Type := mkForeground {
  super_category : string;
  category : string;
  foreground_path : string;
  mask_rgb_color : RGB
}.

(** The attributes of [self] that generation reads.  [mask_colors],
    [max_foregrounds] and [zero_padding] are set once by [__init__] and
    are the constants below. *)
Record Self : Type := mkSelf {
  count : Z;
  width : Z;
  height : Z;
  output_type : string;
  output_dir : string;
  (** super category -> category -> image files, in insertion order *)
  foregrounds_dict : list (string * list (string * list string));
  backgrounds : list string
}.

Definition allowed_output_types : list string := [".png"; ".jpg"; ".jpeg"].
Definition zero_padding : nat := 8.
Definition max_foregrounds : Z := 3.
Definition mask_colors : list RGB := [(255, 0, 0); (0, 255, 0); (0, 0, 255)].

(** The random parameters of [_transform_foreground] and the size it
    asks [resize] for (lines 368, 372, 373 and 377). *)
Definition pick_angle_degrees : M Z := random.randint 0 359.

Definition pick_scale : M Q :=
  r ← random.random;
  mret (float_add (float_mul r (binary64 (5 # 10))) (binary64 (5 # 10))).

(** [int(n * scale)], for an [int] [n] and a float [scale]. *)
Definition scaled_axis (n : Z) (scale : Q) : M Z :=
  x ← float_of_int n; int_of_float (float_mul x scale).

Definition scaled_size (fg_image : Image RGBA) (scale : Q) : M (Z * Z) :=
  new_width ← scaled_axis (Z.of_nat (im_width fg_image)) scale;
  new_height ← scaled_axis (Z.of_nat (im_height fg_image)) scale;
  mret (new_width, new_height).

Definition pick_brightness_factor : M Q :=
  r ← random.random;
  mret (float_add (float_mul r (binary64 (4 # 10))) (binary64 (7 # 10))).

Section Composition.
Context {R : Resampling}.
(** The decoded content of the image files: [disk path] is [None] when
    there is no file at [path].  A background is given as
    [convert('RGBA')] leaves it.  A foreground is read without a
    conversion: it is given as the image that [Image.open] returns for a
    file in mode RGBA.  A foreground in a mode without an alpha band, on
    which [getchannel(3)] raises [ValueError], is not represented. *)
Variable disk : string → option (Image RGBA).
Variable self : Self.

Definition Image_open (path : string) : M (Image RGBA) :=
  match disk path with
  | Some im => mret im
  | None => raise FileNotFoundError
  end.

Definition _transform_foreground (fg : Foreground) (fg_path : string) : M (Image RGBA) :=
  fg_image ← Image_open fg_path;
  let fg_alpha := getchannel3 fg_image in
  assert (np_any_eq fg_alpha 0) "foreground needs to have some transparency";;
  (* rotation *)
  angle_degrees ← pick_angle_degrees;
  let fg_image := Image_rotate fg_image angle_degrees BICUBIC true in
  (* scale *)
  scale ← pick_scale;
  new_size ← scaled_size fg_image scale;
  fg_image ← Image_resize fg_image new_size BICUBIC;
  (* brightness *)
  brightness_factor ← pick_brightness_factor;
  let fg_image := Brightness_enhance fg_image brightness_factor in
  mret fg_image.

(** Lines 327-332: the random paste position of a transformed foreground
    on the composite. *)
Definition paste_position_for (composite fg_image : Image RGBA) : M (Z * Z) :=
  let max_x_position := Z.of_nat (im_width composite) - Z.of_nat (im_width fg_image) in
  let max_y_position := Z.of_nat (im_height composite) - Z.of_nat (im_height fg_image) in
  assert ((0 <=? max_x_position) && (0 <=? max_y_position))
         "foreground es demasiado grande para la salida requerida";;
  x ← random.randint 0 max_x_position;
  y ← random.randint 0 max_y_position;
  mret (x, y).

(** The body of the loop of [_compose_images] for one foreground.  Next
    to the new [composite] and [composite_mask] it hands back the
    [uint8_mask] of the iteration, which the statements below name. *)
Definition compose_foreground (fg : Foreground)
    (st : Image RGBA * Image RGB) : M (Image RGBA * Image RGB * Image Z) :=
  let '(composite, composite_mask) := st in
  let fg_path := foreground_path fg in
  fg_image ← _transform_foreground fg fg_path;
  paste_position ← paste_position_for composite fg_image;
  let new_fg_image := Image_new (im_size composite) transparent in
  let new_fg_image := paste transparent new_fg_image fg_image paste_position in
  let alpha_mask := getchannel3 fg_image in
  let new_alpha_mask := Image_new (im_size composite) 0 in
  let new_alpha_mask := paste 0 new_alpha_mask alpha_mask paste_position in
  let composite := Image_composite BLEND_RGBA transparent new_fg_image composite new_alpha_mask in
  let alpha_threshold := 200 in
  let uint8_mask := np_greater new_alpha_mask alpha_threshold in
  let mask_rgb_color := mask_rgb_color fg in
  let red_channel := np_mul uint8_mask mask_rgb_color.1.1 in
  let green_channel := np_mul uint8_mask mask_rgb_color.1.2 in
  let blue_channel := np_mul uint8_mask mask_rgb_color.2 in
  let isolated_mask := np_dstack red_channel green_channel blue_channel in
  let isolated_alpha := np_mul uint8_mask 255 in
  let composite_mask := Image_composite BLEND_RGB black isolated_mask composite_mask isolated_alpha in
  mret (composite, composite_mask, uint8_mask).

(** Lines 306-319: the background, cropped to the output size, and the
    empty mask. *)
Definition crop_background (background_path : string) : M (Image RGBA * Image RGB) :=
  background ← Image_open background_path;
  let bg_width := Z.of_nat (im_width background) in
  let bg_height := Z.of_nat (im_height background) in
  let max_crop_x_pos := bg_width - width self in
  let max_crop_y_pos := bg_height - height self in
  assert (0 <=? max_crop_x_pos) "anchura deseada mayor que ancho de fondo";;
  assert (0 <=? max_crop_y_pos) "altura deseada mayor que alto de fondo";;
  crop_x_pos ← random.randint 0 max_crop_x_pos;
  crop_y_pos ← random.randint 0 max_crop_y_pos;
  let composite := crop transparent background crop_x_pos crop_y_pos (width self) (height self) in
  let composite_mask := Image_new (im_size composite) black in
  mret (composite, composite_mask).

Definition _compose_images (foregrounds : list Foreground) (background_path : string)
    : M (Image RGBA * Image RGB) :=
  st ← crop_background background_path;
  for_each (λ fg st, r ← compose_foreground fg st; mret r.1) foregrounds st.

(** [_compose_images] with the list of the [uint8_mask]s of its
    iterations, in the order of the foregrounds. *)
Definition _compose_images_log (foregrounds : list Foreground) (background_path : string)
    : M (Image RGBA * Image RGB * list (Image Z)) :=
  st ← crop_background background_path;
  for_each (λ fg acc, r ← compose_foreground fg acc.1; mret (r.1, acc.2 ++ [r.2]))
           foregrounds (st, []).

End Composition.

(* ===================================================================== *)
(** * MaskJsonUtils: the mask registry                                     *)
(* ===================================================================== *)

(** [{'category': ..., 'super_category': ...}] *)
Record CategoryItem : Type := mkCategoryItem {
  item_category : string;
  item_super_category : string
}.

(** [{'mask': mask_path, 'color_categories': color_categories}] *)
Record MaskDefinition : Type := mkMaskDefinition {
  mask : string;
  color_categories : gmap string CategoryItem
}.

Module MaskJsonUtils.

Record t : Type := mk {
  output_dir : string;
  masks : gmap string MaskDefinition;
  super_categories : gmap string (gset string)
}.

Definition __init__ (output_dir : string) : t := mk output_dir ∅ ∅.

(** Methods mutate [self]: they take the object and give back the
    returned value with the object after the call. *)
Definition add_category (category super_category : string) (self : t) : bool * t :=
  let create :=
    (true, mk (output_dir self) (masks self)
              (<[super_category := {[category]}]> (super_categories self))) in
  match super_categories self !! super_category with
  | None => create
  | Some s =>
      if decide (s = ∅) then create                     (* [not set()] *)
      else if decide (category ∈ s) then (false, self)
      else (true, mk (output_dir self) (masks self)
                     (<[super_category := s ∪ {[category]}]> (super_categories self)))
  end.

Definition add_mask (image_path mask_path : string)
    (color_categories : gmap string CategoryItem) (self : t) : bool * t :=
  match masks self !! image_path with
  | Some _ => (false, self)          (* a mask definition has two keys: it is truthy *)
  | None =>
      let mask := mkMaskDefinition mask_path color_categories in
      let self := mk (output_dir self) (<[image_path := mask]> (masks self))
                     (super_categories self) in
      let self :=
        map_fold (λ _ item self,
                    (add_category (item_category item) (item_super_category item) self).2)
                 self color_categories in
      (true, self)
  end.

Definition get_masks (self : t) : gmap string MaskDefinition := masks self.

Definition get_super_categories (self : t) : gmap string (list string) :=
  elements <$> super_categories self.

(** The object that [write_masks_to_json] serialises. *)
Definition write_masks_to_json (self : t)
    : gmap string MaskDefinition * gmap string (list string) :=
  (get_masks self, get_super_categories self).

End MaskJsonUtils.

(* ===================================================================== *)
(** * ImageComposition: the generation driver                              *)
(* ===================================================================== *)

(** [str(color)] of a tuple of three ints, e.g. ["(255, 0, 0)"]. *)
Definition str_RGB (c : RGB) : string :=
  "(" +:+ pretty c.1.1 +:+ ", " +:+ pretty c.1.2 +:+ ", " +:+ pretty c.2 +:+ ")".

Fixpoint zeros (n : nat) : string :=
  match n with O => "" | S n' => "0" +:+ zeros n' end.

(** [f'{i:0{padding}}'] *)
Definition zero_padded (padding : nat) (i : nat) : string :=
  let digits := pretty i in
  zeros (padding - String.length digits) +:+ digits.

(** [d[key]] on a dict kept as its items in insertion order. *)
Definition dict_getitem {V} (d : list (string * V)) (key : string) : M V :=
  match list_find (λ kv, kv.1 = key) d with
  | Some (_, kv) => mret kv.2
  | None => raise KeyError
  end.

(** [seq[i]] *)
Definition list_getitem {A} (seq : list A) (i : nat) : M A :=
  match seq !! i with
  | Some x => mret x
  | None => raise IndexError
  end.

(** What one iteration of the loop of [_generate_images] computes. *)
Record Sample : Type := mkSample {
  sample_foregrounds : list Foreground;
  sample_composite : Image RGB;
  sample_mask : Image RGB;
  sample_image_path : string;       (* relative to the output directory *)
  sample_mask_path : string;
  sample_color_categories : gmap string CategoryItem
}.

Section Generation.
Context {R : Resampling}.
Variable disk : string → option (Image RGBA).
Variable self : Self.

(** Lines 253-266: the foreground of slot [fg_i], appended to the list. *)
Definition choose_foreground (fg_i : nat) (foregrounds : list Foreground)
    : M (list Foreground) :=
  super_category ← random.choice (foregrounds_dict self).*1;
  categories ← dict_getitem (foregrounds_dict self) super_category;
  category ← random.choice categories.*1;
  files ← dict_getitem categories category;
  foreground_path ← random.choice files;
  mask_rgb_color ← list_getitem mask_colors fg_i;
  mret (foregrounds ++
        [mkForeground super_category category foreground_path mask_rgb_color]).

(** Lines 250-266: the foregrounds of a sample. *)
Definition choose_foregrounds : M (list Foreground) :=
  num_foregrounds ← random.randint 1 max_foregrounds;
  for_each choose_foreground (seq 0 (Z.to_nat num_foregrounds)) [].

(** Lines 284-292: the categories go to the registry and the color map
    of the sample is filled. *)
Definition register_foregrounds (foregrounds : list Foreground)
    (mju : MaskJsonUtils.t) : MaskJsonUtils.t * gmap string CategoryItem :=
  foldl (λ acc fg,
           let mju := (MaskJsonUtils.add_category (category fg) (super_category fg) acc.1).2 in
           (mju, <[str_RGB (mask_rgb_color fg) :=
                     mkCategoryItem (category fg) (super_category fg)]> acc.2))
        (mju, ∅) foregrounds.

(** The body of the loop of [_generate_images], for sample [i].  The
    state is the registry and the files saved so far. *)
Definition generate_sample (i : nat)
    (st : MaskJsonUtils.t * list (string * Image RGB))
    : M (MaskJsonUtils.t * list (string * Image RGB) * Sample) :=
  let '(mju, saved) := st in
  background_path ← random.choice (backgrounds self);
  foregrounds ← choose_foregrounds;
  '(composite, mask) ← _compose_images disk self foregrounds background_path;
  let save_filename := zero_padded zero_padding i in
  let composite_filename := save_filename +:+ output_type self in
  let composite_path := "images/" +:+ composite_filename in
  let composite := convert_RGB composite in
  let saved := saved ++ [(output_dir self +:+ "/" +:+ composite_path, composite)] in
  let mask_filename := save_filename +:+ ".png" in
  let mask_path := "masks/" +:+ mask_filename in
  let saved := saved ++ [(output_dir self +:+ "/" +:+ mask_path, mask)] in
  let '(mju, color_categories) := register_foregrounds foregrounds mju in
  let mju := (MaskJsonUtils.add_mask composite_path mask_path color_categories mju).2 in
  mret (mju, saved,
        mkSample foregrounds composite mask composite_path mask_path color_categories).

Definition _generate_images
    : M (gmap string MaskDefinition * gmap string (list string) *
         list (string * Image RGB)) :=
  let mju := MaskJsonUtils.__init__ (output_dir self) in
  st ← for_each (λ i st, r ← generate_sample i st; mret r.1)
                (seq 0 (Z.to_nat (count self))) (mju, []);
  mret (MaskJsonUtils.write_masks_to_json st.1, st.2).

End Generation.

(* ===================================================================== *)
(** * ImageComposition: validation of the arguments and [main]             *)
(* ===================================================================== *)

(** The parsed command line.  [output_type] is [None] when the option is
    not given. *)
Record Args : Type := mkArgs {
  args_silent : bool;
  args_count : Z;
  args_width : Z;
  args_height : Z;
  args_output_type : option string;
  args_output_dir : string
}.

(** Reading an attribute of [self] that no statement has set. *)
Definition getattr {A} (attribute : option A) : M A :=
  match attribute with
  | Some v => mret v
  | None => raise AttributeError
  end.

(** [s[0]] *)
Definition str_first (s : string) : M Ascii.ascii :=
  match s with
  | EmptyString => raise IndexError
  | String c _ => mret c
  end.

(** Lines 130-136: [__init__] does not set [self.output_type]; the
    attribute holds what the branches below assign. *)
Definition process_output_type (output_type : option string) : M string :=
  match output_type with
  | None => mret ".jpg"
  | Some given =>
      c ← str_first given;
      let self_output_type : option string :=
        if decide (c ≠ "."%char) then Some ("." +:+ given) else None in
      current ← getattr self_output_type;
      assert (bool_decide (current ∈ allowed_output_types)) "output_type is not supported";;
      mret current
  end.

(** What [_validate_and_process_output_directory] meets in the file
    system and at the terminal: the [OSError] of the first [mkdir] that
    fails, if one does; whether [images_output_dir] has an entry; and the
    answer of the user to the question, in lower case. *)
Record OutputDirectory : Type := mkOutputDirectory {
  mkdir_error : option exn;
  images_output_dir_has_entry : bool;
  answer : string
}.

(** Lines 142-159: after the three directories are made, a run that is
    not silent and finds an entry in [images_output_dir] asks whether to
    go on, and [quit()] raises [SystemExit] unless the answer is [y] or
    [yes]. *)
Definition _validate_and_process_output_directory (silent : bool)
    (output : OutputDirectory) : M unit :=
  match mkdir_error output with
  | Some e => raise e
  | None =>
      if negb silent && images_output_dir_has_entry output then
        let should_continue := answer output in
        if bool_decide (should_continue ≠ "y") && bool_decide (should_continue ≠ "yes")
        then raise SystemExit
        else mret ()
      else mret ()
  end.

(** The directory walk is file I/O: its outcome, the valid foreground
    files by super category and category and the background files, is
    given. *)
Definition _validate_and_process_input_directory
    (found_foregrounds : list (string * list (string * list string)))
    (found_backgrounds : list string) : M unit :=
  assert (bool_decide (0 < length found_foregrounds)%nat) "no se encontraron foregrouns validos";;
  assert (bool_decide (0 < length found_backgrounds)%nat) "no hay backgrounds".

Definition _validate_and_process_args (args : Args) (output : OutputDirectory)
    (found_foregrounds : list (string * list (string * list string)))
    (found_backgrounds : list string) : M Self :=
  let silent := args_silent args in
  assert (0 <? args_count args) "cuenta debe ser mayor que 0";;
  let count := args_count args in
  assert (64 <=? args_width args) "ancho tiene que ser mayor que 64";;
  let width := args_width args in
  assert (64 <=? args_height args) "altura tiene que ser mayor que 64";;
  let height := args_height args in
  output_type ← process_output_type (args_output_type args);
  _validate_and_process_output_directory silent output;;
  _validate_and_process_input_directory found_foregrounds found_backgrounds;;
  mret (mkSelf count width height output_type (args_output_dir args)
               found_foregrounds found_backgrounds).

Section Main.
Context {R : Resampling}.
Variable disk : string → option (Image RGBA).

(** [main], up to the interactive [_create_info]. *)
Definition main (args : Args) (output : OutputDirectory)
    (found_foregrounds : list (string * list (string * list string)))
    (found_backgrounds : list string) :=
  self ← _validate_and_process_args args output found_foregrounds found_backgrounds;
  _generate_images disk self.

End Main.


(* ===================================================================== *)
(** * ImageComposition: the walk of the input directory                    *)
(* ===================================================================== *)

(** ** Dicts kept as their items in insertion order *)

(** [if key not in d: d[key] = v] *)
Definition dict_setdefault {V} (key : string) (v : V) (d : list (string * V))
    : list (string * V) :=
  if bool_decide (key ∈ d.*1) then d else d ++ [(key, v)].

(** An update in place of the value under [key]: [d[key].append(x)],
    [d[key][k] = v]. *)
Fixpoint dict_alter {V} (f : V → V) (key : string) (d : list (string * V))
    : list (string * V) :=
  match d with
  | [] => []
  | (k, v) :: d' =>
      if decide (k = key) then (k, f v) :: d' else (k, v) :: dict_alter f key d'
  end.

(** ** The directory tree and the two scans *)

#[local] Set Warnings "-register-all".

(** An entry of a directory, as [is_file()] and [is_dir()] see it (both
    follow links); [Special] is what is neither, a socket or a dangling
    link for instance.  The children of a directory come in the order of
    [iterdir()]; a directory is one that can be listed. *)
Inductive Entry : Type :=
  | File (name : string)
  | Dir (name : string) (children : list Entry)
  | Special (name : string).

Definition entry_name (x : Entry) : string :=
  match x with File name | Dir name _ | Special name => name end.

(** How a scan ends: with its value, with an exception of the program's
    own, or with the [OSError] of an [iterdir()] on what is not a
    directory ([NotADirectoryError]; [FileNotFoundError] on a dangling
    link). *)
Inductive scanned (A : Type) : Type :=
  | Found (a : A)
  | Failed (e : exn)
  | IterdirError.
Arguments Found {A} a.
Arguments Failed {A} e.
Arguments IterdirError {A}.

(** [parent / name] *)
Definition joinpath (parent name : string) : string := parent +:+ "/" +:+ name.

Definition allowed_background_types : list string := [".png"; ".jpg"; ".jpeg"].

Section InputDirectory.
(** [PurePath.suffix] of a file name (its definition changed between the
    versions of Python; the scans only compare its result). *)
Variable suffix : string → string.

(** Lines 208-217. *)
Definition add_foreground (super_category category image_file : string)
    (foregrounds_dict : list (string * list (string * list string)))
    : list (string * list (string * list string)) :=
  let foregrounds_dict := dict_setdefault super_category [] foregrounds_dict in
  let foregrounds_dict :=
    dict_alter (dict_setdefault category []) super_category foregrounds_dict in
  dict_alter (dict_alter (λ files, files ++ [image_file]) category)
             super_category foregrounds_dict.

(** Lines 199-217: the files of a category directory.  The warnings of the
    skipped entries are not modelled. *)
Definition scan_category (super_category category path : string)
    (foregrounds_dict : list (string * list (string * list string)))
    (image_file : Entry) : list (string * list (string * list string)) :=
  match image_file with
  | File name =>
      if decide (suffix name ≠ ".png") then foregrounds_dict
      else add_foreground super_category category (joinpath path name) foregrounds_dict
  | _ => foregrounds_dict
  end.

(** Lines 193-217: the categories of a super category directory. *)
Definition scan_super_category (super_category path : string)
    (foregrounds_dict : list (string * list (string * list string)))
    (category_dir : Entry) : list (string * list (string * list string)) :=
  match category_dir with
  | Dir category files =>
      foldl (scan_category super_category category (joinpath path category))
            foregrounds_dict files
  | _ => foregrounds_dict
  end.

(** Lines 187-217. *)
Definition scan_foregrounds (path : string)
    (foregrounds_dict : list (string * list (string * list string)))
    (super_category_dir : Entry) : list (string * list (string * list string)) :=
  match super_category_dir with
  | Dir super_category categories =>
      foldl (scan_super_category super_category (joinpath path super_category))
            foregrounds_dict categories
  | _ => foregrounds_dict
  end.

Definition _validate_and_process_foregrounds (path : string) (foregrounds_dir : Entry)
    : scanned (list (string * list (string * list string))) :=
  match foregrounds_dir with
  | Dir _ children =>
      let foregrounds_dict := foldl (scan_foregrounds path) [] children in
      if bool_decide (0 < length foregrounds_dict)%nat then Found foregrounds_dict
      else Failed (AssertionError "no se encontraron foregrouns validos")
  | _ => IterdirError
  end.

(** Lines 223-233. *)
Definition scan_background (path : string) (backgrounds : list string) (image_file : Entry)
    : list string :=
  match image_file with
  | File name =>
      if bool_decide (suffix name ∉ allowed_background_types) then backgrounds
      else backgrounds ++ [joinpath path name]
  | _ => backgrounds
  end.

Definition _validate_and_process_backgrounds (path : string) (backgrounds_dir : Entry)
    : scanned (list string) :=
  match backgrounds_dir with
  | Dir _ children =>
      let backgrounds := foldl (scan_background path) [] children in
      if bool_decide (0 < length backgrounds)%nat then Found backgrounds
      else Failed (AssertionError "no hay backgrounds")
  | _ => IterdirError
  end.

(** Lines 165-169: the loop over the input directory.  The two attributes
    are set by nothing else, [__init__] included. *)
Definition find_directories (dirs : option Entry * option Entry) (x : Entry)
    : option Entry * option Entry :=
  if decide (entry_name x = "foregrounds") then (Some x, dirs.2)
  else if decide (entry_name x = "backgrounds") then (dirs.1, Some x)
  else dirs.

(** Lines 161-175: [_validate_and_process_input_directory] on a directory
    tree ([_validate_and_process_input_directory] above takes what the
    walk has found).  [input_dir] is [None] when [exists()] is false:
    there is nothing at the path, or a dangling link. *)
Definition scan_input_directory (path : string) (input_dir : option Entry)
    : scanned (list (string * list (string * list string)) * list string) :=
  match input_dir with
  | None => Failed (AssertionError ("input_dir no existe: " +:+ path))
  | Some (Dir _ children) =>
      let dirs := foldl find_directories (None, None) children in
      match dirs.1 with
      | None => Failed AttributeError
      | Some foregrounds_dir =>
          match dirs.2 with
          | None => Failed AttributeError
          | Some backgrounds_dir =>
              match _validate_and_process_foregrounds
                      (joinpath path (entry_name foregrounds_dir)) foregrounds_dir with
              | Found foregrounds_dict =>
                  match _validate_and_process_backgrounds
                          (joinpath path (entry_name backgrounds_dir)) backgrounds_dir with
                  | Found backgrounds => Found (foregrounds_dict, backgrounds)
                  | Failed e => Failed e
                  | IterdirError => IterdirError
                  end
              | Failed e => Failed e
              | IterdirError => IterdirError
              end
          end
      end
  | Some _ => IterdirError
  end.

End InputDirectory.

(** ** The output directory *)

(** Lines 143-150 of [_validate_and_process_output_directory]: the
    directories that its three [mkdir(exist_ok=True)] make sure of. *)
Definition created_directories (output_dir : string) : list string :=
  [output_dir; joinpath output_dir "imágenes"; joinpath output_dir "máscaras"].


(* ===================================================================== *)
(** * Reasoning principles                                                 *)
(* ===================================================================== *)

Lemma bind_Return {A B} (m : M A) (f : A → M B) g b g' :
  (m ≫= f) g = Return (b, g') →
  ∃ a g1, m g = Return (a, g1) ∧ f a g1 = Return (b, g').
Proof.
  unfold mbind, M_bind. destruct (m g) as [[a g1]|e]; [eauto | done].
Qed.

Lemma bind_Raise {A B} (m : M A) (f : A → M B) g e :
  m g = Raise e → (m ≫= f) g = Raise e.
Proof. unfold mbind, M_bind. by intros ->. Qed.

Lemma bind_step {A B} (m : M A) (f : A → M B) g a g1 :
  m g = Return (a, g1) → (m ≫= f) g = f a g1.
Proof. unfold mbind, M_bind. by intros ->. Qed.

Lemma ret_Return {A} (a b : A) g g' :
  mret (M := M) a g = Return (b, g') → a = b ∧ g = g'.
Proof. unfold mret, M_ret. by intros [= -> ->]. Qed.

Lemma assert_Return cond msg g u g' :
  assert cond msg g = Return (u, g') → cond = true ∧ g' = g.
Proof. unfold assert. destruct cond; [by intros [= _ ->] | done]. Qed.

(** Splits a hypothesis [(x ← m; k) g = Return _] into its steps. *)
Ltac run_inv H :=
  repeat match type of H with
  | (_ ≫= _) _ = Return _ =>
      let a := fresh "v" in let g := fresh "g" in
      let H1 := fresh "Hrun" in
      apply bind_Return in H as (a & g & H1 & H)
  end.

Definition in_range {A} (im : Image A) (x y : nat) : Prop :=
  (x < im_width im)%nat ∧ (y < im_height im)%nat.

Lemma getpixel_tabulate {A} w h (f : nat → nat → A) x y :
  (x < w)%nat → (y < h)%nat → getpixel (tabulate w h f) x y = Some (f x y).
Proof.
  intros Hx Hy. unfold getpixel, tabulate; simpl.
  rewrite list_lookup_fmap, lookup_seq_lt by done; simpl.
  by rewrite list_lookup_fmap, lookup_seq_lt.
Qed.

Lemma pixel_tabulate {A} (d : A) w h f x y :
  (x < w)%nat → (y < h)%nat → pixel d (tabulate w h f) x y = f x y.
Proof. intros. unfold pixel. by rewrite getpixel_tabulate. Qed.

Lemma getpixel_image_map {A B} (f : A → B) im x y :
  getpixel (image_map f im) x y = f <$> getpixel im x y.
Proof.
  unfold getpixel, image_map; simpl. rewrite list_lookup_fmap.
  destruct (im_rows im !! y) as [row|]; simpl; [|done].
  by rewrite list_lookup_fmap.
Qed.

Lemma pixel_image_map {A B} (f : A → B) d d' im x y v :
  getpixel im x y = Some v → pixel d (image_map f im) x y = f (pixel d' im x y).
Proof. intros H. unfold pixel. rewrite getpixel_image_map, H. done. Qed.

(** ** Bytes and blending *)

Definition byte (z : Z) : Prop := 0 ≤ z ≤ 255.
Definition byte_RGB (p : RGB) : Prop := byte p.1.1 ∧ byte p.1.2 ∧ byte p.2.
Definition byte_RGBA (p : RGBA) : Prop :=
  byte p.1.1.1 ∧ byte p.1.1.2 ∧ byte p.1.2 ∧ byte p.2.

Lemma DIV255_exact v : byte v → DIV255 (v * 255) = v.
Proof.
  unfold byte, DIV255. intros Hv. rewrite !Z.shiftr_div_pow2 by lia.
  change (2 ^ 8) with 256.
  pose proof (Z.div_mod (v * 255 + 128) 256 ltac:(lia)) as Hdm.
  pose proof (Z.mod_pos_bound (v * 255 + 128) 256 ltac:(lia)) as Hb.
  set (q := (v * 255 + 128) / 256) in *.
  symmetry. apply Z.div_unique with (r := q + 128 - v); lia.
Qed.

Lemma BLEND_0 in1 in2 : byte in1 → BLEND 0 in1 in2 = in1.
Proof.
  intros H. unfold BLEND.
  replace (in1 * (255 - 0) + in2 * 0) with (in1 * 255) by lia.
  rewrite DIV255_exact by done. apply Z.mod_small. unfold byte in H. lia.
Qed.

Lemma BLEND_255 in1 in2 : byte in2 → BLEND 255 in1 in2 = in2.
Proof.
  intros H. unfold BLEND.
  replace (in1 * (255 - 255) + in2 * 255) with (in2 * 255) by lia.
  rewrite DIV255_exact by done. apply Z.mod_small. unfold byte in H. lia.
Qed.

Lemma BLEND_RGB_0 p1 p2 : byte_RGB p1 → BLEND_RGB 0 p1 p2 = p1.
Proof.
  destruct p1 as [[r g] b]. intros (?&?&?). unfold BLEND_RGB; simpl in *.
  by rewrite !BLEND_0.
Qed.

Lemma BLEND_RGB_255 p1 p2 : byte_RGB p2 → BLEND_RGB 255 p1 p2 = p2.
Proof.
  destruct p2 as [[r g] b]. intros (?&?&?). unfold BLEND_RGB; simpl in *.
  by rewrite !BLEND_255.
Qed.

(** ** One iteration of the compositor *)

(** The color that painting with [color] through the 0/1 array [u] leaves
    at [(x, y)] over the color [old]. *)
Definition paint_pixel (x y : nat) (old : RGB) (layer : RGB * Image Z) : RGB :=
  if decide (pixel 0 layer.2 x y = 1) then layer.1 else old.

Section CompositorFacts.
Context {R : Resampling}.
Variable disk : string → option (Image RGBA).

Lemma compose_foreground_spec fg composite composite_mask g composite' mask' u g' :
  compose_foreground disk fg (composite, composite_mask) g
    = Return (composite', mask', u, g') →
  im_size composite_mask = im_size composite →
  byte_RGB (mask_rgb_color fg) →
  im_size composite' = im_size composite ∧
  im_size mask' = im_size composite ∧
  im_size u = im_size composite ∧
  ∀ x y, in_range composite x y →
    (pixel 0 u x y = 0 ∨ pixel 0 u x y = 1) ∧
    is_Some (getpixel mask' x y) ∧
    (byte_RGB (pixel black composite_mask x y) →
     pixel black mask' x y
       = paint_pixel x y (pixel black composite_mask x y) (mask_rgb_color fg, u)).
Proof.
  intros Hrun Hsize Hcolor. unfold compose_foreground in Hrun.
  run_inv Hrun. apply ret_Return in Hrun as [Heq _].
  injection Heq as <- <- <-.
  injection Hsize as Hw Hh.
  split; [|split; [|split]]; [unfold im_size; simpl; congruence..|].
  intros x y [Hx Hy].
  set (padded := paste 0 (Image_new (im_size composite) 0) (getchannel3 v) v0).
  assert (∃ a, getpixel padded x y = Some a) as [a Ha].
  { eexists. unfold padded, paste. apply getpixel_tabulate; simpl; lia. }
  assert (Hu : pixel 0 (np_greater padded 200) x y = if 200 <? a then 1 else 0).
  { unfold pixel, np_greater. by rewrite getpixel_image_map, Ha. }
  split; [rewrite Hu; destruct (200 <? a); auto|].
  split; [unfold Image_composite; rewrite getpixel_tabulate by (simpl; lia); eauto|].
  intros Hold. unfold paint_pixel; simpl.
  unfold Image_composite. rewrite pixel_tabulate by (simpl; lia).
  unfold np_dstack. rewrite pixel_tabulate by (simpl; lia).
  unfold pixel at 1 3 4 5, np_mul. rewrite !getpixel_image_map.
  fold (np_greater padded 200). unfold np_greater at 1 2 3 4.
  rewrite !getpixel_image_map, Ha; simpl. rewrite Hu.
  destruct Hcolor as (Hr & Hg & Hb). unfold byte in *.
  destruct (200 <? a); simpl.
  - rewrite !Z.mul_1_l.
    change (255 `mod` 256) with 255.
    rewrite !Z.mod_small by lia.
    rewrite BLEND_RGB_255; [by destruct (mask_rgb_color fg) as [[??]?]|].
    unfold byte_RGB, byte; simpl; lia.
  - change (0 `mod` 256) with 0.
    by rewrite BLEND_RGB_0.
Qed.

End CompositorFacts.

(** ** The mask as the layers painted in order *)

Definition paint (x y : nat) (init : RGB) (layers : list (RGB * Image Z)) : RGB :=
  foldl (paint_pixel x y) init layers.

Lemma paint_snoc x y init layers layer :
  paint x y init (layers ++ [layer]) = paint_pixel x y (paint x y init layers) layer.
Proof. unfold paint. by rewrite foldl_app. Qed.

Lemma paint_init_or_layer x y init layers :
  paint x y init layers = init ∨
  ∃ i layer, layers !! i = Some layer ∧ pixel 0 layer.2 x y = 1 ∧
             paint x y init layers = layer.1.
Proof.
  induction layers as [|layer layers IH] using rev_ind; [by left|].
  rewrite paint_snoc. unfold paint_pixel. case_decide as Hocc.
  - right. exists (length layers), layer. by rewrite list_lookup_middle.
  - destruct IH as [IH | (i & l & Hi & Hp & IH)]; [by left|].
    right. exists i, l. split_and!; [|done..].
    by apply lookup_app_l_Some.
Qed.

Lemma paint_unoccupied x y init layers :
  (∀ i layer, layers !! i = Some layer → pixel 0 layer.2 x y ≠ 1) →
  paint x y init layers = init.
Proof.
  induction layers as [|layer layers IH] using rev_ind; [done|].
  intros Hfree. rewrite paint_snoc. unfold paint_pixel.
  rewrite decide_False.
  - apply IH. intros i l Hi. apply (Hfree i). by apply lookup_app_l_Some.
  - apply (Hfree (length layers)). by rewrite list_lookup_middle.
Qed.

Lemma paint_last_occupier x y init layers j layer :
  layers !! j = Some layer →
  pixel 0 layer.2 x y = 1 →
  (∀ k later, (j < k)%nat → layers !! k = Some later → pixel 0 later.2 x y ≠ 1) →
  paint x y init layers = layer.1.
Proof.
  intros Hj Hocc Hlater.
  rewrite <- (take_drop_middle layers j layer Hj).
  unfold paint. rewrite foldl_app; simpl.
  fold (paint x y (paint_pixel x y (foldl (paint_pixel x y) init (take j layers)) layer)
              (drop (S j) layers)).
  rewrite paint_unoccupied.
  - unfold paint_pixel. by rewrite decide_True.
  - intros i l Hi. rewrite lookup_drop in Hi. apply (Hlater (S j + i)%nat); [lia | done].
Qed.

Section CompositorLoop.
Context {R : Resampling}.
Variable disk : string → option (Image RGBA).

Let body := λ (fg : Foreground) (st : Image RGBA * Image RGB),
  r ← compose_foreground disk fg st; mret (M := M) r.1.
Let body_log := λ (fg : Foreground) (acc : Image RGBA * Image RGB * list (Image Z)),
  r ← compose_foreground disk fg acc.1; mret (M := M) (r.1, acc.2 ++ [r.2]).

Lemma compose_loop_erase fgs st log g :
  match for_each body_log fgs (st, log) g with
  | Return (acc, g') => for_each body fgs st g = Return (acc.1, g')
  | Raise e => for_each body fgs st g = Raise e
  end.
Proof.
  revert st log g. induction fgs as [|fg fgs IH]; intros st log g; [done|].
  change (for_each body_log (fg :: fgs) (st, log))
    with (body_log fg (st, log) ≫= for_each body_log fgs).
  change (for_each body (fg :: fgs) st) with (body fg st ≫= for_each body fgs).
  destruct (compose_foreground disk fg st g) as [[[st1 u] g1]|e] eqn:Hstep.
  - assert (body_log fg (st, log) g = Return (st1, log ++ [u], g1)) as Hlog.
    { unfold body_log. by rewrite (bind_step _ _ _ _ _ Hstep). }
    assert (body fg st g = Return (st1, g1)) as Hbody.
    { unfold body. by rewrite (bind_step _ _ _ _ _ Hstep). }
    rewrite (bind_step _ _ _ _ _ Hlog), (bind_step _ _ _ _ _ Hbody). apply IH.
  - assert (body_log fg (st, log) g = Raise e) as Hlog.
    { unfold body_log. by rewrite (bind_Raise _ _ _ _ Hstep). }
    assert (body fg st g = Raise e) as Hbody.
    { unfold body. by rewrite (bind_Raise _ _ _ _ Hstep). }
    by rewrite (bind_Raise _ _ _ _ Hlog), (bind_Raise _ _ _ _ Hbody).
Qed.

(** A pixel of the canvas is a pixel of every image of the loop. *)
Definition canvas_pixel (size : nat * nat) (x y : nat) : Prop :=
  (x < size.1)%nat ∧ (y < size.2)%nat.

(** The arrays of the log are 0/1 arrays of the size of the canvas. *)
Definition occupancy_array (size : nat * nat) (u : Image Z) : Prop :=
  im_size u = size ∧
  ∀ x y, canvas_pixel size x y → pixel 0 u x y = 0 ∨ pixel 0 u x y = 1.

Lemma compose_loop_spec fgs : ∀ composite mask log g composite' mask' log' g',
  for_each body_log fgs (composite, mask, log) g
    = Return (composite', mask', log', g') →
  im_size mask = im_size composite →
  Forall (λ fg, byte_RGB (mask_rgb_color fg)) fgs →
  (∀ x y, canvas_pixel (im_size composite) x y → byte_RGB (pixel black mask x y)) →
  ∃ us, log' = log ++ us ∧ length us = length fgs ∧
    im_size composite' = im_size composite ∧
    im_size mask' = im_size composite ∧
    Forall (occupancy_array (im_size composite)) us ∧
    ∀ x y, canvas_pixel (im_size composite) x y →
      (is_Some (getpixel mask x y) → is_Some (getpixel mask' x y)) ∧
      pixel black mask' x y
        = paint x y (pixel black mask x y) (zip (mask_rgb_color <$> fgs) us).
Proof.
  induction fgs as [|fg fgs IH]; intros c m log g c' m' log' g' Hrun Hsize Hcolors Hbytes.
  - simpl in Hrun. apply ret_Return in Hrun as [[= <- <- <-] _].
    exists []. rewrite app_nil_r. by repeat split.
  - simpl in Hrun. apply bind_Return in Hrun as ([[c1 m1] log1] & g1 & Hstep & Hrun).
    unfold body_log in Hstep.
    apply bind_Return in Hstep as ([[c1' m1'] u] & g1' & Hstep & Hret).
    apply ret_Return in Hret as [[= <- <- <-] <-]. simpl in *.
    apply Forall_cons in Hcolors as [Hcolor Hcolors].
    destruct (compose_foreground_spec disk _ _ _ _ _ _ _ _ Hstep Hsize Hcolor)
      as (Hc1 & Hm1 & Hu & Hpix).
    assert (Hbytes1 : ∀ x y, canvas_pixel (im_size c1') x y →
              byte_RGB (pixel black m1' x y)).
    { intros x y Hxy. rewrite Hc1 in Hxy.
      destruct (Hpix x y Hxy) as (_ & _ & ->); [|by apply Hbytes].
      unfold paint_pixel; simpl. case_decide; [done | by apply Hbytes]. }
    destruct (IH _ _ _ _ _ _ _ _ Hrun ltac:(congruence) Hcolors Hbytes1)
      as (us & -> & Hlen & Hc' & Hm' & Hus & Hfinal).
    exists (u :: us). rewrite <- app_assoc. simpl.
    split_and!; [done | by rewrite Hlen | congruence | congruence | |].
    + apply Forall_cons. rewrite Hc1 in Hus. split; [|done].
      split; [done|]. intros x y Hxy. by apply Hpix.
    + intros x y Hxy.
      destruct (Hfinal x y) as [Hstored ->]; [by rewrite Hc1|].
      destruct (Hpix x y Hxy) as (_ & Hsome & ->); [|by apply Hbytes]. auto.
Qed.

Variable self : Self.

Lemma crop_background_spec background_path g composite mask g' :
  crop_background disk self background_path g = Return (composite, mask, g') →
  im_size composite = (Z.to_nat (width self), Z.to_nat (height self)) ∧
  im_size mask = im_size composite ∧
  ∀ x y, canvas_pixel (im_size composite) x y → getpixel mask x y = Some black.
Proof.
  intros Hrun. unfold crop_background in Hrun. run_inv Hrun.
  apply ret_Return in Hrun as [[= <- <-] _].
  split_and!; [done..|].
  intros x y [Hx Hy]. unfold Image_new. by rewrite getpixel_tabulate.
Qed.

(** [_compose_images] returns what [_compose_images_log] returns, less
    the log. *)
Lemma _compose_images_log_erase foregrounds background_path g :
  match _compose_images_log disk self foregrounds background_path g with
  | Return (r, g') =>
      _compose_images disk self foregrounds background_path g = Return (r.1, g')
  | Raise e => _compose_images disk self foregrounds background_path g = Raise e
  end.
Proof.
  unfold _compose_images_log, _compose_images, mbind, M_bind.
  destruct (crop_background disk self background_path g) as [[st g1]|e]; [|done].
  apply compose_loop_erase.
Qed.

Lemma _compose_images_has_log foregrounds background_path g composite mask g' :
  _compose_images disk self foregrounds background_path g = Return (composite, mask, g') →
  ∃ log, _compose_images_log disk self foregrounds background_path g
           = Return (composite, mask, log, g').
Proof.
  intros Hrun.
  pose proof (_compose_images_log_erase foregrounds background_path g) as Herase.
  destruct (_compose_images_log disk self foregrounds background_path g)
    as [[[st log] g1]|e]; [|congruence].
  simpl in Herase. rewrite Herase in Hrun. injection Hrun as -> ->. by exists log.
Qed.

(** The mask that the compositor returns is the black canvas painted
    with the layers of the log, in the order of the foregrounds. *)
Lemma _compose_images_log_spec foregrounds background_path g composite mask log g' :
  _compose_images_log disk self foregrounds background_path g
    = Return (composite, mask, log, g') →
  Forall (λ fg, byte_RGB (mask_rgb_color fg)) foregrounds →
  let size := (Z.to_nat (width self), Z.to_nat (height self)) in
  length log = length foregrounds ∧
  im_size composite = size ∧ im_size mask = size ∧
  Forall (occupancy_array size) log ∧
  ∀ x y, canvas_pixel size x y →
    getpixel mask x y
      = Some (paint x y black (zip (mask_rgb_color <$> foregrounds) log)).
Proof.
  intros Hrun Hcolors size. unfold _compose_images_log in Hrun.
  apply bind_Return in Hrun as ([c0 m0] & g0 & Hcrop & Hrun).
  apply crop_background_spec in Hcrop as (Hc0 & Hm0 & Hblack).
  destruct (compose_loop_spec _ _ _ _ _ _ _ _ _ Hrun Hm0 Hcolors)
    as (us & -> & Hlen & Hc & Hm & Hus & Hfinal).
  { intros x y Hxy. unfold pixel. by rewrite Hblack. }
  simpl. rewrite Hc0 in *. fold size in Hc, Hm, Hus, Hfinal, Hblack.
  split_and!; [done..|].
  intros x y Hxy. destruct (Hfinal x y Hxy) as [Hstored Hpaint].
  destruct Hstored as [p Hp]; [by rewrite Hblack|].
  unfold pixel in Hpaint. rewrite Hp, Hblack in Hpaint by done. simpl in Hpaint.
  by rewrite Hp, Hpaint.
Qed.

End CompositorLoop.

(* ===================================================================== *)
(** * The mask registry                                                    *)
(* ===================================================================== *)

(** The categories recorded under a super category ([∅] when the super
    category is not a key). *)
Definition categories_of (self : MaskJsonUtils.t) (super_category : string) : gset string :=
  default ∅ (MaskJsonUtils.super_categories self !! super_category).

Lemma categories_of_insert output_dir masks taxonomy s set s' :
  categories_of (MaskJsonUtils.mk output_dir masks (<[s := set]> taxonomy)) s'
    = if decide (s = s') then set else default ∅ (taxonomy !! s').
Proof.
  unfold categories_of; simpl. case_decide as Hs.
  - subst. by rewrite lookup_insert_eq.
  - by rewrite lookup_insert_ne.
Qed.

Lemma add_category_spec category super_category self :
  let r := MaskJsonUtils.add_category category super_category self in
  MaskJsonUtils.output_dir r.2 = MaskJsonUtils.output_dir self ∧
  MaskJsonUtils.masks r.2 = MaskJsonUtils.masks self ∧
  (∀ s c, c ∈ categories_of r.2 s ↔
          c ∈ categories_of self s ∨ (c = category ∧ s = super_category)) ∧
  (r.1 = false ↔ category ∈ categories_of self super_category) ∧
  (r.1 = false → r.2 = self).
Proof.
  unfold MaskJsonUtils.add_category.
  assert (Hcat : ∀ s, categories_of self s
                      = default ∅ (MaskJsonUtils.super_categories self !! s)) by done.
  destruct (MaskJsonUtils.super_categories self !! super_category) as [set|] eqn:Hget.
  - destruct (decide (set = ∅)) as [->|Hne]; [|destruct (decide (category ∈ set))].
    + simpl. split_and!; [done..| | |done].
      * intros s c. rewrite categories_of_insert, Hcat.
        case_decide; subst; [rewrite Hget; simpl|]; set_solver.
      * rewrite Hcat, Hget; simpl. set_solver.
    + simpl. split_and!; [done..| | |done].
      * intros s c. rewrite Hcat.
        destruct (decide (super_category = s)); subst; [rewrite Hget; simpl|]; set_solver.
      * by rewrite Hcat, Hget.
    + simpl. split_and!; [done..| | |done].
      * intros s c. rewrite categories_of_insert, Hcat.
        case_decide; subst; [rewrite Hget; simpl|]; set_solver.
      * rewrite Hcat, Hget; simpl. set_solver.
  - simpl. split_and!; [done..| | |done].
    + intros s c. rewrite categories_of_insert, Hcat.
      case_decide; subst; [rewrite Hget; simpl|]; set_solver.
    + rewrite Hcat, Hget; simpl. set_solver.
Qed.

Lemma add_mask_fresh self image_path mask_path (color_categories : gmap string CategoryItem) :
  MaskJsonUtils.masks self !! image_path = None →
  let r := MaskJsonUtils.add_mask image_path mask_path color_categories self in
  r.1 = true ∧
  MaskJsonUtils.masks r.2
    = <[image_path := mkMaskDefinition mask_path color_categories]>
        (MaskJsonUtils.masks self) ∧
  MaskJsonUtils.output_dir r.2 = MaskJsonUtils.output_dir self ∧
  ∀ s c, c ∈ categories_of r.2 s ↔
         c ∈ categories_of self s ∨
         ∃ color, color_categories !! color = Some (mkCategoryItem c s).
Proof.
  unfold MaskJsonUtils.add_mask. intros ->. simpl. split; [done|].
  set (self1 := MaskJsonUtils.mk _ _ _).
  apply (map_fold_weak_ind (λ r (m : gmap string CategoryItem),
    MaskJsonUtils.masks r = MaskJsonUtils.masks self1 ∧
    MaskJsonUtils.output_dir r = MaskJsonUtils.output_dir self ∧
    ∀ s c, c ∈ categories_of r s ↔
           c ∈ categories_of self s ∨ ∃ color, m !! color = Some (mkCategoryItem c s))).
  - split_and!; [done..|]. intros s c. split; [by left|].
    intros [?|[color Hcolor]]; [done|]. by rewrite lookup_empty in Hcolor.
  - intros color [c0 s0] m r Hfresh (Hmasks & Hdir & Htax); simpl.
    destruct (add_category_spec c0 s0 r) as (Hdir' & Hmasks' & Htax' & _).
    simpl in *. split_and!; [congruence..|].
    intros s c. rewrite Htax', Htax. split.
    + intros [[?|[k Hk]]|[-> ->]]; [by left | right | right].
      * exists k. rewrite lookup_insert_ne; [done|]. by intros ->; rewrite Hfresh in Hk.
      * exists color. by rewrite lookup_insert_eq.
    + intros [?|[k Hk]]; [by left; left|].
      destruct (decide (color = k)) as [->|Hne].
      * rewrite lookup_insert_eq in Hk. injection Hk as -> ->. by right.
      * rewrite lookup_insert_ne in Hk by done. left; right. by exists k.
Qed.

(** C3. [add_mask] returns [False] and leaves the mask dictionary and the
    taxonomy as they are when the image path is already registered;
    otherwise it inserts the entry [{mask path, color map}] under the image
    path, folds every (category, super category) pair of the map into the
    taxonomy and returns [True].  In both cases it returns: no exception. *)
Theorem add_mask_duplicate_or_insert self image_path mask_path
    (color_categories : gmap string CategoryItem) :
  (is_Some (MaskJsonUtils.masks self !! image_path) →
   MaskJsonUtils.add_mask image_path mask_path color_categories self = (false, self)) ∧
  (MaskJsonUtils.masks self !! image_path = None →
   let r := MaskJsonUtils.add_mask image_path mask_path color_categories self in
   r.1 = true ∧
   MaskJsonUtils.masks r.2
     = <[image_path := mkMaskDefinition mask_path color_categories]>
         (MaskJsonUtils.masks self) ∧
   MaskJsonUtils.output_dir r.2 = MaskJsonUtils.output_dir self ∧
   ∀ s c, c ∈ categories_of r.2 s ↔
          c ∈ categories_of self s ∨
          ∃ color, color_categories !! color = Some (mkCategoryItem c s)).
Proof.
  split.
  - unfold MaskJsonUtils.add_mask. by intros [d ->].
  - apply add_mask_fresh.
Qed.

(* ===================================================================== *)
(** * Random draws                                                         *)
(* ===================================================================== *)

(** The state of the oracle after [n] draws. *)
Definition drawn (n : nat) (g : Random) : Random := mkRandom (tape g) (n + cursor g).

Lemma randint_run a b g :
  a ≤ b →
  random.randint a b g
    = Return (a + tape g (cursor g) `mod` (b - a + 1), drawn 1 g).
Proof.
  intros Hab. unfold random.randint. by rewrite (proj2 (Z.ltb_ge b a)).
Qed.

Lemma randint_range a b g n g' :
  random.randint a b g = Return (n, g') → a ≤ n ≤ b ∧ g' = drawn 1 g.
Proof.
  unfold random.randint. destruct (b <? a) eqn:Hab; [done|].
  apply Z.ltb_ge in Hab. intros [= <- <-]. split; [|done].
  pose proof (Z.mod_pos_bound (tape g (cursor g)) (b - a + 1)). lia.
Qed.

Lemma randint_empty a b g : b < a → random.randint a b g = Raise ValueError.
Proof. intros Hab. unfold random.randint. by rewrite (proj2 (Z.ltb_lt b a)). Qed.

Lemma random_run g :
  random.random g = Return (Qmake (tape g (cursor g) `mod` 2 ^ 53) (2 ^ 53), drawn 1 g).
Proof. done. Qed.

Lemma random_range g r g' :
  random.random g = Return (r, g') → (0 <= r)%Q ∧ (r < 1)%Q ∧ g' = drawn 1 g.
Proof.
  rewrite random_run. intros [= <- <-].
  pose proof (Z.mod_pos_bound (tape g (cursor g)) (2 ^ 53) ltac:(lia)) as Hb.
  unfold Qle, Qlt; simpl. change (Z.pos (2 ^ 53)) with (2 ^ 53).
  set (k := tape g (cursor g) `mod` 2 ^ 53) in *. split_and!; [lia..|done].
Qed.

(** The oracle that draws the numbers of [rs], and 0 afterwards. *)
Definition draws (rs : list Z) : Random := mkRandom (λ i, default 0 (rs !! i)) 0.

(* ===================================================================== *)
(** * Placement of a foreground                                            *)
(* ===================================================================== *)

Lemma paste_position_for_fits composite fg_image g :
  (im_width fg_image ≤ im_width composite)%nat →
  (im_height fg_image ≤ im_height composite)%nat →
  ∃ x y, paste_position_for composite fg_image g = Return ((x, y), drawn 2 g) ∧
         0 ≤ x ≤ Z.of_nat (im_width composite) - Z.of_nat (im_width fg_image) ∧
         0 ≤ y ≤ Z.of_nat (im_height composite) - Z.of_nat (im_height fg_image).
Proof.
  intros Hw Hh. unfold paste_position_for.
  set (mx := Z.of_nat (im_width composite) - Z.of_nat (im_width fg_image)).
  set (my := Z.of_nat (im_height composite) - Z.of_nat (im_height fg_image)).
  assert (0 ≤ mx ∧ 0 ≤ my) as [Hmx Hmy] by lia.
  rewrite (proj2 (Z.leb_le 0 mx) Hmx), (proj2 (Z.leb_le 0 my) Hmy); simpl.
  unfold mbind at 1, M_bind; simpl.
  rewrite (bind_step _ _ _ _ _ (randint_run 0 mx g Hmx)).
  rewrite (bind_step _ _ _ _ _ (randint_run 0 my (drawn 1 g) Hmy)).
  eexists _, _. split; [done|].
  pose proof (Z.mod_pos_bound (tape g (cursor g)) (mx - 0 + 1)).
  pose proof (Z.mod_pos_bound (tape (drawn 1 g) (cursor (drawn 1 g))) (my - 0 + 1)).
  lia.
Qed.

Lemma paste_position_for_overflow composite fg_image g :
  (im_width composite < im_width fg_image)%nat ∨
  (im_height composite < im_height fg_image)%nat →
  paste_position_for composite fg_image g
    = Raise (AssertionError "foreground es demasiado grande para la salida requerida").
Proof.
  intros Hover. unfold paste_position_for.
  set (mx := Z.of_nat (im_width composite) - Z.of_nat (im_width fg_image)).
  set (my := Z.of_nat (im_height composite) - Z.of_nat (im_height fg_image)).
  assert ((0 <=? mx) && (0 <=? my) = false) as ->; [|done].
  apply andb_false_iff. rewrite !Z.leb_gt. lia.
Qed.

(** C7. A transformed foreground of exactly the size of the canvas is
    placed: the paste position is drawn from the single point (0, 0), the
    overflow assertion does not fire and the iteration of the compositor
    returns.  The assertion fires exactly when the foreground exceeds the
    canvas in some axis. *)
Theorem foreground_of_canvas_size_is_placed {R : Resampling}
    (disk : string → option (Image RGBA)) fg composite composite_mask g fg_image g1 :
  _transform_foreground disk fg (foreground_path fg) g = Return (fg_image, g1) →
  im_size fg_image = im_size composite →
  paste_position_for composite fg_image g1 = Return ((0, 0), drawn 2 g1) ∧
  (∃ r, compose_foreground disk fg (composite, composite_mask) g
          = Return (r, drawn 2 g1)) ∧
  (∀ (canvas image : Image RGBA) h,
     (∃ msg, paste_position_for canvas image h = Raise (AssertionError msg)) ↔
     (im_width canvas < im_width image)%nat ∨ (im_height canvas < im_height image)%nat).
Proof.
  intros Htransform [= Hw Hh].
  assert (Hplace : paste_position_for composite fg_image g1
                   = Return ((0, 0), drawn 2 g1)).
  { destruct (paste_position_for_fits composite fg_image g1) as (x & y & -> & Hx & Hy);
      [lia..|].
    by replace x with 0 by lia; replace y with 0 by lia. }
  split_and!; [done| |].
  - unfold compose_foreground.
    rewrite (bind_step _ _ _ _ _ Htransform), (bind_step _ _ _ _ _ Hplace).
    by eexists.
  - intros canvas image h. split.
    + intros [msg Hraise].
      destruct (decide (im_width canvas < im_width image)%nat); [by left|].
      destruct (decide (im_height canvas < im_height image)%nat); [by right|].
      destruct (paste_position_for_fits canvas image h) as (x & y & Hfit & _); [lia..|].
      congruence.
    + intros Hover. eexists. by apply paste_position_for_overflow.
Qed.

(* ===================================================================== *)
(** * The rotation angle                                                   *)
(* ===================================================================== *)

Lemma pick_angle_degrees_run g :
  pick_angle_degrees g = Return (tape g (cursor g) `mod` 360, drawn 1 g).
Proof. unfold pick_angle_degrees. by rewrite randint_run. Qed.

(* ===================================================================== *)
(** * Validation of the arguments                                          *)
(* ===================================================================== *)

Section Validation.
Variable output : OutputDirectory.
Variable found_foregrounds : list (string * list (string * list string)).
Variable found_backgrounds : list string.
Variable g : Random.

Let validate args :=
  _validate_and_process_args args output found_foregrounds found_backgrounds g.

Lemma validation_rejects_count args :
  args_count args ≤ 0 →
  validate args = Raise (AssertionError "cuenta debe ser mayor que 0").
Proof.
  intros Hcount. unfold validate, _validate_and_process_args.
  apply bind_Raise. unfold assert. by rewrite (proj2 (Z.ltb_ge 0 _)).
Qed.

Lemma validation_rejects_width args :
  0 < args_count args → args_width args < 64 →
  validate args = Raise (AssertionError "ancho tiene que ser mayor que 64").
Proof.
  intros Hcount Hwidth. unfold validate, _validate_and_process_args, assert.
  rewrite (proj2 (Z.ltb_lt 0 _)) by done.
  rewrite (bind_step _ _ _ () g) by done.
  apply bind_Raise. by rewrite (proj2 (Z.leb_gt 64 _)).
Qed.

Lemma validation_rejects_height args :
  0 < args_count args → 64 ≤ args_width args → args_height args < 64 →
  validate args = Raise (AssertionError "altura tiene que ser mayor que 64").
Proof.
  intros Hcount Hwidth Hheight. unfold validate, _validate_and_process_args, assert.
  rewrite (proj2 (Z.ltb_lt 0 _)) by done.
  rewrite (bind_step _ _ _ () g) by done.
  rewrite (proj2 (Z.leb_le 64 (args_width args))) by done.
  rewrite (bind_step _ _ _ () g) by done.
  apply bind_Raise. by rewrite (proj2 (Z.leb_gt 64 _)).
Qed.

(** The sizes pass the first three assertions. *)
Lemma validation_reaches_output_type args :
  0 < args_count args → 64 ≤ args_width args → 64 ≤ args_height args →
  validate args =
    (output_type ← process_output_type (args_output_type args);
     _validate_and_process_output_directory (args_silent args) output;;
     _validate_and_process_input_directory found_foregrounds found_backgrounds;;
     mret (mkSelf (args_count args) (args_width args) (args_height args) output_type
                  (args_output_dir args) found_foregrounds found_backgrounds)) g.
Proof.
  intros Hcount Hwidth Hheight. unfold validate, _validate_and_process_args, assert.
  rewrite (proj2 (Z.ltb_lt 0 _)) by done.
  rewrite (bind_step _ _ _ () g) by done.
  rewrite (proj2 (Z.leb_le 64 (args_width args))) by done.
  rewrite (bind_step _ _ _ () g) by done.
  rewrite (proj2 (Z.leb_le 64 (args_height args))) by done.
  by rewrite (bind_step _ _ _ () g).
Qed.

(** A format outside the allowed set is refused, with or without dot. *)
Lemma process_output_type_rejects given :
  given ∉ allowed_output_types → "." +:+ given ∉ allowed_output_types →
  ∃ e, process_output_type (Some given) g = Raise e.
Proof.
  intros Hgiven Hdotted. unfold process_output_type.
  destruct given as [|c rest]; [by eexists|].
  rewrite (bind_step _ _ _ c g) by done.
  case_decide as Hc; [|by eexists].
  rewrite (bind_step _ _ _ ("." +:+ String c rest) g) by done.
  unfold assert. rewrite bool_decide_eq_false_2 by done. by eexists.
Qed.

(** An omitted format is [.jpg]; an allowed format without its dot gets
    the dot. *)
Lemma process_output_type_default : process_output_type None g = Return (".jpg", g).
Proof. done. Qed.

Lemma process_output_type_undotted :
  Forall (λ given, process_output_type (Some given) g = Return ("." +:+ given, g))
         ["png"; "jpg"; "jpeg"].
Proof. by repeat constructor. Qed.

Lemma validation_accepts_64 count output_dir given :
  0 < count → found_foregrounds ≠ [] → found_backgrounds ≠ [] →
  mkdir_error output = None →
  given ∈ [None; Some "png"; Some "jpg"; Some "jpeg"] →
  ∃ self, validate (mkArgs true count 64 64 given output_dir) = Return (self, g) ∧
          width self = 64 ∧ height self = 64 ∧
          output_type self ∈ allowed_output_types.
Proof.
  intros Hcount Hfg Hbg Hmkdir Hgiven.
  rewrite validation_reaches_output_type by (simpl; lia).
  assert (∃ t, process_output_type given g = Return (t, g) ∧ t ∈ allowed_output_types)
    as (t & Ht & Hallowed).
  { rewrite !elem_of_cons, elem_of_nil in Hgiven.
    destruct Hgiven as [->|[->|[->|[->|[]]]]]; eexists; (split; [vm_compute; reflexivity|]);
      unfold allowed_output_types; set_solver. }
  simpl. rewrite (bind_step _ _ _ _ _ Ht).
  unfold _validate_and_process_output_directory. rewrite Hmkdir. simpl.
  rewrite (bind_step _ _ _ () g) by done.
  unfold _validate_and_process_input_directory, assert.
  destruct found_foregrounds; [done|]. destruct found_backgrounds; [done|].
  by eexists.
Qed.

(** C5: evaluation at the failing input.  Each format of the allowed set,
    given with its leading dot, leaves [self.output_type] unset: the
    validation of otherwise valid arguments ends with [AttributeError]
    instead of accepting the format. *)
Theorem dotted_output_type_raises_AttributeError :
  Forall (λ given, validate (mkArgs false 1 64 64 (Some given) "out") = Raise AttributeError)
         allowed_output_types.
Proof. by repeat constructor. Qed.

End Validation.

(** Nothing is generated when the validation fails. *)
Lemma main_validates_first {R : Resampling} disk args output found_foregrounds
    found_backgrounds g e :
  _validate_and_process_args args output found_foregrounds found_backgrounds g = Raise e →
  main disk args output found_foregrounds found_backgrounds g = Raise e.
Proof. intros Hfail. unfold main. by apply bind_Raise. Qed.

(* ===================================================================== *)
(** * Rounding to a binary format                                          *)
(* ===================================================================== *)

(** ** Powers of two *)

Lemma pow2_pos z : (0 < 2 ^ z)%Q.
Proof. by apply Qpower_0_lt. Qed.

Lemma pow2_plus a b : (2 ^ (a + b) == 2 ^ a * 2 ^ b)%Q.
Proof. by apply Qpower_plus. Qed.

Lemma pow2_le a b : a ≤ b → (2 ^ a <= 2 ^ b)%Q.
Proof. intros. by apply Qpower_le_compat_l. Qed.

Lemma pow2_lt a b : a < b → (2 ^ a < 2 ^ b)%Q.
Proof. intros. by apply Qpower_lt_compat_l. Qed.

Lemma pow2_lt_inv a b : (2 ^ a < 2 ^ b)%Q → a < b.
Proof. intros. by eapply Qpower_lt_compat_l_inv. Qed.

Lemma pow2_inject z : 0 ≤ z → (inject_Z (2 ^ z) == 2 ^ z)%Q.
Proof. intros. by rewrite Zpower_Qpower. Qed.

Lemma pow2_div x a : (x / 2 ^ a == x * 2 ^ (- a))%Q.
Proof. rewrite Qpower_opp. reflexivity. Qed.

(** ** The exponent *)

Lemma Qmake_mult_den n d : ((n # d) * inject_Z (Z.pos d) == inject_Z n)%Q.
Proof. unfold Qeq, Qmult, inject_Z; simpl. lia. Qed.

Lemma Qlt_mult_den q n d : (q * inject_Z (Z.pos d) < inject_Z n)%Q → (q < n # d)%Q.
Proof.
  intros H. rewrite <- (Qmake_mult_den n d) in H.
  apply Qmult_lt_r in H; [done|]. unfold Qlt; simpl; lia.
Qed.

Lemma Qle_mult_den q n d : (q * inject_Z (Z.pos d) <= inject_Z n)%Q → (q <= n # d)%Q.
Proof.
  intros H. rewrite <- (Qmake_mult_den n d) in H.
  apply Qmult_le_r in H; [done|]. unfold Qlt; simpl; lia.
Qed.

Lemma Qgt_mult_den q n d : (inject_Z n < q * inject_Z (Z.pos d))%Q → (n # d < q)%Q.
Proof.
  intros H. rewrite <- (Qmake_mult_den n d) in H.
  apply Qmult_lt_r in H; [done|]. unfold Qlt; simpl; lia.
Qed.

Lemma Qlog2_bounds n d :
  0 < n →
  let e := Z.log2 n - Z.log2 (Z.pos d) in
  (2 ^ (e - 1) < n # d)%Q ∧ (n # d < 2 ^ (e + 1))%Q.
Proof.
  intros Hn e. unfold e. clear e.
  set (a := Z.log2 n). set (b := Z.log2 (Z.pos d)).
  destruct (Z.log2_spec n Hn) as [Ha1 Ha2]. fold a in Ha1, Ha2.
  destruct (Z.log2_spec (Z.pos d) ltac:(lia)) as [Hb1 Hb2]. fold b in Hb1, Hb2.
  assert (0 ≤ a) by apply Z.log2_nonneg. assert (0 ≤ b) by apply Z.log2_nonneg.
  assert (Hd1 : (inject_Z (2 ^ b) <= inject_Z (Z.pos d))%Q) by (by rewrite <- Zle_Qle).
  assert (Hd2 : (inject_Z (Z.pos d) < inject_Z (2 ^ (b + 1)))%Q)
    by (rewrite <- Zlt_Qlt; by replace (b + 1) with (Z.succ b) by lia).
  assert (Hn1 : (inject_Z (2 ^ a) <= inject_Z n)%Q) by (by rewrite <- Zle_Qle).
  assert (Hn2 : (inject_Z n < inject_Z (2 ^ (a + 1)))%Q)
    by (rewrite <- Zlt_Qlt; by replace (a + 1) with (Z.succ a) by lia).
  rewrite pow2_inject in Hd1, Hd2, Hn1, Hn2 by lia.
  split.
  - apply Qlt_mult_den.
    apply (Qlt_le_trans _ (2 ^ (a - b - 1) * 2 ^ (b + 1))).
    + apply Qmult_lt_l; [apply pow2_pos|done].
    + rewrite <- pow2_plus. by replace (a - b - 1 + (b + 1)) with a by lia.
  - apply Qgt_mult_den.
    apply (Qlt_le_trans _ (2 ^ (a - b + 1) * 2 ^ b)).
    + rewrite <- pow2_plus. by replace (a - b + 1 + b) with (a + 1) by lia.
    + apply Qmult_le_l; [apply pow2_pos|done].
Qed.

Lemma Qlog2_spec q : (0 < q)%Q → (2 ^ Qlog2 q <= q)%Q ∧ (q < 2 ^ (Qlog2 q + 1))%Q.
Proof.
  intros Hq. unfold Qlog2. destruct q as [n d].
  assert (0 < n) as Hn by (unfold Qlt in Hq; simpl in Hq; lia).
  destruct (Qlog2_bounds n d Hn) as [Hlo Hhi]. cbn zeta in Hlo, Hhi. simpl Qnum. simpl Qden.
  set (e := Z.log2 n - Z.log2 (Z.pos d)) in *.
  destruct (Qle_bool (2 ^ e) (n # d)) eqn:Htest.
  - apply Qle_bool_iff in Htest. done.
  - assert (n # d < 2 ^ e)%Q as Hlt.
    { apply Qnot_le_lt. intros Hle. apply Qle_bool_iff in Hle. congruence. }
    replace (e - 1 + 1) with e by lia. split; [by apply Qlt_le_weak|done].
Qed.

Lemma Qlog2_unique q e :
  (2 ^ e <= q)%Q → (q < 2 ^ (e + 1))%Q → Qlog2 q = e.
Proof.
  intros Hlo Hhi.
  assert (0 < q)%Q as Hq by (eapply Qlt_le_trans; [apply (pow2_pos e)|done]).
  destruct (Qlog2_spec q Hq) as [Hlo' Hhi'].
  assert (Qlog2 q < e + 1) by (apply pow2_lt_inv; by eapply Qle_lt_trans).
  assert (e < Qlog2 q + 1) by (apply pow2_lt_inv; by eapply Qle_lt_trans).
  lia.
Qed.

(** ** Rounding to an integer *)

Global Instance round_half_even_proper : Proper (Qeq ==> eq) round_half_even.
Proof.
  intros q q' Heq. unfold round_half_even. rewrite <- (Qfloor_comp _ _ Heq).
  assert ((q - inject_Z (Qfloor q) ?= 1 # 2) = (q' - inject_Z (Qfloor q) ?= 1 # 2))%Q as ->;
    [|done].
  apply Qcompare_comp; [|reflexivity]. apply Qplus_comp; [done|reflexivity].
Qed.

Lemma round_half_even_Z z : round_half_even (inject_Z z) = z.
Proof.
  unfold round_half_even. rewrite Qfloor_Z.
  assert ((inject_Z z - inject_Z z ?= 1 # 2) = Lt)%Q as ->; [|done].
  rewrite <- Qlt_alt. lra.
Qed.

Lemma round_half_even_floor q :
  Qfloor q ≤ round_half_even q ≤ Qfloor q + 1.
Proof.
  unfold round_half_even.
  destruct (q - inject_Z (Qfloor q) ?= 1 # 2)%Q; [destruct (Z.even _)|..]; lia.
Qed.

Lemma round_half_even_mono q q' : (q <= q')%Q → round_half_even q ≤ round_half_even q'.
Proof.
  intros Hle. pose proof (Qfloor_resp_le _ _ Hle) as Hfloor.
  pose proof (round_half_even_floor q). pose proof (round_half_even_floor q').
  destruct (decide (Qfloor q = Qfloor q')) as [Heq|Hne]; [|lia].
  unfold round_half_even. rewrite <- Heq.
  destruct (Qcompare_spec (q - inject_Z (Qfloor q)) (1 # 2)) as [H1|H1|H1];
    destruct (Qcompare_spec (q' - inject_Z (Qfloor q)) (1 # 2)) as [H2|H2|H2];
    try destruct (Z.even _); try lia; exfalso; lra.
Qed.

Lemma round_half_even_error q :
  (q - (1 # 2) <= inject_Z (round_half_even q))%Q ∧
  (inject_Z (round_half_even q) <= q + (1 # 2))%Q.
Proof.
  unfold round_half_even. pose proof (Qfloor_le q) as Hlo. pose proof (Qlt_floor q) as Hhi.
  rewrite inject_Z_plus in Hhi. change (inject_Z 1) with 1%Q in Hhi.
  destruct (Qcompare_spec (q - inject_Z (Qfloor q)) (1 # 2)) as [H|H|H];
    [destruct (Z.even _)|..]; rewrite ?inject_Z_plus; change (inject_Z 1) with 1%Q;
    split; lra.
Qed.

(** ** Rounding to a precision *)

Section Rounding.
Variable prec : Z.
Hypothesis prec_pos : 0 < prec.

Lemma round_float_pos q e :
  (2 ^ e <= q)%Q → (q < 2 ^ (e + 1))%Q →
  (round_float prec q
   == inject_Z (round_half_even (q / 2 ^ (e - prec + 1))) * 2 ^ (e - prec + 1))%Q.
Proof.
  intros Hlo Hhi.
  assert (0 < q)%Q as Hq by (eapply Qlt_le_trans; [apply (pow2_pos e)|done]).
  unfold round_float.
  assert (Qeq_bool q 0 = false) as ->.
  { apply not_true_is_false. intros H%Qeq_bool_iff. rewrite H in Hq. by apply Qlt_irrefl in Hq. }
  assert (Qabs q == q)%Q as Habs by (apply Qabs_pos; by apply Qlt_le_weak).
  assert (Qlog2 (Qabs q) = e) as -> by (apply Qlog2_unique; by rewrite Habs).
  reflexivity.
Qed.

Lemma round_float_0 : (round_float prec 0 == 0)%Q.
Proof. done. Qed.

Global Instance round_float_proper : Proper (Qeq ==> Qeq) (round_float prec).
Proof.
  intros q q' Heq. unfold round_float.
  destruct (Qeq_bool q 0) eqn:Hz.
  - apply Qeq_bool_iff in Hz. rewrite Heq in Hz.
    apply Qeq_bool_iff in Hz. by rewrite Hz.
  - assert (Qeq_bool q' 0 = false) as ->.
    { apply not_true_is_false. intros H%Qeq_bool_iff. rewrite <- Heq in H.
      apply Qeq_bool_iff in H. congruence. }
    assert (¬ q == 0)%Q as Hne by (intros H%Qeq_bool_iff; congruence).
    assert (0 < Qabs q)%Q as Hpos.
    { destruct (Qlt_le_dec 0 (Qabs q)) as [?|Hle]; [done|]. exfalso. apply Hne.
      apply Qabs_Qle_condition in Hle as [H1 H2]. lra. }
    destruct (Qlog2_spec _ Hpos) as [Hlo Hhi].
    assert (Qlog2 (Qabs q') = Qlog2 (Qabs q)) as -> by (apply Qlog2_unique; by rewrite <- Heq).
    generalize (2 ^ (Qlog2 (Qabs q) - prec + 1))%Q. intros ulp. by rewrite Heq.
Qed.

Lemma round_float_exact m e :
  0 < m < 2 ^ prec →
  (round_float prec (inject_Z m * 2 ^ e) == inject_Z m * 2 ^ e)%Q.
Proof.
  intros [Hm0 Hm].
  destruct (Z.log2_spec m Hm0) as [Hl1 Hl2]. set (l := Z.log2 m) in *.
  assert (0 ≤ l) by apply Z.log2_nonneg.
  assert (l < prec).
  { apply (Z.pow_lt_mono_r_iff 2); lia. }
  assert (Hm1 : (2 ^ l <= inject_Z m)%Q) by (rewrite <- pow2_inject by lia; by rewrite <- Zle_Qle).
  assert (Hm2 : (inject_Z m < 2 ^ (l + 1))%Q).
  { rewrite <- pow2_inject by lia. rewrite <- Zlt_Qlt. by replace (l + 1) with (Z.succ l) by lia. }
  rewrite (round_float_pos _ (l + e)).
  - assert (inject_Z m * 2 ^ e / 2 ^ (l + e - prec + 1)
            == inject_Z (m * 2 ^ (prec - 1 - l)))%Q as ->.
    { rewrite pow2_div, inject_Z_mult, pow2_inject by lia.
      rewrite <- Qmult_assoc, <- pow2_plus.
      by replace (e + - (l + e - prec + 1)) with (prec - 1 - l) by lia. }
    rewrite round_half_even_Z, inject_Z_mult, pow2_inject by lia.
    rewrite <- Qmult_assoc, <- pow2_plus.
    by replace (prec - 1 - l + (l + e - prec + 1)) with e by lia.
  - rewrite pow2_plus. apply Qmult_le_r; [apply pow2_pos|done].
  - replace (l + e + 1) with ((l + 1) + e) by lia. rewrite pow2_plus.
    apply Qmult_lt_r; [apply pow2_pos|done].
Qed.

(** The significand of a rounded positive number. *)
Lemma round_float_significand q e :
  (2 ^ e <= q)%Q → (q < 2 ^ (e + 1))%Q →
  2 ^ (prec - 1) ≤ round_half_even (q / 2 ^ (e - prec + 1)) ≤ 2 ^ prec.
Proof.
  intros Hlo Hhi. split.
  - rewrite <- (round_half_even_Z (2 ^ (prec - 1))). apply round_half_even_mono.
    rewrite pow2_inject, pow2_div by lia.
    apply (Qmult_le_r _ _ (2 ^ (e - prec + 1))); [apply pow2_pos|].
    rewrite <- Qmult_assoc, <- !pow2_plus.
    replace (- (e - prec + 1) + (e - prec + 1)) with 0 by lia.
    replace (prec - 1 + (e - prec + 1)) with e by lia. by rewrite Qmult_1_r.
  - rewrite <- (round_half_even_Z (2 ^ prec)). apply round_half_even_mono.
    rewrite pow2_inject, pow2_div by lia.
    apply (Qmult_le_r _ _ (2 ^ (e - prec + 1))); [apply pow2_pos|].
    rewrite <- Qmult_assoc, <- !pow2_plus.
    replace (- (e - prec + 1) + (e - prec + 1)) with 0 by lia.
    replace (prec + (e - prec + 1)) with (e + 1) by lia. rewrite Qmult_1_r.
    by apply Qlt_le_weak.
Qed.

Lemma round_float_binade q e :
  (2 ^ e <= q)%Q → (q < 2 ^ (e + 1))%Q →
  (2 ^ e <= round_float prec q)%Q ∧ (round_float prec q <= 2 ^ (e + 1))%Q.
Proof.
  intros Hlo Hhi. rewrite (round_float_pos q e) by done.
  destruct (round_float_significand q e Hlo Hhi) as [H1 H2].
  rewrite Zle_Qle in H1, H2. rewrite pow2_inject in H1, H2 by lia.
  assert (2 ^ e == 2 ^ (prec - 1) * 2 ^ (e - prec + 1))%Q as He1.
  { rewrite <- pow2_plus. by replace (prec - 1 + (e - prec + 1)) with e by lia. }
  assert (2 ^ (e + 1) == 2 ^ prec * 2 ^ (e - prec + 1))%Q as He2.
  { rewrite <- pow2_plus. by replace (prec + (e - prec + 1)) with (e + 1) by lia. }
  rewrite He2. rewrite He1 at 1.
  split; (apply Qmult_le_r; [apply pow2_pos|done]).
Qed.

Lemma round_float_mono q q' :
  (0 <= q)%Q → (q <= q')%Q → (round_float prec q <= round_float prec q')%Q.
Proof.
  intros Hq Hle.
  assert (Hnonneg : ∀ x, (0 < x)%Q → (0 < round_float prec x)%Q).
  { intros x Hx. destruct (Qlog2_spec x Hx) as [Hlo Hhi].
    destruct (round_float_binade x _ Hlo Hhi) as [H _].
    eapply Qlt_le_trans; [apply (pow2_pos (Qlog2 x))|done]. }
  apply Qle_lteq in Hq as [Hq|Hq].
  2: { rewrite <- Hq. destruct (Qlt_le_dec 0 q') as [H|H].
       - apply Qlt_le_weak. by apply Hnonneg.
       - assert (q' == 0)%Q as -> by lra. apply Qle_refl. }
  assert (0 < q')%Q as Hq' by lra.
  destruct (Qlog2_spec q Hq) as [Hlo Hhi]. destruct (Qlog2_spec q' Hq') as [Hlo' Hhi'].
  remember (Qlog2 q) as e eqn:He. remember (Qlog2 q') as e' eqn:He'. clear He He'.
  assert (e ≤ e').
  { assert (e < e' + 1); [|lia]. apply pow2_lt_inv. lra. }
  destruct (decide (e = e')) as [Heq|Hne].
  - subst e'. rewrite (round_float_pos q e Hlo Hhi), (round_float_pos q' e Hlo' Hhi').
    apply Qmult_le_r; [apply pow2_pos|]. rewrite <- Zle_Qle.
    apply round_half_even_mono. rewrite !pow2_div.
    apply Qmult_le_r; [apply pow2_pos|done].
  - destruct (round_float_binade q e Hlo Hhi) as [_ H1].
    destruct (round_float_binade q' e' Hlo' Hhi') as [H2 _].
    pose proof (pow2_le (e + 1) e' ltac:(lia)). lra.
Qed.

Lemma round_float_idem q :
  (0 <= q)%Q → (round_float prec (round_float prec q) == round_float prec q)%Q.
Proof.
  intros Hq. apply Qle_lteq in Hq as [Hq|Hq]; [|by rewrite <- Hq].
  destruct (Qlog2_spec q Hq) as [Hlo Hhi]. set (e := Qlog2 q) in *.
  rewrite (round_float_pos q e) by done.
  destruct (round_float_significand q e Hlo Hhi) as [H1 H2].
  set (m := round_half_even _) in *.
  assert (0 < 2 ^ (prec - 1)) by (apply Z.pow_pos_nonneg; lia).
  destruct (decide (m = 2 ^ prec)) as [->|Hne].
  - rewrite pow2_inject, <- pow2_plus by lia.
    rewrite <- (Qmult_1_l (2 ^ _)). change 1%Q with (inject_Z 1).
    apply round_float_exact. split; [lia|]. apply Z.pow_gt_1; lia.
  - apply round_float_exact. lia.
Qed.

Lemma round_float_nonneg q : (0 <= q)%Q → (0 <= round_float prec q)%Q.
Proof.
  intros Hq. rewrite <- round_float_0 at 1. by apply round_float_mono.
Qed.

Lemma round_float_inject_Z z :
  0 ≤ z < 2 ^ prec → (round_float prec (inject_Z z) == inject_Z z)%Q.
Proof.
  intros [Hz0 Hz]. destruct (decide (z = 0)) as [->|Hne]; [done|].
  rewrite <- (Qmult_1_r (inject_Z z)). change 1%Q with (2 ^ 0)%Q.
  apply round_float_exact. lia.
Qed.

(** The rounding error is at most half a unit in the last place. *)
Lemma round_float_error q :
  (0 <= q)%Q →
  (q * (1 - 2 ^ (- prec)) <= round_float prec q)%Q ∧
  (round_float prec q <= q * (1 + 2 ^ (- prec)))%Q.
Proof.
  intros Hq. apply Qle_lteq in Hq as [Hq|Hq].
  2: { rewrite <- Hq. rewrite round_float_0. split; lra. }
  destruct (Qlog2_spec q Hq) as [Hlo Hhi]. set (e := Qlog2 q) in *.
  rewrite (round_float_pos q e Hlo Hhi).
  pose proof (round_half_even_error (q / 2 ^ (e - prec + 1))) as [H1 H2].
  pose proof (pow2_pos (e - prec + 1)) as Hulp.
  set (ulp := (2 ^ (e - prec + 1))%Q) in *.
  set (m := inject_Z (round_half_even (q / ulp))) in *.
  assert (q / ulp * ulp == q)%Q as Hdiv by (field; lra).
  assert (ulp * (1 # 2) <= q * 2 ^ (- prec))%Q as Hhalf.
  { assert (ulp * (1 # 2) == 2 ^ e * 2 ^ (- prec))%Q as ->.
    { unfold ulp. replace (e - prec + 1) with ((e + - prec) + 1) by lia.
      rewrite (pow2_plus (e + - prec) 1), (pow2_plus e (- prec)).
      change (2 ^ 1)%Q with 2%Q. ring. }
    apply Qmult_le_r; [apply pow2_pos|done]. }
  assert (q - ulp * (1 # 2) <= m * ulp)%Q.
  { rewrite <- Hdiv at 1.
    assert (q / ulp * ulp - ulp * (1 # 2) == (q / ulp - (1 # 2)) * ulp)%Q as -> by ring.
    apply Qmult_le_r; [done|lra]. }
  assert (m * ulp <= q + ulp * (1 # 2))%Q.
  { rewrite <- Hdiv at 1.
    assert (q / ulp * ulp + ulp * (1 # 2) == (q / ulp + (1 # 2)) * ulp)%Q as -> by ring.
    apply Qmult_le_r; [done|lra]. }
  split; lra.
Qed.

End Rounding.

(* ===================================================================== *)
(** * Truncation of rationals                                              *)
(* ===================================================================== *)

Lemma py_int_proper q q' : (q == q')%Q → py_int q = py_int q'.
Proof.
  unfold Qeq, py_int. destruct q as [n d], q' as [n' d']; simpl. intros Heq.
  rewrite <- (Z.quot_mul_cancel_r n (Z.pos d) (Z.pos d')) by done.
  rewrite Heq, (Z.mul_comm (Z.pos d)). by rewrite Z.quot_mul_cancel_r.
Qed.

Lemma py_int_floor q : (0 <= q)%Q → py_int q = Qfloor q.
Proof.
  unfold Qle, py_int, Qfloor. destruct q as [n d]; simpl. intros Hn.
  apply Z.quot_div_nonneg; lia.
Qed.

Lemma py_int_inject_Z z : py_int (inject_Z z) = z.
Proof. unfold py_int; simpl. apply Z.quot_1_r. Qed.

Lemma py_int_below_1 q : (0 <= q)%Q → (q < 1)%Q → py_int q = 0.
Proof.
  intros H0 H1. rewrite py_int_floor by done.
  unfold Qle, Qlt, Qfloor in *. destruct q as [n d]; simpl in *.
  apply Z.div_small. lia.
Qed.

Lemma py_int_bounds q lo hi :
  (inject_Z lo <= q)%Q → (q <= inject_Z hi)%Q → (0 <= q)%Q → lo ≤ py_int q ≤ hi.
Proof.
  intros Hlo Hhi H0. rewrite py_int_floor by done.
  rewrite <- (Qfloor_Z lo), <- (Qfloor_Z hi). split; by apply Qfloor_resp_le.
Qed.

(* ===================================================================== *)
(** * The floats of the program                                            *)
(* ===================================================================== *)

Lemma inject_Z_le a b : (inject_Z a <= inject_Z b)%Q → a ≤ b.
Proof. by rewrite <- Zle_Qle. Qed.

Lemma le_inject_Z a b : a ≤ b → (inject_Z a <= inject_Z b)%Q.
Proof. by rewrite <- Zle_Qle. Qed.

Global Instance binary64_proper : Proper (Qeq ==> Qeq) binary64.
Proof. apply round_float_proper. Qed.

Global Instance binary32_proper : Proper (Qeq ==> Qeq) binary32.
Proof. apply round_float_proper. Qed.

Global Instance float_mul_proper : Proper (Qeq ==> Qeq ==> Qeq) float_mul.
Proof. intros a a' Ha b b' Hb. unfold float_mul. by rewrite Ha, Hb. Qed.

Global Instance float_add_proper : Proper (Qeq ==> Qeq ==> Qeq) float_add.
Proof. intros a a' Ha b b' Hb. unfold float_add. by rewrite Ha, Hb. Qed.

Lemma binary64_mono q q' : (0 <= q)%Q → (q <= q')%Q → (binary64 q <= binary64 q')%Q.
Proof. apply round_float_mono. lia. Qed.

Lemma binary64_nonneg q : (0 <= q)%Q → (0 <= binary64 q)%Q.
Proof. apply round_float_nonneg. lia. Qed.

Lemma binary64_inject_Z z : 0 ≤ z < 2 ^ 53 → (binary64 (inject_Z z) == inject_Z z)%Q.
Proof. apply round_float_inject_Z. lia. Qed.

Lemma binary32_mono q q' : (0 <= q)%Q → (q <= q')%Q → (binary32 q <= binary32 q')%Q.
Proof. apply round_float_mono. lia. Qed.

Lemma binary32_nonneg q : (0 <= q)%Q → (0 <= binary32 q)%Q.
Proof. apply round_float_nonneg. lia. Qed.

Lemma binary32_inject_Z z : 0 ≤ z < 2 ^ 24 → (binary32 (inject_Z z) == inject_Z z)%Q.
Proof. apply round_float_inject_Z. lia. Qed.

Lemma binary32_idem q : (0 <= q)%Q → (binary32 (binary32 q) == binary32 q)%Q.
Proof. apply round_float_idem. lia. Qed.

Lemma float_mul_mono a a' b :
  (0 <= a)%Q → (a <= a')%Q → (0 <= b)%Q → (float_mul a b <= float_mul a' b)%Q.
Proof.
  intros Ha Hle Hb. apply binary64_mono; [by apply Qmult_le_0_compat|].
  by apply Qmult_le_compat_r.
Qed.

Lemma float_add_mono a a' b :
  (0 <= a)%Q → (a <= a')%Q → (0 <= b)%Q → (float_add a b <= float_add a' b)%Q.
Proof. intros Ha Hle Hb. apply binary64_mono; lra. Qed.

(** The float of a raw draw [k] of [random.random()]. *)
Lemma draw_nonneg k : 0 ≤ k → (0 <= Qmake k (2 ^ 53))%Q.
Proof. intros Hk. unfold Qle; simpl. lia. Qed.

Lemma draw_le k k' : k ≤ k' → (Qmake k (2 ^ 53) <= Qmake k' (2 ^ 53))%Q.
Proof. intros Hk. unfold Qle; simpl. lia. Qed.

(** A float of [1/2, 1) is at most [1 - 2^-53]. *)
Lemma float_below_1 q :
  ((1 # 2) <= q)%Q → (q < 1)%Q → (binary64 q == q)%Q →
  (q <= 9007199254740991 # 9007199254740992)%Q.
Proof.
  intros Hlo Hhi Hfloat.
  pose proof (round_float_pos 53 q (-1) Hlo Hhi) as Hpos. fold (binary64 q) in Hpos.
  rewrite Hfloat in Hpos.
  set (m := round_half_even _) in Hpos.
  change (2 ^ (-1 - 53 + 1))%Q with (1 # 9007199254740992)%Q in Hpos.
  assert (inject_Z m < inject_Z 9007199254740992)%Q as Hm.
  { change (inject_Z 9007199254740992) with (9007199254740992 # 1)%Q. lra. }
  rewrite <- Zlt_Qlt in Hm.
  assert (inject_Z m <= inject_Z 9007199254740991)%Q as Hm' by (rewrite <- Zle_Qle; lia).
  change (inject_Z 9007199254740991) with (9007199254740991 # 1)%Q in Hm'. lra.
Qed.

(* ===================================================================== *)
(** * The scale step                                                       *)
(* ===================================================================== *)

(** The scale of a raw draw [k] of [random.random()]. *)
Definition scale_of_draw (k : Z) : Q :=
  float_add (float_mul (Qmake k (2 ^ 53)) (binary64 (5 # 10))) (binary64 (5 # 10)).

Lemma pick_scale_run g :
  pick_scale g = Return (scale_of_draw (tape g (cursor g) `mod` 2 ^ 53), drawn 1 g).
Proof. done. Qed.

Lemma half_is_binary64 : (binary64 (5 # 10) == 1 # 2)%Q.
Proof. vm_compute. reflexivity. Qed.

Lemma scale_of_draw_mono k k' :
  0 ≤ k ≤ k' → (scale_of_draw k <= scale_of_draw k')%Q.
Proof.
  intros [H0 Hk]. unfold scale_of_draw.
  assert (0 <= binary64 (5 # 10))%Q as Hhalf by (rewrite half_is_binary64; lra).
  apply float_add_mono; [| |done].
  - apply binary64_nonneg. apply Qmult_le_0_compat; [by apply draw_nonneg|done].
  - apply float_mul_mono; [by apply draw_nonneg|by apply draw_le|done].
Qed.

Lemma scale_of_draw_first : (scale_of_draw 0 == 1 # 2)%Q.
Proof. vm_compute. reflexivity. Qed.

Lemma scale_of_draw_last : (scale_of_draw (2 ^ 53 - 1) == 1)%Q.
Proof. vm_compute. reflexivity. Qed.

Lemma scale_of_draw_before_last :
  (scale_of_draw (2 ^ 53 - 2) == 9007199254740991 # 9007199254740992)%Q.
Proof. vm_compute. reflexivity. Qed.

(** The scale is a float of [1/2, 1]; only the last draw gives 1. *)
Lemma scale_of_draw_range k :
  0 ≤ k < 2 ^ 53 →
  ((1 # 2) <= scale_of_draw k)%Q ∧ (scale_of_draw k <= 1)%Q ∧
  (k ≠ 2 ^ 53 - 1 → (scale_of_draw k <= 9007199254740991 # 9007199254740992)%Q) ∧
  ((scale_of_draw k == 1)%Q ↔ k = 2 ^ 53 - 1).
Proof.
  intros Hk.
  assert (Hbelow : k ≠ 2 ^ 53 - 1 →
            (scale_of_draw k <= 9007199254740991 # 9007199254740992)%Q).
  { intros Hne. rewrite <- scale_of_draw_before_last. apply scale_of_draw_mono. lia. }
  split_and!; [| |done|].
  - rewrite <- scale_of_draw_first. apply scale_of_draw_mono. lia.
  - rewrite <- scale_of_draw_last. apply scale_of_draw_mono. lia.
  - split; [|intros ->; apply scale_of_draw_last].
    intros Hone. destruct (decide (k = 2 ^ 53 - 1)) as [|Hne]; [done|].
    apply Hbelow in Hne. rewrite Hone in Hne. by apply Qle_bool_iff in Hne.
Qed.


(** ** The scaled size *)

Lemma below_overflow x : (0 <= x)%Q → (x < 2 ^ 1024)%Q → Qle_bool (2 ^ 1024) (Qabs x) = false.
Proof.
  intros H0 Hlt. apply not_true_is_false. intros Hle%Qle_bool_iff.
  rewrite Qabs_pos in Hle by done. generalize dependent (2 ^ 1024)%Q. intros big ??. lra.
Qed.

Lemma inject_Z_below_overflow n : n < 2 ^ 53 → (inject_Z n < 2 ^ 1024)%Q.
Proof.
  intros Hn. apply (Qlt_le_trans _ (2 ^ 53)); [|by apply pow2_le].
  rewrite <- pow2_inject by lia. by rewrite <- Zlt_Qlt.
Qed.

Lemma scaled_axis_run n scale g :
  scaled_axis n scale g =
    if Qle_bool (2 ^ 1024) (Qabs (binary64 (inject_Z n))) then Raise OverflowError
    else if Qle_bool (2 ^ 1024) (Qabs (float_mul (binary64 (inject_Z n)) scale))
    then Raise OverflowError
    else Return (py_int (float_mul (binary64 (inject_Z n)) scale), g).
Proof.
  unfold scaled_axis, float_of_int, int_of_float, mbind, M_bind.
  destruct (Qle_bool _ (Qabs (binary64 _))); [done|]. unfold mret, M_ret.
  by destruct (Qle_bool _ _).
Qed.

Lemma scaled_axis_any_oracle n scale g k g' :
  scaled_axis n scale g = Return (k, g') →
  g' = g ∧ ∀ h, scaled_axis n scale h = Return (k, h).
Proof.
  rewrite scaled_axis_run. intros Hrun. split.
  - repeat destruct (Qle_bool _ _); [done..|]. by injection Hrun.
  - intros h. rewrite scaled_axis_run.
    repeat destruct (Qle_bool _ _); [done..|]. by injection Hrun as ->.
Qed.

(** An axis that binary64 holds exactly: the scaled axis is between half
    of it, up to the truncation, and the whole. *)
Lemma scaled_axis_small n scale g :
  0 ≤ n < 2 ^ 53 → ((1 # 2) <= scale)%Q → (scale <= 1)%Q →
  ∃ k, scaled_axis n scale g = Return (k, g) ∧ 0 ≤ k ≤ n ∧ n ≤ 2 * k + 1.
Proof.
  intros Hn Hlo Hhi. rewrite scaled_axis_run.
  pose proof (binary64_inject_Z n Hn) as Hx.
  assert (0 <= inject_Z n)%Q as Hn0 by (apply (le_inject_Z 0); lia).
  rewrite below_overflow; [|rewrite Hx; done|rewrite Hx; apply inject_Z_below_overflow; lia].
  set (v := float_mul (binary64 (inject_Z n)) scale).
  assert (0 <= inject_Z n * scale)%Q as Hprod by (apply Qmult_le_0_compat; [done|lra]).
  assert (v <= inject_Z n)%Q as Hv_hi.
  { unfold v, float_mul. rewrite Hx. rewrite <- Hx at 2.
    apply binary64_mono; [done|].
    rewrite <- (Qmult_1_r (inject_Z n)) at 2.
    rewrite (Qmult_comm _ scale), (Qmult_comm _ 1). by apply Qmult_le_compat_r. }
  assert (inject_Z n * (1 # 2) <= v)%Q as Hv_lo.
  { unfold v, float_mul. rewrite Hx.
    assert (binary64 (inject_Z n * (1 # 2)) == inject_Z n * (1 # 2))%Q as <-.
    { destruct (decide (n = 0)) as [->|Hne]; [done|].
      apply (round_float_exact 53 ltac:(lia) n (-1)). lia. }
    apply binary64_mono; [apply Qmult_le_0_compat; [done|lra]|].
    rewrite (Qmult_comm _ (1 # 2)), (Qmult_comm _ scale). by apply Qmult_le_compat_r. }
  assert (0 <= v)%Q as Hv0 by lra.
  rewrite below_overflow;
    [|done|eapply Qle_lt_trans; [exact Hv_hi|apply inject_Z_below_overflow; lia]].
  eexists. split; [done|].
  pose proof (py_int_bounds v 0 n Hv0 Hv_hi Hv0) as Hk. split; [done|].
  pose proof (Qlt_floor v) as Hfloor. rewrite <- py_int_floor in Hfloor by done.
  set (k := py_int v) in *.
  assert (inject_Z n < inject_Z (2 * k + 2))%Q as Hlt.
  { rewrite inject_Z_plus in Hfloor. rewrite inject_Z_plus, inject_Z_mult.
    change (inject_Z 2) with 2%Q. change (inject_Z 1) with 1%Q in Hfloor. lra. }
  rewrite <- Zlt_Qlt in Hlt. lia.
Qed.


Lemma scaled_size_Return (fg_image : Image RGBA) scale g size g' :
  scaled_size fg_image scale g = Return (size, g') →
  g' = g ∧
  scaled_axis (Z.of_nat (im_width fg_image)) scale g = Return (size.1, g) ∧
  scaled_axis (Z.of_nat (im_height fg_image)) scale g = Return (size.2, g).
Proof.
  intros Hrun. unfold scaled_size in Hrun.
  apply bind_Return in Hrun as (w & g1 & Hw & Hrun).
  pose proof (scaled_axis_any_oracle _ _ _ _ _ Hw) as [-> _].
  apply bind_Return in Hrun as (h & g1 & Hh & Hrun).
  pose proof (scaled_axis_any_oracle _ _ _ _ _ Hh) as [-> _].
  by apply ret_Return in Hrun as [<- <-].
Qed.

Lemma scaled_size_any_oracle (fg_image : Image RGBA) scale g size g' :
  scaled_size fg_image scale g = Return (size, g') →
  ∀ h, scaled_size fg_image scale h = Return (size, h).
Proof.
  intros Hrun h. apply scaled_size_Return in Hrun as (_ & Hw & Hh).
  apply scaled_axis_any_oracle in Hw as [_ Hw]. apply scaled_axis_any_oracle in Hh as [_ Hh].
  unfold scaled_size. rewrite (bind_step _ _ _ _ _ (Hw h)), (bind_step _ _ _ _ _ (Hh h)).
  by destruct size.
Qed.

Lemma scaled_size_Raise (fg_image : Image RGBA) scale g e :
  scaled_size fg_image scale g = Raise e → e = OverflowError.
Proof.
  assert (Haxis : ∀ n h e', scaled_axis n scale h = Raise e' → e' = OverflowError).
  { intros n h e'. rewrite scaled_axis_run.
    repeat destruct (Qle_bool _ _); [by intros [= <-]..|done]. }
  unfold scaled_size, mbind, M_bind.
  destruct (scaled_axis _ scale g) as [[w g1]|e1] eqn:Hw;
    [|intros [= <-]; by eapply Haxis].
  destruct (scaled_axis _ scale g1) as [[h g2]|e2] eqn:Hh;
    [done|intros [= <-]; by eapply Haxis].
Qed.

(** The size that a float scale below 1 gives to an image with an axis of
    one pixel and the other axis a C [int]. *)
Lemma scaled_size_of_thin (rotated : Image RGBA) scale g :
  ((1 # 2) <= scale)%Q → (scale <= 9007199254740991 # 9007199254740992)%Q →
  im_width rotated = 1%nat ∧ Z.of_nat (im_height rotated) < 2 ^ 31 ∨
  im_height rotated = 1%nat ∧ Z.of_nat (im_width rotated) < 2 ^ 31 →
  ∃ new_size,
    scaled_size rotated scale g = Return (new_size, g) ∧
    (new_size.1 = 0 ∧ im_width rotated = 1%nat ∨
     new_size.2 = 0 ∧ im_height rotated = 1%nat) ∧
    0 ≤ new_size.1 < 2 ^ 31 ∧ 0 ≤ new_size.2 < 2 ^ 31.
Proof.
  intros Hlo Hhi Haxis.
  assert (Hone : scaled_axis 1 scale g = Return (0, g)).
  { rewrite scaled_axis_run.
    assert (binary64 (inject_Z 1) == 1)%Q as Hx by (vm_compute; reflexivity).
    rewrite below_overflow; [|rewrite Hx; done|rewrite Hx; done].
    set (v := float_mul (binary64 (inject_Z 1)) scale).
    assert (0 <= v)%Q as Hv0.
    { apply binary64_nonneg. rewrite Hx. lra. }
    assert (v <= 9007199254740991 # 9007199254740992)%Q as Hv1.
    { assert (binary64 (9007199254740991 # 9007199254740992)
              == 9007199254740991 # 9007199254740992)%Q as <- by (vm_compute; reflexivity).
      apply binary64_mono; rewrite Hx; lra. }
    rewrite below_overflow; [|done|eapply Qle_lt_trans; [exact Hv1|done]].
    rewrite py_int_below_1; [done..|]. eapply Qle_lt_trans; [exact Hv1|done]. }
  assert (scale <= 1)%Q as Hhi' by lra.
  unfold scaled_size.
  destruct Haxis as [[Hw Hh]|[Hh Hw]].
  - destruct (scaled_axis_small (Z.of_nat (im_height rotated)) scale g)
      as (k & Hk & Hk0 & _); [lia|done..|].
    rewrite Hw. rewrite (bind_step _ _ _ _ _ Hone), (bind_step _ _ _ _ _ Hk).
    eexists. split; [done|]. simpl. split; [by left|lia].
  - destruct (scaled_axis_small (Z.of_nat (im_width rotated)) scale g)
      as (k & Hk & Hk0 & _); [lia|done..|].
    rewrite Hh. rewrite (bind_step _ _ _ _ _ Hk), (bind_step _ _ _ _ _ Hone).
    eexists. split; [done|]. simpl. split; [by right|lia].
Qed.

(** A foreground on disk that is one pixel wide and two pixels high: a
    transparent pixel over an opaque one. *)
Definition thin_foreground : Image RGBA :=
  mkImage 1 2 [[(0, 0, 0, 0)]; [(200, 100, 50, 255)]].

Definition thin_disk (path : string) : option (Image RGBA) :=
  if decide (path = "foregrounds/s/c/thin.png") then Some thin_foreground else None.

Lemma Image_resize_Return {R : Resampling} image size resample g resized g' :
  Image_resize image size resample g = Return (resized, g') → g' = g.
Proof.
  unfold Image_resize. case_decide; [by intros [= _ ->]|].
  destruct (negb _); [done|].
  destruct ((size.1 <? 1) || (size.2 <? 1)); [done | by intros [= _ ->]].
Qed.

Lemma Image_resize_any_oracle {R : Resampling} image size resample g resized g' :
  Image_resize image size resample g = Return (resized, g') →
  ∀ h, Image_resize image size resample h = Return (resized, h).
Proof.
  unfold Image_resize. case_decide; [by intros [= -> _]|].
  destruct (negb _); [done|].
  destruct ((size.1 <? 1) || (size.2 <? 1)); [done | by intros [= <- _]].
Qed.

Lemma Image_resize_Raise {R : Resampling} image size resample g e :
  Image_resize image size resample g = Raise e → e = OverflowError ∨ e = ValueError.
Proof.
  unfold Image_resize. case_decide; [done|].
  destruct (negb _); [intros [= <-]; by left|].
  destruct ((size.1 <? 1) || (size.2 <? 1)); [intros [= <-]; by right|done].
Qed.


(** A size with a 0 that is not the size of the image is refused. *)
Lemma Image_resize_refuses_0 {R : Resampling} image size resample g :
  size ≠ (Z.of_nat (im_width image), Z.of_nat (im_height image)) →
  0 ≤ size.1 < 2 ^ 31 → 0 ≤ size.2 < 2 ^ 31 →
  size.1 = 0 ∨ size.2 = 0 →
  Image_resize image size resample g = Raise ValueError.
Proof.
  intros Hother Hw Hh Hzero. unfold Image_resize. rewrite decide_False by done.
  assert (fits_C_int size.1 && fits_C_int size.2 = true) as ->.
  { unfold fits_C_int. apply andb_true_iff.
    split; apply andb_true_iff; rewrite Z.leb_le, Z.ltb_lt; lia. }
  assert ((size.1 <? 1) || (size.2 <? 1) = true) as ->; [|done].
  apply orb_true_iff. rewrite !Z.ltb_lt. lia.
Qed.

Lemma scaled_size_of_thin_differs (rotated : Image RGBA) new_size :
  im_width rotated = 1%nat ∨ im_height rotated = 1%nat →
  new_size.1 = 0 ∧ im_width rotated = 1%nat ∨ new_size.2 = 0 ∧ im_height rotated = 1%nat →
  new_size ≠ (Z.of_nat (im_width rotated), Z.of_nat (im_height rotated)).
Proof. intros _ [[H0 H1]|[H0 H1]] ->; simpl in H0; lia. Qed.

(** C10, as amended.  The scale is a float of the closed interval
    [1/2, 1], and it is 1 exactly at the largest draw of
    [random.random()].  The target size is the truncation of the scaled
    width and height; so under every float scale below 1 an axis of one
    pixel of the rotated foreground becomes 0 (the other axis being a C
    [int]), [resize] refuses the size with [ValueError] and the transform
    engine ends with that exception, which is not the [AssertionError] of
    the overflow check.  The thin foreground above, rotated by 0 degrees,
    is such a case; at the largest draw its target size is its size and
    it is returned. *)
Theorem one_pixel_axis_scales_to_zero {R : Resampling} :
  (∀ g, ∃ scale, pick_scale g = Return (scale, drawn 1 g) ∧
                 ((1 # 2) <= scale)%Q ∧ (scale <= 1)%Q ∧
                 (binary64 scale == scale)%Q ∧
                 ((scale == 1)%Q ↔ tape g (cursor g) `mod` 2 ^ 53 = 2 ^ 53 - 1)) ∧
  (∀ (rotated : Image RGBA) scale g,
     ((1 # 2) <= scale)%Q → (scale < 1)%Q → (binary64 scale == scale)%Q →
     im_width rotated = 1%nat ∧ Z.of_nat (im_height rotated) < 2 ^ 31 ∨
     im_height rotated = 1%nat ∧ Z.of_nat (im_width rotated) < 2 ^ 31 →
     ∃ new_size,
       scaled_size rotated scale g = Return (new_size, g) ∧
       (new_size.1 = 0 ∨ new_size.2 = 0) ∧
       Image_resize rotated new_size BICUBIC g = Raise ValueError) ∧
  (∀ disk fg fg_path image g,
     disk fg_path = Some image →
     np_any_eq (getchannel3 image) 0 = true →
     (let rotated := Image_rotate image (tape g (cursor g) `mod` 360) BICUBIC true in
      im_width rotated = 1%nat ∧ Z.of_nat (im_height rotated) < 2 ^ 31 ∨
      im_height rotated = 1%nat ∧ Z.of_nat (im_width rotated) < 2 ^ 31) →
     tape g (S (cursor g)) `mod` 2 ^ 53 ≠ 2 ^ 53 - 1 →
     _transform_foreground disk fg fg_path g = Raise ValueError) ∧
  (∀ fg, _transform_foreground thin_disk fg "foregrounds/s/c/thin.png" (draws [])
         = Raise ValueError) ∧
  (∀ fg, ∃ fg_image g',
     _transform_foreground thin_disk fg "foregrounds/s/c/thin.png"
         (draws [0; 2 ^ 53 - 1]) = Return (fg_image, g') ∧
     im_size fg_image = im_size thin_foreground).
Proof.
  assert (Hresize : ∀ (rotated : Image RGBA) scale g,
     ((1 # 2) <= scale)%Q → (scale <= 9007199254740991 # 9007199254740992)%Q →
     im_width rotated = 1%nat ∧ Z.of_nat (im_height rotated) < 2 ^ 31 ∨
     im_height rotated = 1%nat ∧ Z.of_nat (im_width rotated) < 2 ^ 31 →
     ∃ new_size,
       scaled_size rotated scale g = Return (new_size, g) ∧
       (new_size.1 = 0 ∨ new_size.2 = 0) ∧
       Image_resize rotated new_size BICUBIC g = Raise ValueError).
  { intros rotated scale g Hlo Hhi Haxis.
    destruct (scaled_size_of_thin rotated scale g Hlo Hhi Haxis)
      as (new_size & Hsize & Hzero & Hw & Hh).
    exists new_size. split; [done|].
    split; [destruct Hzero as [[? _]|[? _]]; auto|].
    apply Image_resize_refuses_0; [|done..|destruct Hzero as [[? _]|[? _]]; auto].
    apply scaled_size_of_thin_differs; [|done]. destruct Haxis as [[? _]|[? _]]; auto. }
  assert (Htransform : ∀ disk fg fg_path image g,
     disk fg_path = Some image →
     np_any_eq (getchannel3 image) 0 = true →
     (let rotated := Image_rotate image (tape g (cursor g) `mod` 360) BICUBIC true in
      im_width rotated = 1%nat ∧ Z.of_nat (im_height rotated) < 2 ^ 31 ∨
      im_height rotated = 1%nat ∧ Z.of_nat (im_width rotated) < 2 ^ 31) →
     tape g (S (cursor g)) `mod` 2 ^ 53 ≠ 2 ^ 53 - 1 →
     _transform_foreground disk fg fg_path g = Raise ValueError).
  { intros disk fg fg_path image g Hfile Halpha Haxis Hdraw.
    unfold _transform_foreground.
    rewrite (bind_step _ _ _ image g) by (unfold Image_open; by rewrite Hfile).
    rewrite Halpha. rewrite (bind_step _ _ _ () g) by done.
    rewrite (bind_step _ _ _ _ _ (pick_angle_degrees_run g)).
    rewrite (bind_step _ _ _ _ _ (pick_scale_run (drawn 1 g))).
    pose proof (Z.mod_pos_bound (tape g (S (cursor g))) (2 ^ 53) ltac:(lia)) as Hb.
    destruct (scale_of_draw_range _ Hb) as (Hlo & _ & Hbelow & _).
    destruct (Hresize _ _ (drawn 2 g) Hlo (Hbelow Hdraw) Haxis)
      as (new_size & Hsize & _ & Hraise).
    change (drawn 1 (drawn 1 g)) with (drawn 2 g).
    change (tape (drawn 1 g) (cursor (drawn 1 g))) with (tape g (S (cursor g))).
    rewrite (bind_step _ _ _ _ _ Hsize). by apply bind_Raise. }
  split_and!.
  - intros g. eexists. split; [apply pick_scale_run|].
    pose proof (Z.mod_pos_bound (tape g (cursor g)) (2 ^ 53) ltac:(lia)) as Hb.
    destruct (scale_of_draw_range _ Hb) as (Hlo & Hhi & _ & Hone).
    split_and!; [done..| |done].
    unfold scale_of_draw, float_add. apply round_float_idem; [lia|].
    assert (0 <= binary64 (5 # 10))%Q by (rewrite half_is_binary64; lra).
    assert (0 <= float_mul (Qmake (tape g (cursor g) `mod` 2 ^ 53) (2 ^ 53))
                           (binary64 (5 # 10)))%Q; [|lra].
    apply binary64_nonneg. apply Qmult_le_0_compat; [apply draw_nonneg; lia|done].
  - intros rotated scale g Hlo Hhi Hfloat Haxis.
    apply Hresize; [done| |done]. by apply float_below_1.
  - done.
  - intros fg. apply (Htransform _ _ _ thin_foreground); [done..| |done].
    left. split; [done|]. simpl. lia.
  - intros fg. eexists _, _. split; [vm_compute; reflexivity|done].
Qed.

(** C10, as stated, fails: the scale is not always below 1. *)
Lemma scale_1_is_drawn :
  ¬ (∀ g scale g', pick_scale g = Return (scale, g') →
       ((1 # 2) <= scale)%Q ∧ (scale < 1)%Q).
Proof.
  intros Hall.
  destruct (Hall (draws [2 ^ 53 - 1]) _ _ (pick_scale_run _)) as [_ Hbelow].
  change (tape (draws [2 ^ 53 - 1]) (cursor (draws [2 ^ 53 - 1])) `mod` 2 ^ 53)
    with (2 ^ 53 - 1) in Hbelow.
  rewrite scale_of_draw_last in Hbelow. by apply Qlt_irrefl in Hbelow.
Qed.

(* ===================================================================== *)
(** * The brightness step                                                  *)
(* ===================================================================== *)

(** The brightness factor of a raw draw [k] of [random.random()]. *)
Definition brightness_factor_of_draw (k : Z) : Q :=
  float_add (float_mul (Qmake k (2 ^ 53)) (binary64 (4 # 10))) (binary64 (7 # 10)).

(** A color channel under [enhance(factor)]: the factor as a C float, the
    product rounded to a C float, truncated, at most 255. *)
Definition brighten (factor : Q) (c : Z) : Z :=
  Z.min 255 (py_int (binary32 (binary32 factor * inject_Z c))).

Lemma ImagingBlend_band_same alpha a : byte a → ImagingBlend_band alpha a a = a.
Proof.
  intros [Ha0 Ha255]. unfold ImagingBlend_band. rewrite Z.sub_diag.
  set (temp := binary32 _).
  assert (Htemp : (temp == inject_Z a)%Q).
  { unfold temp. rewrite <- (binary32_inject_Z a) at 2 by lia.
    apply binary32_proper.
    assert (alpha * inject_Z 0 == 0)%Q as -> by (change (inject_Z 0) with 0%Q; ring).
    change (binary32 0) with 0%Q. ring. }
  rewrite (py_int_proper _ _ Htemp), py_int_inject_Z.
  destruct (Qle_bool 0 alpha && Qle_bool alpha 1); [by apply Z.mod_small; lia|].
  destruct (Qle_bool temp 0) eqn:Hle0.
  { apply Qle_bool_iff in Hle0. rewrite Htemp in Hle0.
    apply (inject_Z_le a 0) in Hle0. lia. }
  destruct (Qle_bool 255 temp) eqn:Hge255; [|done].
  apply Qle_bool_iff in Hge255. rewrite Htemp in Hge255.
  apply (inject_Z_le 255 a) in Hge255. lia.
Qed.

Lemma ImagingBlend_band_black alpha c :
  (0 <= alpha)%Q → byte c →
  ImagingBlend_band alpha 0 c = Z.min 255 (py_int (binary32 (alpha * inject_Z c))).
Proof.
  intros Halpha [Hc0 Hc255]. unfold ImagingBlend_band. rewrite Z.sub_0_r.
  assert (Hc : (0 <= inject_Z c)%Q) by (by apply (le_inject_Z 0 c)).
  assert (Hprod : (0 <= alpha * inject_Z c)%Q) by (by apply Qmult_le_0_compat).
  set (temp := binary32 (inject_Z 0 + _)).
  assert (Htemp : (temp == binary32 (alpha * inject_Z c))%Q).
  { unfold temp. rewrite <- (binary32_idem (alpha * inject_Z c)) at 2 by done.
    apply binary32_proper. change (inject_Z 0) with 0%Q. ring. }
  assert (Hpos : (0 <= temp)%Q) by (rewrite Htemp; by apply binary32_nonneg).
  rewrite <- (py_int_proper _ _ Htemp).
  destruct (Qle_bool 0 alpha && Qle_bool alpha 1) eqn:Hinterp.
  - apply andb_true_iff in Hinterp as [_ Hle1]. apply Qle_bool_iff in Hle1.
    assert (temp <= inject_Z c)%Q.
    { rewrite Htemp. apply (Qle_trans _ (binary32 (inject_Z c))).
      - apply binary32_mono; [done|].
        rewrite <- (Qmult_1_l (inject_Z c)) at 2. by apply Qmult_le_compat_r.
      - rewrite binary32_inject_Z by lia. apply Qle_refl. }
    pose proof (py_int_bounds temp 0 c Hpos ltac:(done) Hpos).
    rewrite Z.mod_small by lia. lia.
  - destruct (Qle_bool temp 0) eqn:Hle0.
    { apply Qle_bool_iff in Hle0.
      pose proof (py_int_bounds temp 0 0 Hpos Hle0 Hpos). lia. }
    destruct (Qle_bool 255 temp) eqn:Hge255.
    { apply Qle_bool_iff in Hge255. rewrite py_int_floor by done.
      pose proof (Qfloor_resp_le _ _ Hge255) as Hfloor.
      change (Qfloor 255) with 255 in Hfloor. lia. }
    assert (Hlt : (temp < 255)%Q).
    { apply Qnot_le_lt. intros Hle. apply Qle_bool_iff in Hle. congruence. }
    rewrite py_int_floor by done.
    pose proof (Qfloor_le temp) as Hfloor.
    assert (inject_Z (Qfloor temp) < inject_Z 255)%Q as Hlt255
      by (eapply Qle_lt_trans; [exact Hfloor | exact Hlt]).
    rewrite <- Zlt_Qlt in Hlt255. lia.
Qed.

(** The channel is the product with the factor, up to the truncation and
    the two roundings to a C float, and at most 255. *)
Lemma brighten_product factor c :
  (0 <= factor)%Q → (factor <= 11 # 10)%Q → byte c →
  (inject_Z (brighten factor c) <= factor * inject_Z c + (1 # 1000))%Q ∧
  (brighten factor c < 255 →
   (factor * inject_Z c - 1 - (1 # 1000) < inject_Z (brighten factor c))%Q).
Proof.
  intros Hf0 Hf1 [Hc0 Hc255].
  assert (Hc : (0 <= inject_Z c)%Q) by (by apply (le_inject_Z 0 c)).
  assert (Hc' : (inject_Z c <= 255)%Q) by (by apply (le_inject_Z c 255)).
  destruct (round_float_error 24 factor Hf0) as [Ha1 Ha2].
  fold (binary32 factor) in Ha1, Ha2.
  change (2 ^ Z.opp 24)%Q with (1 # 16777216)%Q in Ha1, Ha2.
  set (a := binary32 factor) in *.
  assert (0 <= a)%Q as Ha0 by (by apply binary32_nonneg).
  assert (0 <= a * inject_Z c)%Q as HX0 by (by apply Qmult_le_0_compat).
  destruct (round_float_error 24 (a * inject_Z c) HX0) as [Ht1 Ht2].
  fold (binary32 (a * inject_Z c)) in Ht1, Ht2.
  change (2 ^ Z.opp 24)%Q with (1 # 16777216)%Q in Ht1, Ht2.
  unfold brighten. fold a.
  set (t := binary32 (a * inject_Z c)) in *.
  assert (0 <= t)%Q as Ht0 by (by apply binary32_nonneg).
  pose proof (Qmult_le_compat_r _ _ (inject_Z c) Ha1 Hc) as HX1.
  pose proof (Qmult_le_compat_r _ _ (inject_Z c) Ha2 Hc) as HX2.
  pose proof (Qmult_le_compat_r _ _ (inject_Z c) Hf1 Hc) as HP.
  assert (factor * (1 - (1 # 16777216)) * inject_Z c
          == factor * inject_Z c * (1 - (1 # 16777216)))%Q as Heq1 by ring.
  assert (factor * (1 + (1 # 16777216)) * inject_Z c
          == factor * inject_Z c * (1 + (1 # 16777216)))%Q as Heq2 by ring.
  rewrite Heq1 in HX1. rewrite Heq2 in HX2.
  assert (0 <= factor * inject_Z c)%Q as HP0 by (by apply Qmult_le_0_compat).
  set (P := (factor * inject_Z c)%Q) in *. set (X := (a * inject_Z c)%Q) in *.
  assert (P - (1 # 1000) <= t)%Q as Hlow by lra.
  assert (t <= P + (1 # 1000))%Q as Hhigh by lra.
  rewrite py_int_floor by done.
  pose proof (Qfloor_le t) as Hfloor. pose proof (Qlt_floor t) as Hceil.
  rewrite inject_Z_plus in Hceil. change (inject_Z 1) with 1%Q in Hceil.
  set (k := Qfloor t) in *.
  split.
  - assert (inject_Z (Z.min 255 k) <= inject_Z k)%Q by (apply le_inject_Z; lia). lra.
  - intros Hmin. rewrite Z.min_r in * by lia. lra.
Qed.

Lemma pick_brightness_factor_run g :
  pick_brightness_factor g
    = Return (brightness_factor_of_draw (tape g (cursor g) `mod` 2 ^ 53), drawn 1 g).
Proof. done. Qed.

Lemma brightness_constants :
  (binary64 (4 # 10) == 3602879701896397 # 9007199254740992)%Q ∧
  (binary64 (7 # 10) == 3152519739159347 # 4503599627370496)%Q ∧
  (binary64 (11 # 10) == 2476979795053773 # 2251799813685248)%Q.
Proof. vm_compute. by split_and!. Qed.

Lemma brightness_factor_of_draw_mono k k' :
  0 ≤ k ≤ k' → (brightness_factor_of_draw k <= brightness_factor_of_draw k')%Q.
Proof.
  intros [H0 Hk]. unfold brightness_factor_of_draw.
  destruct brightness_constants as (H04 & H07 & _).
  assert (0 <= binary64 (4 # 10))%Q by (rewrite H04; done).
  assert (0 <= binary64 (7 # 10))%Q by (rewrite H07; done).
  apply float_add_mono; [| |done].
  - apply binary64_nonneg. apply Qmult_le_0_compat; [by apply draw_nonneg|done].
  - apply float_mul_mono; [by apply draw_nonneg|by apply draw_le|done].
Qed.

Lemma brightness_factor_of_draw_first :
  (brightness_factor_of_draw 0 == binary64 (7 # 10))%Q.
Proof. vm_compute. reflexivity. Qed.

Lemma brightness_factor_of_draw_last :
  (brightness_factor_of_draw (2 ^ 53 - 1) == 4953959590107545 # 4503599627370496)%Q.
Proof. vm_compute. reflexivity. Qed.

(** The factor is a float between the floats 0.7 and 1.1: at least the
    first, which is below 7/10 by less than 10^-16, and below 11/10. *)
Lemma brightness_factor_of_draw_range k :
  0 ≤ k < 2 ^ 53 →
  (binary64 (7 # 10) <= brightness_factor_of_draw k)%Q ∧
  (brightness_factor_of_draw k <= binary64 (11 # 10))%Q ∧
  ((7 # 10) - (1 # 10000000000000000) <= brightness_factor_of_draw k)%Q ∧
  (brightness_factor_of_draw k < 11 # 10)%Q.
Proof.
  intros Hk.
  assert (binary64 (7 # 10) <= brightness_factor_of_draw k)%Q as Hlo.
  { rewrite <- brightness_factor_of_draw_first. apply brightness_factor_of_draw_mono. lia. }
  assert (brightness_factor_of_draw k <= 4953959590107545 # 4503599627370496)%Q as Hhi.
  { rewrite <- brightness_factor_of_draw_last. apply brightness_factor_of_draw_mono. lia. }
  destruct brightness_constants as (_ & H07 & H11).
  split_and!; [done|rewrite H11|rewrite H07 in Hlo|]; lra.
Qed.

Lemma pick_brightness_factor_range g factor g' :
  pick_brightness_factor g = Return (factor, g') →
  ((7 # 10) - (1 # 10000000000000000) <= factor)%Q ∧ (factor < 11 # 10)%Q ∧ g' = drawn 1 g.
Proof.
  rewrite pick_brightness_factor_run. intros [= <- <-].
  pose proof (Z.mod_pos_bound (tape g (cursor g)) (2 ^ 53) ltac:(lia)) as Hb.
  destruct (brightness_factor_of_draw_range _ Hb) as (_ & _ & Hlo & Hhi). done.
Qed.

Lemma Brightness_enhance_pixel image factor x y :
  (0 <= factor)%Q →
  in_range image x y →
  byte_RGBA (pixel transparent image x y) →
  getpixel (Brightness_enhance image factor) x y
    = Some (brighten factor (pixel transparent image x y).1.1.1,
            brighten factor (pixel transparent image x y).1.1.2,
            brighten factor (pixel transparent image x y).1.2,
            alpha_of (pixel transparent image x y)).
Proof.
  intros Hfactor [Hx Hy] Hbytes. unfold Brightness_enhance, Image_blend. cbn zeta.
  rewrite getpixel_tabulate by done.
  assert (Hdeg : pixel transparent
            (image_map (λ p : RGBA, (0, 0, 0, alpha_of p)) image) x y
          = (0, 0, 0, alpha_of (pixel transparent image x y))).
  { unfold pixel. rewrite getpixel_image_map. by destruct (getpixel image x y). }
  rewrite Hdeg. destruct (pixel transparent image x y) as [[[r g] b] a].
  destruct Hbytes as (Hr & Hg & Hb & Ha); simpl in *.
  assert (0 <= binary32 factor)%Q by (by apply binary32_nonneg).
  by rewrite !ImagingBlend_band_black, ImagingBlend_band_same.
Qed.

(** What a run of the transform engine that returns has done. *)
Lemma _transform_foreground_Return {R : Resampling} disk fg fg_path g fg_image g' :
  _transform_foreground disk fg fg_path g = Return (fg_image, g') →
  ∃ image angle scale new_size resized factor,
    disk fg_path = Some image ∧
    np_any_eq (getchannel3 image) 0 = true ∧
    pick_angle_degrees g = Return (angle, drawn 1 g) ∧
    pick_scale (drawn 1 g) = Return (scale, drawn 2 g) ∧
    scaled_size (Image_rotate image angle BICUBIC true) scale (drawn 2 g)
      = Return (new_size, drawn 2 g) ∧
    Image_resize (Image_rotate image angle BICUBIC true) new_size BICUBIC (drawn 2 g)
      = Return (resized, drawn 2 g) ∧
    pick_brightness_factor (drawn 2 g) = Return (factor, drawn 3 g) ∧
    fg_image = Brightness_enhance resized factor ∧
    g' = drawn 3 g.
Proof.
  intros Hrun. unfold _transform_foreground in Hrun.
  apply bind_Return in Hrun as (image & g1 & Hopen & Hrun).
  unfold Image_open in Hopen. destruct (disk fg_path) as [image'|] eqn:Hfile; [|done].
  apply ret_Return in Hopen as [-> <-].
  apply bind_Return in Hrun as ([] & g1 & Hassert & Hrun).
  apply assert_Return in Hassert as [Halpha ->].
  rewrite (bind_step _ _ _ _ _ (pick_angle_degrees_run g)) in Hrun.
  rewrite (bind_step _ _ _ _ _ (pick_scale_run (drawn 1 g))) in Hrun.
  apply bind_Return in Hrun as (new_size & g2 & Hsize & Hrun).
  pose proof (scaled_size_Return _ _ _ _ _ Hsize) as [-> _].
  apply bind_Return in Hrun as (resized & g2 & Hresize & Hrun).
  pose proof (Image_resize_Return _ _ _ _ _ _ Hresize) as ->.
  rewrite (bind_step _ _ _ _ _ (pick_brightness_factor_run (drawn 2 g))) in Hrun.
  apply ret_Return in Hrun as [<- <-].
  eexists image, _, _, new_size, resized, _.
  split_and!; [done | done | apply pick_angle_degrees_run | apply pick_scale_run
              | exact Hsize | exact Hresize | apply pick_brightness_factor_run | done | done].
Qed.

(** C6. The brightness factor is the float [r * .4 + .7] of the draw [r]
    of [random.random()]: every draw is possible, the factor grows with
    the draw from the float 0.7 to the last float below the float 1.1,
    and it lies in [0.7, 1.1] up to the rounding of 0.7.  The enhanced
    image has the size of the image; each color channel is the product of
    the channel and the factor as Pillow computes it in C floats,
    truncated and at most 255, which is the exact product up to the
    truncation and an error below 1/1000; the alpha channel is the alpha
    channel of the image.  What the transform engine returns is the
    resized image enhanced by the factor of its third draw. *)
Theorem brightness_scales_colors_and_keeps_alpha {R : Resampling} :
  (∀ g, pick_brightness_factor g
        = Return (brightness_factor_of_draw (tape g (cursor g) `mod` 2 ^ 53), drawn 1 g)) ∧
  (∀ k, 0 ≤ k < 2 ^ 53 →
     (∃ g, pick_brightness_factor g = Return (brightness_factor_of_draw k, drawn 1 g)) ∧
     (binary64 (7 # 10) <= brightness_factor_of_draw k)%Q ∧
     (brightness_factor_of_draw k <= binary64 (11 # 10))%Q ∧
     ((7 # 10) - (1 # 10000000000000000) <= brightness_factor_of_draw k)%Q ∧
     (brightness_factor_of_draw k < 11 # 10)%Q) ∧
  (∀ k k', 0 ≤ k ≤ k' →
     (brightness_factor_of_draw k <= brightness_factor_of_draw k')%Q) ∧
  (brightness_factor_of_draw 0 == 3152519739159347 # 4503599627370496)%Q ∧
  (brightness_factor_of_draw (2 ^ 53 - 1) == 4953959590107545 # 4503599627370496)%Q ∧
  (∀ image factor, im_size (Brightness_enhance image factor) = im_size image) ∧
  (∀ image factor x y,
     (0 <= factor)%Q → (factor <= 11 # 10)%Q →
     in_range image x y →
     byte_RGBA (pixel transparent image x y) →
     let p := pixel transparent image x y in
     getpixel (Brightness_enhance image factor) x y
       = Some (brighten factor p.1.1.1, brighten factor p.1.1.2,
               brighten factor p.1.2, alpha_of p) ∧
     pixel 0 (getchannel3 (Brightness_enhance image factor)) x y
       = pixel 0 (getchannel3 image) x y) ∧
  (∀ factor c,
     (0 <= factor)%Q → (factor <= 11 # 10)%Q → byte c →
     brighten factor c = Z.min 255 (py_int (binary32 (binary32 factor * inject_Z c))) ∧
     (inject_Z (brighten factor c) <= factor * inject_Z c + (1 # 1000))%Q ∧
     (brighten factor c < 255 →
      (factor * inject_Z c - 1 - (1 # 1000) < inject_Z (brighten factor c))%Q)) ∧
  (∀ disk fg fg_path g fg_image g',
     _transform_foreground disk fg fg_path g = Return (fg_image, g') →
     ∃ resized,
       fg_image = Brightness_enhance resized
                    (brightness_factor_of_draw (tape g (S (S (cursor g))) `mod` 2 ^ 53))).
Proof.
  split_and!.
  - apply pick_brightness_factor_run.
  - intros k Hk. split; [|by apply brightness_factor_of_draw_range].
    exists (draws [k]). rewrite pick_brightness_factor_run. simpl tape.
    by rewrite Z.mod_small by done.
  - apply brightness_factor_of_draw_mono.
  - rewrite brightness_factor_of_draw_first. apply brightness_constants.
  - apply brightness_factor_of_draw_last.
  - done.
  - intros image factor x y Hlo Hhi Hxy Hbytes p.
    pose proof (Brightness_enhance_pixel image factor x y Hlo Hxy Hbytes) as Hpix.
    split; [done|].
    unfold getchannel3, pixel at 1 2. rewrite !getpixel_image_map, Hpix; simpl.
    unfold pixel. by destruct (getpixel image x y).
  - intros factor c Hlo Hhi Hc. split; [done|]. by apply brighten_product.
  - intros disk fg fg_path g fg_image g' Hrun.
    apply _transform_foreground_Return in Hrun
      as (image & angle & scale & new_size & resized & factor
          & _ & _ & _ & _ & _ & _ & Hf & -> & _).
    exists resized. rewrite pick_brightness_factor_run in Hf. by injection Hf as <-.
Qed.

(* ===================================================================== *)
(** * The rotation step                                                    *)
(* ===================================================================== *)









(* ===================================================================== *)
(** * The samples of the generation driver                                 *)
(* ===================================================================== *)

Lemma mask_colors_bytes slot color :
  mask_colors !! slot = Some color → byte_RGB color.
Proof.
  destruct slot as [|[|[|slot]]]; intros [= <-]; unfold byte_RGB, byte; simpl; lia.
Qed.

(** The keys of the palette colors are pairwise different. *)
Lemma mask_colors_keys_distinct i j ci cj :
  mask_colors !! i = Some ci → mask_colors !! j = Some cj →
  str_RGB ci = str_RGB cj → i = j.
Proof.
  destruct i as [|[|[|i]]], j as [|[|[|j]]]; intros [= <-] [= <-]; done.
Qed.

Lemma mask_colors_not_black slot color : mask_colors !! slot = Some color → color ≠ black.
Proof. destruct slot as [|[|[|slot]]]; by intros [= <-]. Qed.

(** Slot [i] of the list has palette color [i]. *)
Definition palette_by_slot (foregrounds : list Foreground) : Prop :=
  ∀ slot fg, foregrounds !! slot = Some fg →
             mask_colors !! slot = Some (mask_rgb_color fg).

Section SampleFacts.
Variable self : Self.

Lemma choose_foreground_Return fg_i foregrounds g foregrounds' g' :
  choose_foreground self fg_i foregrounds g = Return (foregrounds', g') →
  ∃ fg, foregrounds' = foregrounds ++ [fg] ∧
        mask_colors !! fg_i = Some (mask_rgb_color fg).
Proof.
  intros Hrun. unfold choose_foreground in Hrun. run_inv Hrun.
  apply ret_Return in Hrun as [<- _].
  eexists. split; [done|]. simpl.
  match goal with H : list_getitem _ _ _ = Return _ |- _ => rename H into Hcolor end.
  unfold list_getitem in Hcolor. destruct (mask_colors !! fg_i); [|done].
  by apply ret_Return in Hcolor as [-> _].
Qed.

Lemma choose_foreground_loop n : ∀ start foregrounds g foregrounds' g',
  for_each (choose_foreground self) (seq start n) foregrounds g
    = Return (foregrounds', g') →
  ∃ new, foregrounds' = foregrounds ++ new ∧ length new = n ∧
         ∀ i fg, new !! i = Some fg →
                 mask_colors !! (start + i)%nat = Some (mask_rgb_color fg).
Proof.
  induction n as [|n IH]; intros start fgs g fgs' g' Hrun; simpl in Hrun.
  - apply ret_Return in Hrun as [<- _]. exists []. by rewrite app_nil_r.
  - apply bind_Return in Hrun as (fgs1 & g1 & Hstep & Hrun).
    apply choose_foreground_Return in Hstep as (fg & -> & Hcolor).
    apply IH in Hrun as (new & -> & Hlen & Hnew).
    exists (fg :: new). rewrite <- app_assoc. split_and!; [done | by simpl; rewrite Hlen |].
    intros [|i] fg'; simpl.
    + intros [= <-]. by rewrite Nat.add_0_r.
    + intros Hi. rewrite <- Nat.add_succ_comm. by apply Hnew.
Qed.

Lemma choose_foregrounds_Return g foregrounds g' :
  choose_foregrounds self g = Return (foregrounds, g') →
  (1 ≤ length foregrounds ≤ 3)%nat ∧ palette_by_slot foregrounds.
Proof.
  intros Hrun. unfold choose_foregrounds in Hrun.
  apply bind_Return in Hrun as (num & g1 & Hnum & Hrun).
  apply randint_range in Hnum as [Hnum _]. unfold max_foregrounds in Hnum.
  apply choose_foreground_loop in Hrun as (new & -> & Hlen & Hnew).
  simpl. split; [lia|]. exact Hnew.
Qed.

Lemma palette_by_slot_bytes foregrounds :
  palette_by_slot foregrounds →
  Forall (λ fg, byte_RGB (mask_rgb_color fg)) foregrounds.
Proof.
  intros Hpalette. apply Forall_lookup. intros slot fg Hfg.
  eapply mask_colors_bytes. by apply Hpalette.
Qed.

(** ** The color map of a sample *)

Definition item_of (fg : Foreground) : CategoryItem :=
  mkCategoryItem (category fg) (super_category fg).

Lemma register_foregrounds_snoc foregrounds fg mju :
  register_foregrounds (foregrounds ++ [fg]) mju =
    let acc := register_foregrounds foregrounds mju in
    ((MaskJsonUtils.add_category (category fg) (super_category fg) acc.1).2,
     <[str_RGB (mask_rgb_color fg) := item_of fg]> acc.2).
Proof. unfold register_foregrounds. by rewrite foldl_snoc. Qed.

Lemma register_foregrounds_lookup foregrounds mju key item :
  (register_foregrounds foregrounds mju).2 !! key = Some item ↔
  ∃ slot fg, foregrounds !! slot = Some fg ∧
             key = str_RGB (mask_rgb_color fg) ∧ item = item_of fg ∧
             ∀ later fg', (slot < later)%nat → foregrounds !! later = Some fg' →
                          str_RGB (mask_rgb_color fg') ≠ key.
Proof.
  induction foregrounds as [|fg fgs IH] using rev_ind.
  - simpl. rewrite lookup_empty. split; [done | by intros (?&?&?&_)].
  - rewrite register_foregrounds_snoc; simpl.
    destruct (decide (str_RGB (mask_rgb_color fg) = key)) as [Hkey|Hkey].
    + rewrite Hkey, lookup_insert_eq. split.
      * intros [= <-]. exists (length fgs), fg.
        rewrite list_lookup_middle by done. split_and!; [done..|].
        intros later fg' Hlater Hfg'. apply lookup_lt_Some in Hfg'.
        rewrite length_app in Hfg'; simpl in Hfg'. lia.
      * intros (slot & fg0 & Hslot & -> & -> & Hlast).
        destruct (decide (slot = length fgs)) as [->|Hne].
        -- rewrite list_lookup_middle in Hslot by done. by injection Hslot as ->.
        -- exfalso. apply (Hlast (length fgs) fg); [|by rewrite list_lookup_middle|done].
           apply lookup_lt_Some in Hslot. rewrite length_app in Hslot; simpl in Hslot. lia.
    + rewrite lookup_insert_ne, IH by done. split.
      * intros (slot & fg0 & Hslot & -> & -> & Hlast).
        exists slot, fg0. split_and!; [by apply lookup_app_l_Some | done..|].
        intros later fg' Hlater Hfg'.
        destruct (decide (later = length fgs)) as [->|Hne].
        -- rewrite list_lookup_middle in Hfg' by done. by injection Hfg' as <-.
        -- apply (Hlast later fg' Hlater).
           apply lookup_lt_Some in Hfg' as Hlt. rewrite length_app in Hlt; simpl in Hlt.
           by rewrite lookup_app_l in Hfg' by lia.
      * intros (slot & fg0 & Hslot & -> & -> & Hlast).
        assert (slot ≠ length fgs) as Hne.
        { intros ->. rewrite list_lookup_middle in Hslot by done.
          by injection Hslot as ->. }
        apply lookup_lt_Some in Hslot as Hlt. rewrite length_app in Hlt; simpl in Hlt.
        rewrite lookup_app_l in Hslot by lia.
        exists slot, fg0. split_and!; [done..|].
        intros later fg' Hlater Hfg'. apply (Hlast later fg' Hlater).
        by apply lookup_app_l_Some.
Qed.

(** In a sample every slot has its own key, with the categories of the
    foreground of the slot. *)
Lemma register_foregrounds_slot foregrounds mju slot fg :
  palette_by_slot foregrounds →
  foregrounds !! slot = Some fg →
  (register_foregrounds foregrounds mju).2 !! str_RGB (mask_rgb_color fg)
    = Some (item_of fg).
Proof.
  intros Hpalette Hslot. apply register_foregrounds_lookup.
  exists slot, fg. split_and!; [done..|].
  intros later fg' Hlater Hfg' Hkey.
  pose proof (mask_colors_keys_distinct _ _ _ _
                (Hpalette _ _ Hfg') (Hpalette _ _ Hslot) Hkey). lia.
Qed.

End SampleFacts.

Section SampleTheorems.
Context {R : Resampling}.
Variable disk : string → option (Image RGBA).
Variable self : Self.

(** What an iteration of [_generate_images] that returns has done. *)
Lemma generate_sample_Return i mju saved g mju' saved' sample g' :
  generate_sample disk self i (mju, saved) g = Return (mju', saved', sample, g') →
  ∃ background_path g1 g2 composite,
    random.choice (backgrounds self) g = Return (background_path, g1) ∧
    choose_foregrounds self g1 = Return (sample_foregrounds sample, g2) ∧
    _compose_images disk self (sample_foregrounds sample) background_path g2
      = Return (composite, sample_mask sample, g') ∧
    sample_composite sample = convert_RGB composite ∧
    sample_color_categories sample
      = (register_foregrounds (sample_foregrounds sample) mju).2 ∧
    sample_image_path sample
      = "images/" +:+ zero_padded zero_padding i +:+ output_type self ∧
    sample_mask_path sample = "masks/" +:+ zero_padded zero_padding i +:+ ".png" ∧
    mju' = (MaskJsonUtils.add_mask (sample_image_path sample) (sample_mask_path sample)
              (sample_color_categories sample)
              (register_foregrounds (sample_foregrounds sample) mju).1).2.
Proof.
  intros Hrun. unfold generate_sample in Hrun.
  apply bind_Return in Hrun as (background_path & g1 & Hbg & Hrun).
  apply bind_Return in Hrun as (foregrounds & g2 & Hfgs & Hrun).
  apply bind_Return in Hrun as ([composite mask] & g3 & Hcompose & Hrun).
  destruct (register_foregrounds foregrounds mju) as [mju1 cc] eqn:Hreg.
  apply ret_Return in Hrun as [[= <- <- <-] <-]. simpl.
  exists background_path, g1, g2, composite. rewrite Hreg. by split_and!.
Qed.

(** C1. In every sample the mask has the size of the output, and each of
    its pixels is the background color or the palette color of one of the
    foreground slots of the sample, never a mixture: through a mask of 0
    and 255 [BLEND] gives back one of its two arguments. *)
Theorem mask_pixels_are_background_or_slot_colors i st g st' sample g' :
  generate_sample disk self i st g = Return (st', sample, g') →
  im_size (sample_mask sample) = (Z.to_nat (width self), Z.to_nat (height self)) ∧
  (∀ x y, in_range (sample_mask sample) x y →
     ∃ p, getpixel (sample_mask sample) x y = Some p ∧
          (p = black ∨
           ∃ slot fg, sample_foregrounds sample !! slot = Some fg ∧
                      mask_colors !! slot = Some p ∧ mask_rgb_color fg = p)) ∧
  (∀ old new, byte_RGB old → byte_RGB new →
     BLEND_RGB 0 old new = old ∧ BLEND_RGB 255 old new = new).
Proof.
  destruct st as [mju saved], st' as [mju' saved']. intros Hrun.
  apply generate_sample_Return in Hrun
    as (bg & g1 & g2 & composite & _ & Hfgs & Hcompose & _).
  apply choose_foregrounds_Return in Hfgs as [_ Hpalette].
  apply _compose_images_has_log in Hcompose as [log Hlog].
  apply _compose_images_log_spec in Hlog
    as (Hlen & _ & Hsize & _ & Hpixels); [|by apply palette_by_slot_bytes].
  split_and!; [done| |].
  - intros x y [Hx Hy]. injection Hsize as Hw Hh.
    rewrite Hpixels by (split; simpl; lia).
    eexists. split; [done|].
    destruct (paint_init_or_layer x y black
                (zip (mask_rgb_color <$> sample_foregrounds sample) log))
      as [-> | (slot & [color u] & Hslot & _ & ->)]; [by left|].
    right. apply lookup_zip_with_Some in Hslot as (c & u' & [= <- <-] & Hc & _).
    rewrite list_lookup_fmap in Hc.
    destruct (sample_foregrounds sample !! slot) as [fg|] eqn:Hfg; [|done].
    injection Hc as <-. exists slot, fg. split_and!; [done | by apply Hpalette | done].
  - intros old new Hold Hnew. by rewrite BLEND_RGB_0, BLEND_RGB_255.
Qed.

(** C2, as amended.  When the foregrounds are those that
    [choose_foregrounds] gives and the compositor returns, a pixel that
    slot [i] and a later slot [j] both occupy (padded alpha above 200)
    has the color of slot [j] in the mask, provided no slot after [j]
    occupies the pixel. *)
Theorem last_occupying_slot_wins g0 foregrounds background_path g composite mask log g' :
  choose_foregrounds self g0 = Return (foregrounds, g) →
  _compose_images_log disk self foregrounds background_path g
    = Return (composite, mask, log, g') →
  ∀ i j fg_j u_i u_j x y,
    (i < j)%nat →
    log !! i = Some u_i → log !! j = Some u_j → foregrounds !! j = Some fg_j →
    (x < Z.to_nat (width self))%nat → (y < Z.to_nat (height self))%nat →
    pixel 0 u_i x y = 1 → pixel 0 u_j x y = 1 →
    (∀ k u_k, (j < k)%nat → log !! k = Some u_k → pixel 0 u_k x y ≠ 1) →
    getpixel mask x y = Some (mask_rgb_color fg_j).
Proof.
  intros Hfgs Hlog i j fg_j u_i u_j x y Hij Hi Hj Hfg Hx Hy Hocc_i Hocc_j Hlast.
  apply choose_foregrounds_Return in Hfgs as [_ Hpalette].
  apply _compose_images_log_spec in Hlog
    as (Hlen & _ & Hsize & _ & Hpixels); [|by apply palette_by_slot_bytes].
  rewrite Hpixels by done. f_equal.
  apply (paint_last_occupier x y black _ j (mask_rgb_color fg_j, u_j)); [|done|].
  - apply lookup_zip_with_Some. exists (mask_rgb_color fg_j), u_j.
    split_and!; [done| |done]. by rewrite list_lookup_fmap, Hfg.
  - intros k [c u_k] Hjk Hk.
    apply lookup_zip_with_Some in Hk as (c' & u' & [= <- <-] & _ & Hu).
    by apply (Hlast k).
Qed.

End SampleTheorems.

(* ===================================================================== *)
(** * Runs whose draws are all 0                                           *)
(* ===================================================================== *)

Lemma drawn_drawn a b g : drawn a (drawn b g) = drawn (a + b) g.
Proof. unfold drawn; simpl. f_equal. lia. Qed.

(** Every draw still to come is 0. *)
Definition quiet (g : Random) : Prop := ∀ i, (cursor g ≤ i)%nat → tape g i = 0.

Lemma quiet_drawn n g : quiet g → quiet (drawn n g).
Proof. intros Hq i Hi. apply Hq. simpl in Hi. lia. Qed.

Lemma quiet_next g : quiet g → tape g (cursor g) = 0.
Proof. intros Hq. by apply Hq. Qed.

Lemma paste_position_for_Return composite fg_image g position g' :
  paste_position_for composite fg_image g = Return (position, g') →
  position =
    (0 + tape g (cursor g)
         `mod` (Z.of_nat (im_width composite) - Z.of_nat (im_width fg_image) - 0 + 1),
     0 + tape g (S (cursor g))
         `mod` (Z.of_nat (im_height composite) - Z.of_nat (im_height fg_image) - 0 + 1)) ∧
  g' = drawn 2 g.
Proof.
  intros Hrun. unfold paste_position_for in Hrun.
  apply bind_Return in Hrun as ([] & g1 & Hassert & Hrun).
  apply assert_Return in Hassert as [Hfits ->].
  apply andb_true_iff in Hfits as [Hx Hy]. apply Z.leb_le in Hx, Hy.
  rewrite (bind_step _ _ _ _ _ (randint_run 0 _ g Hx)) in Hrun.
  rewrite (bind_step _ _ _ _ _ (randint_run 0 _ (drawn 1 g) Hy)) in Hrun.
  apply ret_Return in Hrun as [<- <-]. by rewrite drawn_drawn.
Qed.

Section QuietRuns.
Context {R : Resampling}.
Variable disk : string → option (Image RGBA).

Lemma crop_background_drawn self background_path g st g' :
  crop_background disk self background_path g = Return (st, g') → g' = drawn 2 g.
Proof.
  intros Hrun. unfold crop_background in Hrun.
  apply bind_Return in Hrun as (background & g1 & Hopen & Hrun).
  unfold Image_open in Hopen. destruct (disk background_path); [|done].
  apply ret_Return in Hopen as [_ <-].
  apply bind_Return in Hrun as ([] & g1 & Hassert & Hrun).
  apply assert_Return in Hassert as [_ ->].
  apply bind_Return in Hrun as ([] & g1 & Hassert & Hrun).
  apply assert_Return in Hassert as [_ ->].
  apply bind_Return in Hrun as (x & g1 & Hx & Hrun).
  apply randint_range in Hx as [_ ->].
  apply bind_Return in Hrun as (y & g2 & Hy & Hrun).
  apply randint_range in Hy as [_ ->].
  apply ret_Return in Hrun as [_ <-]. by rewrite drawn_drawn.
Qed.

(** The scale and the brightness factor of a draw of 0. *)
Definition scale_0 : Q := scale_of_draw (0 `mod` 2 ^ 53).
Definition brightness_0 : Q := brightness_factor_of_draw (0 `mod` 2 ^ 53).

(** With draws of 0 the foreground is not rotated, halved, and pasted at
    the origin: the occupancy array of the iteration is a function of the
    file and of the size of the canvas. *)
Lemma compose_foreground_quiet fg composite composite_mask g composite' mask' u g' :
  quiet g →
  compose_foreground disk fg (composite, composite_mask) g
    = Return (composite', mask', u, g') →
  ∃ image new_size resized,
    disk (foreground_path fg) = Some image ∧
    (∀ h, scaled_size image scale_0 h = Return (new_size, h)) ∧
    (∀ h, Image_resize image new_size BICUBIC h = Return (resized, h)) ∧
    u = np_greater
          (paste 0 (Image_new (im_size composite) 0)
                 (getchannel3 (Brightness_enhance resized brightness_0)) (0, 0)) 200 ∧
    im_size composite' = im_size composite ∧
    quiet g'.
Proof.
  intros Hquiet Hrun. unfold compose_foreground in Hrun.
  apply bind_Return in Hrun as (fg_image & g1 & Htransform & Hrun).
  apply bind_Return in Hrun as (position & g2 & Hplace & Hrun).
  apply ret_Return in Hrun as [[= <- <- <-] <-].
  apply _transform_foreground_Return in Htransform
    as (image & angle & scale & new_size & resized & factor
        & Hfile & _ & Hangle & Hscale & Hnew & Hresize & Hfactor & -> & ->).
  rewrite pick_angle_degrees_run, quiet_next in Hangle by done.
  injection Hangle as <-.
  rewrite pick_scale_run, quiet_next in Hscale by (by apply quiet_drawn).
  injection Hscale as <-.
  rewrite pick_brightness_factor_run, quiet_next in Hfactor by (by apply quiet_drawn).
  injection Hfactor as <-.
  apply paste_position_for_Return in Hplace as [-> ->].
  rewrite !quiet_next by (by apply quiet_drawn).
  rewrite (quiet_drawn 3 g Hquiet (S (cursor (drawn 3 g)))) by lia.
  rewrite !Zmod_0_l. simpl Z.add.
  change (Image_rotate image (0 `mod` 360) BICUBIC true) with image in Hnew, Hresize.
  exists image, new_size, resized.
  split_and!; [done | | | done | done | by do 2 apply quiet_drawn].
  - intros h. by apply (scaled_size_any_oracle _ _ _ _ _ Hnew).
  - intros h. by apply (Image_resize_any_oracle _ _ _ _ _ _ Hresize).
Qed.

(** Two iterations with draws of 0, for one file and canvases of one
    size, have the same occupancy array. *)
Lemma compose_foreground_quiet_twice fg1 fg2 c1 m1 c2 m2 g1 g2 c1' m1' u1 g1' c2' m2' u2 g2' :
  quiet g1 → quiet g2 →
  foreground_path fg1 = foreground_path fg2 →
  im_size c1 = im_size c2 →
  compose_foreground disk fg1 (c1, m1) g1 = Return (c1', m1', u1, g1') →
  compose_foreground disk fg2 (c2, m2) g2 = Return (c2', m2', u2, g2') →
  u1 = u2.
Proof.
  intros Hq1 Hq2 Hpath Hsize Hrun1 Hrun2.
  apply compose_foreground_quiet in Hrun1
    as (image1 & size1 & resized1 & Hfile1 & Hnew1 & Hresize1 & -> & _); [|done].
  apply compose_foreground_quiet in Hrun2
    as (image2 & size2 & resized2 & Hfile2 & Hnew2 & Hresize2 & -> & _); [|done].
  rewrite Hpath, Hfile2 in Hfile1. injection Hfile1 as <-.
  specialize (Hnew1 g1). rewrite Hnew2 in Hnew1. injection Hnew1 as <-.
  specialize (Hresize1 g1). rewrite Hresize2 in Hresize1. injection Hresize1 as <-.
  by rewrite Hsize.
Qed.

End QuietRuns.

(* ===================================================================== *)
(** * A concrete data set                                                  *)
(* ===================================================================== *)

(** An 8 x 8 cut-out: opaque but for its transparent top left pixel. *)
Definition square_foreground : Image RGBA :=
  tabulate 8 8 (λ x y,
    if decide (x = 0%nat ∧ y = 0%nat) then transparent else (200, 100, 50, 255)).

Definition plain_background : Image RGBA := Image_new (64%nat, 64%nat) (10, 20, 30, 255).

Definition example_disk (path : string) : option (Image RGBA) :=
  if decide (path = "in/foregrounds/s/c/square.png") then Some square_foreground
  else if decide (path = "in/backgrounds/plain.jpg") then Some plain_background
  else None.

Definition example_self : Self :=
  mkSelf 1 64 64 ".jpg" "out"
         [("s", [("c", ["in/foregrounds/s/c/square.png"])])]
         ["in/backgrounds/plain.jpg"].

Definition square_in_slot (color : RGB) : Foreground :=
  mkForeground "s" "c" "in/foregrounds/s/c/square.png" color.

(** Three slots, every other draw 0: the three squares are halved to
    4 x 4 and pasted at the origin, one over the other. *)
Lemma three_squares_at_the_origin :
  ∃ g composite mask u0 u1 u2 g',
    choose_foregrounds example_self (draws [2])
      = Return ([square_in_slot (255, 0, 0); square_in_slot (0, 255, 0);
                 square_in_slot (0, 0, 255)], g) ∧
    _compose_images_log (R := nearest) example_disk example_self
        [square_in_slot (255, 0, 0); square_in_slot (0, 255, 0);
         square_in_slot (0, 0, 255)] "in/backgrounds/plain.jpg" g
      = Return (composite, mask, [u0; u1; u2], g') ∧
    pixel 0 u0 3 3 = 1 ∧ pixel 0 u1 3 3 = 1 ∧ pixel 0 u2 3 3 = 1 ∧
    getpixel mask 3 3 = Some (0, 0, 255).
Proof.
  do 7 eexists. split; [vm_compute; reflexivity|].
  split; [vm_compute; reflexivity|].
  by vm_compute.
Qed.

(** C2, as stated, fails: slots 0 and 1 both occupy the pixel (3, 3) of the
    run above, and the mask has there the color of slot 2, not of slot 1. *)
Lemma third_slot_overrides_second :
  ¬ (∀ (R : Resampling) disk self g0 foregrounds background_path g
       composite mask log g',
       choose_foregrounds self g0 = Return (foregrounds, g) →
       _compose_images_log disk self foregrounds background_path g
         = Return (composite, mask, log, g') →
       ∀ i j fg_j u_i u_j x y,
         (i < j)%nat →
         log !! i = Some u_i → log !! j = Some u_j → foregrounds !! j = Some fg_j →
         (x < Z.to_nat (width self))%nat → (y < Z.to_nat (height self))%nat →
         pixel 0 u_i x y = 1 → pixel 0 u_j x y = 1 →
         getpixel mask x y = Some (mask_rgb_color fg_j)).
Proof.
  intros Hclaim.
  destruct three_squares_at_the_origin
    as (g & composite & mask & u0 & u1 & u2 & g' & Hfgs & Hlog & H0 & H1 & _ & Hmask).
  specialize (Hclaim nearest _ _ _ _ _ _ _ _ _ _ Hfgs Hlog
                0%nat 1%nat (square_in_slot (0, 255, 0)) u0 u1 3%nat 3%nat).
  rewrite Hclaim in Hmask; [done | lia | done | done | done | | | done | done];
    vm_compute; lia.
Qed.

Definition returns {A} (r : result A) : bool :=
  match r with Return _ => true | Raise _ => false end.

Definition empty_state : MaskJsonUtils.t * list (string * Image RGB) :=
  (MaskJsonUtils.__init__ "out", []).

Section TwoIdenticalSlots.
Context {R : Resampling}.

(** Sample 0 of the data set above with draws 0, 1, 0, 0, ...: two slots,
    both with the square, transformed and placed alike.  Whatever the
    interpolation makes of the square, slot 1 covers slot 0. *)
Lemma two_identical_slots :
  ∃ st' sample g',
    generate_sample example_disk example_self 0 empty_state (draws [0; 1])
      = Return (st', sample, g') ∧
    sample_foregrounds sample
      = [square_in_slot (255, 0, 0); square_in_slot (0, 255, 0)] ∧
    sample_color_categories sample
      = <["(0, 255, 0)" := mkCategoryItem "c" "s"]>
          (<["(255, 0, 0)" := mkCategoryItem "c" "s"]> ∅) ∧
    MaskJsonUtils.masks st'.1 !! sample_image_path sample
      = Some (mkMaskDefinition (sample_mask_path sample)
                               (sample_color_categories sample)) ∧
    ∀ x y, in_range (sample_mask sample) x y →
           ∃ p, getpixel (sample_mask sample) x y = Some p ∧ p ≠ (255, 0, 0).
Proof.
  destruct (generate_sample example_disk example_self 0 empty_state (draws [0; 1]))
    as [[[[mju' saved'] sample] g']|e] eqn:Hrun.
  2: { assert (returns (generate_sample example_disk example_self 0 empty_state
                          (draws [0; 1])) = true) as Hok by (vm_compute; reflexivity).
       by rewrite Hrun in Hok. }
  exists (mju', saved'), sample, g'. split; [done|].
  apply generate_sample_Return in Hrun
    as (bg & g1 & g2 & composite & Hbg & Hfgs & Hcompose & _ & Hcc & Hip & Hmp & Hmju).
  vm_compute in Hbg. injection Hbg as <- <-.
  vm_compute in Hfgs. injection Hfgs as Hfgs Hg2.
  assert (Hslots : sample_foregrounds sample
            = [square_in_slot (255, 0, 0); square_in_slot (0, 255, 0)])
    by (symmetry; exact Hfgs).
  assert (Hquiet : quiet g2).
  { subst g2. intros i Hi; simpl in *. by do 8 (destruct i as [|i]; [lia|]). }
  clear Hfgs Hg2. rewrite Hslots in *.
  assert (Hmap : sample_color_categories sample
            = <["(0, 255, 0)" := mkCategoryItem "c" "s"]>
                (<["(255, 0, 0)" := mkCategoryItem "c" "s"]> ∅))
    by (rewrite Hcc; vm_compute; reflexivity).
  split_and!; [done | done | |].
  - simpl. rewrite Hmju, Hip, Hmp, Hcc. vm_compute. reflexivity.
  - remember (sample_mask sample) as mask eqn:Hmask. clear Hmask.
    apply _compose_images_has_log in Hcompose as [log Hlog].
    pose proof Hlog as Hspec. apply _compose_images_log_spec in Hspec
      as (_ & _ & Hsize & _ & Hpixels);
      [|repeat constructor; unfold byte; simpl; lia].
    unfold _compose_images_log in Hlog.
    apply bind_Return in Hlog as ([c0 m0] & g3 & Hcrop & Hloop).
    apply crop_background_drawn in Hcrop as ->.
    cbn [for_each] in Hloop.
    apply bind_Return in Hloop as ([[c1 m1] log1] & g4 & Hstep1 & Hloop).
    apply bind_Return in Hstep1 as ([[c1' m1'] u0] & g4' & Hstep1 & Hret1).
    apply ret_Return in Hret1 as [[= <- <- <-] <-].
    apply bind_Return in Hloop as ([[c2 m2] log2] & g5 & Hstep2 & Hloop).
    apply bind_Return in Hstep2 as ([[c2' m2'] u1] & g5' & Hstep2 & Hret2).
    apply ret_Return in Hret2 as [[= <- <- <-] <-].
    apply ret_Return in Hloop as [[= <- <- <-] _].
    cbn [fst snd] in *.
    pose proof (quiet_drawn 2 _ Hquiet) as Hquiet3.
    destruct (compose_foreground_quiet _ _ _ _ _ _ _ _ _ Hquiet3 Hstep1)
      as (_ & _ & _ & _ & _ & _ & _ & Hsize1 & Hquiet4).
    assert (u0 = u1) as <-.
    { eapply (compose_foreground_quiet_twice example_disk);
        [exact Hquiet3 | exact Hquiet4 | | | exact Hstep1 | exact Hstep2];
        [reflexivity | by symmetry]. }
    intros x y [Hx Hy]. injection Hsize as Hw Hh.
    rewrite Hpixels by (split; simpl; lia).
    eexists. split; [done|].
    unfold paint, paint_pixel; simpl. by repeat case_decide.
Qed.

End TwoIdenticalSlots.

(* ===================================================================== *)
(** * Registration and the colors of the mask                              *)
(* ===================================================================== *)

(** C8. A slot is registered under the key of its palette color whatever
    the mask shows: in every sample each slot has its key in the color map,
    and there is a sample (the one with two identical slots, for every
    interpolation) whose registered color map has the key of (255, 0, 0)
    while no pixel of its mask has that color. *)
Theorem registered_color_can_be_absent_from_mask {R : Resampling} :
  (∀ disk self i st g st' sample g',
     generate_sample disk self i st g = Return (st', sample, g') →
     ∀ slot fg, sample_foregrounds sample !! slot = Some fg →
       mask_colors !! slot = Some (mask_rgb_color fg) ∧
       sample_color_categories sample !! str_RGB (mask_rgb_color fg)
         = Some (mkCategoryItem (category fg) (super_category fg))) ∧
  (∃ disk self i st g st' sample g',
     generate_sample disk self i st g = Return (st', sample, g') ∧
     MaskJsonUtils.masks st'.1 !! sample_image_path sample
       = Some (mkMaskDefinition (sample_mask_path sample)
                                (sample_color_categories sample)) ∧
     is_Some (sample_color_categories sample !! str_RGB (255, 0, 0)) ∧
     ∀ x y, in_range (sample_mask sample) x y →
            ∃ p, getpixel (sample_mask sample) x y = Some p ∧ p ≠ (255, 0, 0)).
Proof.
  split.
  - intros disk self i [mju saved] g [mju' saved'] sample g' Hrun slot fg Hslot.
    apply generate_sample_Return in Hrun
      as (bg & g1 & g2 & composite & _ & Hfgs & _ & _ & -> & _).
    apply choose_foregrounds_Return in Hfgs as [_ Hpalette].
    split; [by apply Hpalette|]. by apply (register_foregrounds_slot _ _ slot).
  - destruct two_identical_slots as (st' & sample & g' & Hrun & _ & Hmap & Hmasks & Hpix).
    exists example_disk, example_self, 0%nat, empty_state, (draws [0; 1]), st', sample, g'.
    split_and!; [exact Hrun | exact Hmasks | | exact Hpix].
    rewrite Hmap. vm_compute. by eexists.
Qed.

(** C9. The foreground of a slot is chosen without regard to the slots
    before it, so one file can serve two slots: there is a sample whose
    slots 0 and 1 have the same file, category and super category; and in
    every sample two slots of one category and super category have two
    different keys in the color map, with the same value. *)
Theorem same_foreground_in_two_slots {R : Resampling} :
  (∀ self slot foregrounds foregrounds' g chosen g',
     choose_foreground self slot foregrounds g = Return (chosen, g') →
     ∃ fg, chosen = foregrounds ++ [fg] ∧
           choose_foreground self slot foregrounds' g = Return (foregrounds' ++ [fg], g')) ∧
  (∃ disk self i st g st' sample g' fg0 fg1,
     generate_sample disk self i st g = Return (st', sample, g') ∧
     sample_foregrounds sample !! 0%nat = Some fg0 ∧
     sample_foregrounds sample !! 1%nat = Some fg1 ∧
     foreground_path fg0 = foreground_path fg1 ∧
     category fg0 = category fg1 ∧ super_category fg0 = super_category fg1) ∧
  (∀ disk self i st g st' sample g',
     generate_sample disk self i st g = Return (st', sample, g') →
     ∀ a b fg_a fg_b,
       a ≠ b →
       sample_foregrounds sample !! a = Some fg_a →
       sample_foregrounds sample !! b = Some fg_b →
       category fg_a = category fg_b → super_category fg_a = super_category fg_b →
       str_RGB (mask_rgb_color fg_a) ≠ str_RGB (mask_rgb_color fg_b) ∧
       sample_color_categories sample !! str_RGB (mask_rgb_color fg_a)
         = Some (mkCategoryItem (category fg_a) (super_category fg_a)) ∧
       sample_color_categories sample !! str_RGB (mask_rgb_color fg_b)
         = Some (mkCategoryItem (category fg_a) (super_category fg_a))).
Proof.
  split_and!.
  - intros self slot fgs fgs' g chosen g' Hrun. unfold choose_foreground in *.
    apply bind_Return in Hrun as (s & g1 & Hs & Hrun). rewrite (bind_step _ _ _ _ _ Hs).
    apply bind_Return in Hrun as (cs & g2 & Hcs & Hrun). rewrite (bind_step _ _ _ _ _ Hcs).
    apply bind_Return in Hrun as (c & g3 & Hc & Hrun). rewrite (bind_step _ _ _ _ _ Hc).
    apply bind_Return in Hrun as (fs & g4 & Hfs & Hrun). rewrite (bind_step _ _ _ _ _ Hfs).
    apply bind_Return in Hrun as (f & g5 & Hf & Hrun). rewrite (bind_step _ _ _ _ _ Hf).
    apply bind_Return in Hrun as (col & g6 & Hcol & Hrun).
    rewrite (bind_step _ _ _ _ _ Hcol).
    apply ret_Return in Hrun as [<- <-]. by eexists.
  - destruct two_identical_slots as (st' & sample & g' & Hrun & Hslots & _).
    exists example_disk, example_self, 0%nat, empty_state, (draws [0; 1]), st', sample, g',
           (square_in_slot (255, 0, 0)), (square_in_slot (0, 255, 0)).
    rewrite Hslots. split_and!; [exact Hrun | reflexivity..].
  - intros disk self i [mju saved] g [mju' saved'] sample g' Hrun a b fg_a fg_b
           Hab Ha Hb Hcat Hsuper.
    apply generate_sample_Return in Hrun
      as (bg & g1 & g2 & composite & _ & Hfgs & _ & _ & -> & _).
    apply choose_foregrounds_Return in Hfgs as [_ Hpalette].
    split_and!.
    + intros Hkey. apply Hab.
      by apply (mask_colors_keys_distinct _ _ _ _ (Hpalette _ _ Ha) (Hpalette _ _ Hb)).
    + by apply (register_foregrounds_slot _ _ a).
    + rewrite Hcat, Hsuper. by apply (register_foregrounds_slot _ _ b).
Qed.

(* ===================================================================== *)
(** * The theorems at concrete inputs                                      *)
(* ===================================================================== *)

(** A registry that holds sample 0. *)
Definition registry_with_sample_0 : MaskJsonUtils.t :=
  (MaskJsonUtils.add_mask "images/00000000.jpg" "masks/00000000.png"
     {["(255, 0, 0)" := mkCategoryItem "c" "s"]} (MaskJsonUtils.__init__ "out")).2.

Lemma add_mask_duplicate_or_insert_witness :
  MaskJsonUtils.add_mask "images/00000000.jpg" "masks/other.png" ∅ registry_with_sample_0
    = (false, registry_with_sample_0) ∧
  MaskJsonUtils.masks
    (MaskJsonUtils.add_mask "images/00000001.jpg" "masks/00000001.png"
       {["(255, 0, 0)" := mkCategoryItem "d" "s"]} registry_with_sample_0).2
    = <["images/00000001.jpg" :=
          mkMaskDefinition "masks/00000001.png" {["(255, 0, 0)" := mkCategoryItem "d" "s"]}]>
        (MaskJsonUtils.masks registry_with_sample_0).
Proof.
  split.
  - apply (add_mask_duplicate_or_insert registry_with_sample_0
             "images/00000000.jpg" "masks/other.png" ∅).
    vm_compute. by eexists.
  - apply (add_mask_duplicate_or_insert registry_with_sample_0
             "images/00000001.jpg" "masks/00000001.png"
             {["(255, 0, 0)" := mkCategoryItem "d" "s"]}).
    vm_compute. reflexivity.
Defined.


(** The channels 200, 100, 50 and 255 under the smallest and under the
    largest factor. *)
Lemma brighten_at_the_ends :
  brighten (brightness_factor_of_draw 0) <$> [200; 100; 50; 255] = [140; 70; 35; 178] ∧
  brighten (brightness_factor_of_draw (2 ^ 53 - 1)) <$> [200; 100; 50; 255]
    = [220; 110; 55; 255].
Proof. vm_compute. done. Qed.

Lemma brightness_scales_colors_and_keeps_alpha_witness :
  let factor := brightness_factor_of_draw 0 in
  getpixel (Brightness_enhance square_foreground factor) 1 1
    = Some (brighten factor 200, brighten factor 100, brighten factor 50, 255) ∧
  pixel 0 (getchannel3 (Brightness_enhance square_foreground factor)) 1 1
    = pixel 0 (getchannel3 square_foreground) 1 1.
Proof.
  destruct (brightness_scales_colors_and_keeps_alpha (R := nearest))
    as (_ & _ & _ & _ & _ & _ & Hpixel & _).
  apply (Hpixel square_foreground (brightness_factor_of_draw 0) 1%nat 1%nat).
  - vm_compute. discriminate.
  - vm_compute. discriminate.
  - vm_compute. lia.
  - vm_compute. repeat split; discriminate.
Defined.

(** A 128 x 128 cut-out, which the scale 1/2 brings to the size of the
    canvas. *)
Definition large_foreground : Image RGBA :=
  tabulate 128 128 (λ x y,
    if decide (x = 0%nat ∧ y = 0%nat) then transparent else (200, 100, 50, 255)).

Definition large_disk (path : string) : option (Image RGBA) :=
  if decide (path = "in/foregrounds/s/c/large.png") then Some large_foreground else None.

Lemma foreground_of_canvas_size_is_placed_witness :
  ∃ fg_image g1,
    _transform_foreground (R := nearest) large_disk
        (mkForeground "s" "c" "in/foregrounds/s/c/large.png" (255, 0, 0))
        "in/foregrounds/s/c/large.png" (draws [])
      = Return (fg_image, g1) ∧
    im_size fg_image = im_size plain_background ∧
    paste_position_for plain_background fg_image g1 = Return ((0, 0), drawn 2 g1).
Proof.
  eexists _, _. split; [vm_compute; reflexivity|].
  split; [vm_compute; reflexivity|].
  eapply (foreground_of_canvas_size_is_placed (R := nearest) large_disk
            (mkForeground "s" "c" "in/foregrounds/s/c/large.png" (255, 0, 0))
            plain_background (Image_new (64%nat, 64%nat) black) (draws []));
    vm_compute; reflexivity.
Defined.

Lemma one_pixel_axis_scales_to_zero_witness :
  ∃ new_size,
    scaled_size thin_foreground (1 # 2) (draws []) = Return (new_size, draws []) ∧
    (new_size.1 = 0 ∨ new_size.2 = 0) ∧
    Image_resize (R := nearest) thin_foreground new_size BICUBIC (draws [])
      = Raise ValueError.
Proof.
  destruct (one_pixel_axis_scales_to_zero (R := nearest)) as (_ & Hresize & _).
  apply (Hresize thin_foreground (1 # 2)%Q (draws [])).
  - vm_compute. discriminate.
  - vm_compute. reflexivity.
  - vm_compute. reflexivity.
  - left. split; [reflexivity|]. vm_compute. reflexivity.
Defined.

Lemma mask_pixels_are_background_or_slot_colors_witness :
  ∃ st' sample g',
    generate_sample (R := nearest) example_disk example_self 0 empty_state (draws [0; 1])
      = Return (st', sample, g') ∧
    im_size (sample_mask sample) = (64%nat, 64%nat) ∧
    ∃ p, getpixel (sample_mask sample) 3 3 = Some p ∧
         (p = black ∨
          ∃ slot fg, sample_foregrounds sample !! slot = Some fg ∧
                     mask_colors !! slot = Some p ∧ mask_rgb_color fg = p).
Proof.
  eexists _, _, _. split; [vm_compute; reflexivity|].
  eassert (generate_sample (R := nearest) example_disk example_self 0 empty_state
             (draws [0; 1]) = Return (_, _, _)) as Hrun by (vm_compute; reflexivity).
  destruct (mask_pixels_are_background_or_slot_colors (R := nearest) _ _ _ _ _ _ _ _ Hrun)
    as (Hsize & Hpixels & _).
  split; [exact Hsize|].
  apply Hpixels. split; vm_compute; lia.
Defined.

Lemma last_occupying_slot_wins_witness :
  ∃ g composite mask u0 u1 u2 g',
    choose_foregrounds example_self (draws [2])
      = Return ([square_in_slot (255, 0, 0); square_in_slot (0, 255, 0);
                 square_in_slot (0, 0, 255)], g) ∧
    _compose_images_log (R := nearest) example_disk example_self
        [square_in_slot (255, 0, 0); square_in_slot (0, 255, 0);
         square_in_slot (0, 0, 255)] "in/backgrounds/plain.jpg" g
      = Return (composite, mask, [u0; u1; u2], g') ∧
    getpixel mask 3 3 = Some (mask_rgb_color (square_in_slot (0, 0, 255))).
Proof.
  destruct three_squares_at_the_origin
    as (g & composite & mask & u0 & u1 & u2 & g' & Hfgs & Hlog & _ & H1 & H2 & _).
  exists g, composite, mask, u0, u1, u2, g'. split; [exact Hfgs|]. split; [exact Hlog|].
  apply (last_occupying_slot_wins (R := nearest) example_disk example_self
           _ _ _ _ _ _ _ _ Hfgs Hlog 1%nat 2%nat (square_in_slot (0, 0, 255)) u1 u2 3%nat 3%nat);
    [lia | reflexivity | reflexivity | reflexivity | vm_compute; lia | vm_compute; lia
     | exact H1 | exact H2 |].
  intros k u_k Hk Hlookup. destruct k as [|[|[|k]]]; [lia..|discriminate].
Defined.

Lemma registered_color_can_be_absent_from_mask_witness :
  ∃ st' sample g',
    generate_sample (R := nearest) example_disk example_self 0 empty_state (draws [0; 1])
      = Return (st', sample, g') ∧
    sample_color_categories sample !! str_RGB (255, 0, 0) = Some (mkCategoryItem "c" "s").
Proof.
  destruct (two_identical_slots (R := nearest)) as (st' & sample & g' & Hrun & Hslots & _).
  exists st', sample, g'. split; [exact Hrun|].
  destruct (registered_color_can_be_absent_from_mask (R := nearest)) as [Hregistered _].
  apply (Hregistered example_disk example_self 0%nat empty_state (draws [0; 1])
           st' sample g' Hrun 0%nat (square_in_slot (255, 0, 0))).
  rewrite Hslots. reflexivity.
Defined.

Lemma same_foreground_in_two_slots_witness :
  ∃ st' sample g',
    generate_sample (R := nearest) example_disk example_self 0 empty_state (draws [0; 1])
      = Return (st', sample, g') ∧
    str_RGB (255, 0, 0) ≠ str_RGB (0, 255, 0) ∧
    sample_color_categories sample !! str_RGB (255, 0, 0) = Some (mkCategoryItem "c" "s") ∧
    sample_color_categories sample !! str_RGB (0, 255, 0) = Some (mkCategoryItem "c" "s").
Proof.
  destruct (two_identical_slots (R := nearest)) as (st' & sample & g' & Hrun & Hslots & _).
  exists st', sample, g'. split; [exact Hrun|].
  destruct (same_foreground_in_two_slots (R := nearest)) as (_ & _ & Hkeys).
  apply (Hkeys example_disk example_self 0%nat empty_state (draws [0; 1])
           st' sample g' Hrun 0%nat 1%nat
           (square_in_slot (255, 0, 0)) (square_in_slot (0, 255, 0)));
    [lia | rewrite Hslots; reflexivity | rewrite Hslots; reflexivity
     | reflexivity | reflexivity].
Defined.

(* ===================================================================== *)
(** * More on the mask registry                                            *)
(* ===================================================================== *)

(** X1. [add_category] answers whether the pair is new: it returns [False]
    exactly when the category is already under the super category, and
    then the object is as before; otherwise it returns [True] and the
    taxonomy has gained that pair and nothing else.  The mask dictionary is
    never touched. *)
Theorem add_category_reports_new_pair category super_category self :
  let r := MaskJsonUtils.add_category category super_category self in
  (r.1 = false ↔ category ∈ categories_of self super_category) ∧
  (r.1 = false → r.2 = self) ∧
  (∀ s c, c ∈ categories_of r.2 s ↔
          c ∈ categories_of self s ∨ (c = category ∧ s = super_category)) ∧
  MaskJsonUtils.masks r.2 = MaskJsonUtils.masks self ∧
  MaskJsonUtils.output_dir r.2 = MaskJsonUtils.output_dir self.
Proof.
  destruct (add_category_spec category super_category self) as (Hdir & Hmasks & Htax & Hret & Hsame).
  by split_and!.
Qed.

(** No super category of the registry has an empty set of categories. *)
Definition taxonomy_nonempty (self : MaskJsonUtils.t) : Prop :=
  ∀ s set, MaskJsonUtils.super_categories self !! s = Some set → set ≠ ∅.

Lemma add_category_nonempty category super_category self :
  taxonomy_nonempty self →
  taxonomy_nonempty (MaskJsonUtils.add_category category super_category self).2.
Proof.
  intros Hwf s set. unfold MaskJsonUtils.add_category.
  destruct (MaskJsonUtils.super_categories self !! super_category) as [old|] eqn:Hget;
    [destruct (decide (old = ∅)); [|destruct (decide (category ∈ old))]|]; simpl;
    try apply Hwf;
    (destruct (decide (super_category = s)) as [<-|Hne];
       [rewrite lookup_insert_eq; intros [= <-]; set_solver
       |rewrite lookup_insert_ne by done; apply Hwf]).
Qed.

(** X2. The registry keeps its super categories non-empty: the new registry
    has none, and [add_category] and [add_mask] leave none empty.  So the
    exported taxonomy has no empty list. *)
Theorem registry_keeps_super_categories_nonempty :
  (∀ output_dir, taxonomy_nonempty (MaskJsonUtils.__init__ output_dir)) ∧
  (∀ category super_category self,
     taxonomy_nonempty self →
     taxonomy_nonempty (MaskJsonUtils.add_category category super_category self).2) ∧
  (∀ image_path mask_path (color_categories : gmap string CategoryItem) self,
     taxonomy_nonempty self →
     taxonomy_nonempty
       (MaskJsonUtils.add_mask image_path mask_path color_categories self).2) ∧
  (∀ self s categories,
     taxonomy_nonempty self →
     MaskJsonUtils.get_super_categories self !! s = Some categories → categories ≠ []).
Proof.
  split_and!.
  - intros output_dir s set. unfold MaskJsonUtils.__init__; simpl. by rewrite lookup_empty.
  - apply add_category_nonempty.
  - intros image_path mask_path cc self Hwf. unfold MaskJsonUtils.add_mask.
    destruct (MaskJsonUtils.masks self !! image_path); [done|]. simpl.
    apply (map_fold_weak_ind (λ r (_ : gmap string CategoryItem), taxonomy_nonempty r)).
    + done.
    + intros color item m r _ Hr. by apply add_category_nonempty.
  - intros self s categories Hwf. unfold MaskJsonUtils.get_super_categories.
    rewrite lookup_fmap. destruct (MaskJsonUtils.super_categories self !! s) as [set|] eqn:Hget;
      [|done].
    intros [= <-] Hnil. apply (Hwf s set Hget).
    apply elements_empty_inv in Hnil. by apply leibniz_equiv.
Qed.

(** A run of [add_category] over a list of (category, super category)
    pairs. *)
Definition add_categories (pairs : list (string * string)) (self : MaskJsonUtils.t)
    : MaskJsonUtils.t :=
  foldl (λ self pair, (MaskJsonUtils.add_category pair.1 pair.2 self).2) self pairs.

Lemma add_categories_spec pairs self s c :
  c ∈ categories_of (add_categories pairs self) s ↔
  c ∈ categories_of self s ∨ (c, s) ∈ pairs.
Proof.
  revert self. induction pairs as [|[c0 s0] pairs IH]; intros self; simpl.
  - set_solver.
  - rewrite IH. destruct (add_category_spec c0 s0 self) as (_ & _ & Htax & _).
    simpl in Htax. rewrite Htax, elem_of_cons. naive_solver.
Qed.

Lemma add_categories_nonempty pairs self :
  taxonomy_nonempty self → taxonomy_nonempty (add_categories pairs self).
Proof.
  revert self. induction pairs as [|[c0 s0] pairs IH]; intros self Hwf; simpl; [done|].
  by apply IH, add_category_nonempty.
Qed.

(** X3. Round trip of the taxonomy: after the pairs of a list are added to a
    new registry, whatever their order and repetitions, the export lists
    under a super category exactly the categories paired with it, each
    once; a super category paired with nothing is not a key. *)
Theorem taxonomy_round_trip output_dir pairs s :
  match MaskJsonUtils.get_super_categories
          (add_categories pairs (MaskJsonUtils.__init__ output_dir)) !! s with
  | Some categories =>
      NoDup categories ∧ categories ≠ [] ∧ ∀ c, c ∈ categories ↔ (c, s) ∈ pairs
  | None => ∀ c, (c, s) ∉ pairs
  end.
Proof.
  set (self := add_categories pairs (MaskJsonUtils.__init__ output_dir)).
  assert (Hmem : ∀ c, c ∈ categories_of self s ↔ (c, s) ∈ pairs).
  { intros c. unfold self. rewrite add_categories_spec.
    unfold categories_of, MaskJsonUtils.__init__; simpl. rewrite lookup_empty; simpl.
    set_solver. }
  assert (Hwf : taxonomy_nonempty self).
  { apply add_categories_nonempty. intros s' set. unfold MaskJsonUtils.__init__; simpl.
    by rewrite lookup_empty. }
  unfold MaskJsonUtils.get_super_categories. rewrite lookup_fmap.
  unfold categories_of in Hmem.
  destruct (MaskJsonUtils.super_categories self !! s) as [set|] eqn:Hget; simpl in *.
  - split_and!.
    + apply NoDup_elements.
    + intros Hnil. apply (Hwf s set Hget).
      apply elements_empty_inv in Hnil. by apply leibniz_equiv.
    + intros c. by rewrite elem_of_elements.
  - intros c Hc. apply Hmem in Hc. set_solver.
Qed.

(** X4. Insert and lookup of masks: a first registration of an image path is
    what [get_masks] gives back under the path, the entries of the other
    paths are as before, and a second registration of the path is refused
    and changes nothing, whatever it brings. *)
Theorem first_registration_of_a_path_stays self image_path mask_path
    (color_categories : gmap string CategoryItem) :
  MaskJsonUtils.masks self !! image_path = None →
  let registered :=
    (MaskJsonUtils.add_mask image_path mask_path color_categories self).2 in
  MaskJsonUtils.get_masks registered !! image_path
    = Some (mkMaskDefinition mask_path color_categories) ∧
  (∀ other, other ≠ image_path →
     MaskJsonUtils.get_masks registered !! other = MaskJsonUtils.get_masks self !! other) ∧
  (∀ mask_path' (color_categories' : gmap string CategoryItem),
     MaskJsonUtils.add_mask image_path mask_path' color_categories' registered
       = (false, registered)).
Proof.
  intros Hfresh registered.
  destruct (add_mask_fresh self image_path mask_path color_categories Hfresh)
    as (_ & Hmasks & _).
  fold registered in Hmasks. unfold MaskJsonUtils.get_masks.
  assert (Hentry : MaskJsonUtils.masks registered !! image_path
                   = Some (mkMaskDefinition mask_path color_categories))
    by (by rewrite Hmasks, lookup_insert_eq).
  split_and!; [done| |].
  - intros other Hother. by rewrite Hmasks, lookup_insert_ne.
  - intros mask_path' cc'. unfold MaskJsonUtils.add_mask at 1. by rewrite Hentry.
Qed.

(* ===================================================================== *)
(** * More on the validation of the arguments                              *)
(* ===================================================================== *)

Lemma process_output_type_Return given g current g' :
  process_output_type given g = Return (current, g') ↔
  g' = g ∧
  (given = None ∧ current = ".jpg" ∨
   ∃ name, given = Some name ∧ name ∈ ["png"; "jpg"; "jpeg"] ∧ current = "." +:+ name).
Proof.
  split.
  - destruct given as [name|]; simpl; [|intros [= <- <-]; by split; [|left]].
    destruct name as [|c rest]; [done|]. simpl.
    unfold mbind, M_bind, str_first, mret, M_ret, getattr.
    case_decide as Hc; [|done]. simpl.
    unfold assert. case_bool_decide as Hallowed; [|done]. simpl.
    intros [= <- <-]. split; [done|]. right. eexists. split; [done|]. split; [|done].
    unfold allowed_output_types in Hallowed.
    rewrite !elem_of_cons, elem_of_nil in Hallowed.
    rewrite !elem_of_cons, elem_of_nil.
    destruct Hallowed as [H|[H|[H|[]]]]; cbn in H; injection H as -> ->; auto.
  - intros [-> [[-> ->]|(name & -> & Hname & ->)]]; [done|].
    rewrite !elem_of_cons, elem_of_nil in Hname.
    by destruct Hname as [->|[->|[->|[]]]].
Qed.

(** The output directory lets the validation go on when its directories
    could be made and the user, if asked, has answered [y] or [yes]. *)
Definition output_directory_ready (silent : bool) (output : OutputDirectory) : Prop :=
  mkdir_error output = None ∧
  (silent = true ∨ images_output_dir_has_entry output = false ∨
   answer output = "y" ∨ answer output = "yes").

Lemma _validate_and_process_output_directory_Return silent output g g' :
  _validate_and_process_output_directory silent output g = Return ((), g') ↔
  output_directory_ready silent output ∧ g' = g.
Proof.
  unfold _validate_and_process_output_directory, output_directory_ready.
  destruct (mkdir_error output) as [e|]; [split; [done|by intros [[? _] _]]|].
  destruct silent, (images_output_dir_has_entry output); simpl;
    try (split; [intros [= <-]; auto|by intros [_ ->]]).
  repeat case_bool_decide; simpl.
  - split; [done|]. intros [[_ [?|[?|[?|?]]]] _]; done.
  - split; [intros [= <-]; split; [|done]; split; [done|]|by intros [_ ->]].
    by right; right; right.
  - split; [intros [= <-]; split; [|done]; split; [done|]|by intros [_ ->]].
    by right; right; left.
  - split; [intros [= <-]; split; [|done]; split; [done|]|by intros [_ ->]].
    by right; right; left.
Qed.

Lemma _validate_and_process_args_inv args output found_foregrounds found_backgrounds g
    self g' :
  _validate_and_process_args args output found_foregrounds found_backgrounds g
    = Return (self, g') →
  0 < args_count args ∧ 64 ≤ args_width args ∧ 64 ≤ args_height args ∧
  output_directory_ready (args_silent args) output ∧
  found_foregrounds ≠ [] ∧ found_backgrounds ≠ [] ∧ g' = g ∧
  ∃ output_type,
    (args_output_type args = None ∧ output_type = ".jpg" ∨
     ∃ name, args_output_type args = Some name ∧ name ∈ ["png"; "jpg"; "jpeg"] ∧
             output_type = "." +:+ name) ∧
    self = mkSelf (args_count args) (args_width args) (args_height args) output_type
                  (args_output_dir args) found_foregrounds found_backgrounds.
Proof.
  intros Hrun. unfold _validate_and_process_args in Hrun. cbn zeta in Hrun.
  apply bind_Return in Hrun as ([] & g1 & Hcount & Hrun).
  apply assert_Return in Hcount as [Hcount ->]. apply Z.ltb_lt in Hcount.
  apply bind_Return in Hrun as ([] & g1 & Hwidth & Hrun).
  apply assert_Return in Hwidth as [Hwidth ->]. apply Z.leb_le in Hwidth.
  apply bind_Return in Hrun as ([] & g1 & Hheight & Hrun).
  apply assert_Return in Hheight as [Hheight ->]. apply Z.leb_le in Hheight.
  apply bind_Return in Hrun as (output_type & g1 & Htype & Hrun).
  apply process_output_type_Return in Htype as [-> Htype].
  apply bind_Return in Hrun as ([] & g1 & Hout & Hrun).
  apply _validate_and_process_output_directory_Return in Hout as [Hout ->].
  apply bind_Return in Hrun as ([] & g1 & Hdirs & Hrun).
  unfold _validate_and_process_input_directory in Hdirs.
  apply bind_Return in Hdirs as ([] & g2 & Hfg & Hbg).
  apply assert_Return in Hfg as [Hfg ->]. apply assert_Return in Hbg as [Hbg ->].
  apply bool_decide_eq_true in Hfg, Hbg.
  apply ret_Return in Hrun as [<- <-].
  split_and!; [done..| | |done|].
  + by destruct found_foregrounds; [simpl in Hfg; lia|].
  + by destruct found_backgrounds; [simpl in Hbg; lia|].
  + by exists output_type.
Qed.

Lemma _validate_and_process_args_Return args output found_foregrounds found_backgrounds g
    self g' :
  _validate_and_process_args args output found_foregrounds found_backgrounds g
    = Return (self, g') →
  0 < args_count args ∧ 64 ≤ args_width args ∧ 64 ≤ args_height args ∧
  found_foregrounds ≠ [] ∧ found_backgrounds ≠ [] ∧ g' = g ∧
  ∃ output_type,
    (args_output_type args = None ∧ output_type = ".jpg" ∨
     ∃ name, args_output_type args = Some name ∧ name ∈ ["png"; "jpg"; "jpeg"] ∧
             output_type = "." +:+ name) ∧
    self = mkSelf (args_count args) (args_width args) (args_height args) output_type
                  (args_output_dir args) found_foregrounds found_backgrounds.
Proof.
  intros Hrun. apply _validate_and_process_args_inv in Hrun
    as (? & ? & ? & _ & ? & ? & ? & ?). done.
Qed.

(** X5. The validation accepts the arguments exactly when the count is
    positive, the width and the height are at least 64, the output type is
    omitted or one of png, jpg, jpeg written without dot, the directories
    of the output could be made, the user, asked because the run is not
    silent and the directory of the images has an entry, has answered [y]
    or [yes], and foregrounds and backgrounds were found; the attributes of
    [self] are then the arguments, with [.jpg] for an omitted output type
    and the dot added to a given one. *)
Theorem validation_accepts_iff args output found_foregrounds found_backgrounds g self g' :
  _validate_and_process_args args output found_foregrounds found_backgrounds g
    = Return (self, g') ↔
  0 < args_count args ∧ 64 ≤ args_width args ∧ 64 ≤ args_height args ∧
  (mkdir_error output = None ∧
   (args_silent args = true ∨ images_output_dir_has_entry output = false ∨
    answer output = "y" ∨ answer output = "yes")) ∧
  found_foregrounds ≠ [] ∧ found_backgrounds ≠ [] ∧ g' = g ∧
  ∃ output_type,
    (args_output_type args = None ∧ output_type = ".jpg" ∨
     ∃ name, args_output_type args = Some name ∧ name ∈ ["png"; "jpg"; "jpeg"] ∧
             output_type = "." +:+ name) ∧
    self = mkSelf (args_count args) (args_width args) (args_height args) output_type
                  (args_output_dir args) found_foregrounds found_backgrounds.
Proof.
  split; [apply _validate_and_process_args_inv|].
  intros (Hcount & Hwidth & Hheight & Hout & Hfg & Hbg & -> & output_type & Htype & ->).
  rewrite validation_reaches_output_type by done.
  assert (process_output_type (args_output_type args) g = Return (output_type, g)) as Hrun
    by (by apply process_output_type_Return).
  rewrite (bind_step _ _ _ _ _ Hrun).
  rewrite (bind_step _ _ _ () g)
    by (by apply _validate_and_process_output_directory_Return).
  unfold _validate_and_process_input_directory, assert.
  destruct found_foregrounds; [done|]. by destruct found_backgrounds.
Qed.

(** An output directory that is there and empty. *)
Definition empty_output_directory : OutputDirectory := mkOutputDirectory None false "".

Lemma validation_accepts_iff_witness :
  _validate_and_process_args (mkArgs false 5 100 100 (Some "png") "out")
      (mkOutputDirectory None true "yes")
      [("s", [("c", ["in/foregrounds/s/c/square.png"])])] ["in/backgrounds/plain.jpg"]
      (draws [])
    = Return (mkSelf 5 100 100 ".png" "out"
                [("s", [("c", ["in/foregrounds/s/c/square.png"])])]
                ["in/backgrounds/plain.jpg"], draws []).
Proof.
  apply validation_accepts_iff. simpl.
  split_and!; [lia | lia | lia | done | by right; right; right | done | done | done |].
  eexists. split; [|reflexivity]. right. exists "png". split_and!; [done| |done].
  apply list_elem_of_here.
Defined.

(** X6. The exception of a refused output type, when the three sizes are
    valid: the empty string fails at its first character with
    [IndexError]; every string that starts with a dot, allowed or not,
    ends with [AttributeError]; every other string that is not png, jpg or
    jpeg fails the assertion on the output type. *)
Theorem refused_output_type_exceptions args output found_foregrounds found_backgrounds g :
  0 < args_count args → 64 ≤ args_width args → 64 ≤ args_height args →
  (args_output_type args = Some "" →
   _validate_and_process_args args output found_foregrounds found_backgrounds g
     = Raise IndexError) ∧
  (∀ rest, args_output_type args = Some (String "." rest) →
   _validate_and_process_args args output found_foregrounds found_backgrounds g
     = Raise AttributeError) ∧
  (∀ c rest, args_output_type args = Some (String c rest) →
   c ≠ "."%char → String c rest ∉ ["png"; "jpg"; "jpeg"] →
   _validate_and_process_args args output found_foregrounds found_backgrounds g
     = Raise (AssertionError "output_type is not supported")).
Proof.
  intros Hcount Hwidth Hheight.
  split_and!.
  - intros Htype. rewrite validation_reaches_output_type by done.
    apply bind_Raise. by rewrite Htype.
  - intros rest Htype. rewrite validation_reaches_output_type by done.
    apply bind_Raise. by rewrite Htype.
  - intros c rest Htype Hc Hname. rewrite validation_reaches_output_type by done.
    apply bind_Raise. rewrite Htype. unfold process_output_type.
    rewrite (bind_step _ _ _ c g) by done.
    rewrite decide_True by done.
    rewrite (bind_step _ _ _ ("." +:+ String c rest) g) by done.
    apply bind_Raise. unfold assert. rewrite bool_decide_eq_false_2; [done|].
    unfold allowed_output_types. rewrite !elem_of_cons, elem_of_nil in *.
    intros [H|[H|[H|[]]]]; injection H as H; rewrite H in Hname; naive_solver.
Qed.

Lemma refused_output_type_exceptions_witness :
  _validate_and_process_args (mkArgs true 5 100 100 (Some "gif") "out") empty_output_directory [] []
      (draws [])
    = Raise (AssertionError "output_type is not supported").
Proof.
  destruct (refused_output_type_exceptions (mkArgs true 5 100 100 (Some "gif") "out")
              empty_output_directory [] [] (draws [])) as (_ & _ & Hother); [simpl; lia..|].
  apply (Hother "g"%char "if"); [reflexivity | discriminate |].
  rewrite !elem_of_cons, elem_of_nil. intros [H|[H|[H|[]]]]; discriminate H.
Defined.

(** X7. The order of the checks of the sizes: a count that is not positive is
    reported first, then a width below 64, then a height below 64,
    whatever the other arguments are. *)
Theorem size_checks_in_order args output found_foregrounds found_backgrounds g :
  (args_count args ≤ 0 →
   _validate_and_process_args args output found_foregrounds found_backgrounds g
     = Raise (AssertionError "cuenta debe ser mayor que 0")) ∧
  (0 < args_count args → args_width args < 64 →
   _validate_and_process_args args output found_foregrounds found_backgrounds g
     = Raise (AssertionError "ancho tiene que ser mayor que 64")) ∧
  (0 < args_count args → 64 ≤ args_width args → args_height args < 64 →
   _validate_and_process_args args output found_foregrounds found_backgrounds g
     = Raise (AssertionError "altura tiene que ser mayor que 64")).
Proof.
  split_and!.
  - apply validation_rejects_count.
  - apply validation_rejects_width.
  - apply validation_rejects_height.
Qed.

Lemma size_checks_in_order_witness :
  _validate_and_process_args (mkArgs true 0 10 10 (Some ".bmp") "out") empty_output_directory [] []
      (draws [])
    = Raise (AssertionError "cuenta debe ser mayor que 0") ∧
  _validate_and_process_args (mkArgs true 1 63 10 None "out") empty_output_directory [] []
      (draws [])
    = Raise (AssertionError "ancho tiene que ser mayor que 64") ∧
  _validate_and_process_args (mkArgs true 1 64 63 None "out") empty_output_directory [] []
      (draws [])
    = Raise (AssertionError "altura tiene que ser mayor que 64").
Proof.
  split_and!.
  - apply size_checks_in_order. simpl. lia.
  - apply size_checks_in_order; simpl; lia.
  - apply size_checks_in_order; simpl; lia.
Defined.

(* ===================================================================== *)
(** * More on the random module                                            *)
(* ===================================================================== *)

Lemma bind_Raise_inv {A B} (m : M A) (f : A → M B) g e :
  (m ≫= f) g = Raise e →
  m g = Raise e ∨ ∃ a g1, m g = Return (a, g1) ∧ f a g1 = Raise e.
Proof.
  unfold mbind, M_bind. destruct (m g) as [[a g1]|e'].
  - intros Hf. right. by exists a, g1.
  - intros [= ->]. by left.
Qed.

Lemma choice_Return {A} (seq : list A) g x g' :
  random.choice seq g = Return (x, g') → x ∈ seq ∧ g' = drawn 1 g.
Proof.
  unfold random.choice. destruct seq as [|a seq]; [done|].
  set (l := a :: seq). intros Hrun.
  apply bind_Return in Hrun as (i & g1 & Hi & Hrun).
  unfold random._randbelow in Hi. apply bind_Return in Hi as (r & g2 & Hr & Hi).
  injection Hr as <- <-. apply ret_Return in Hi as [<- <-].
  destruct (l !! _) as [y|] eqn:Hy; [|done].
  apply ret_Return in Hrun as [<- <-]. split; [|done].
  by eapply list_elem_of_lookup_2.
Qed.

Lemma choice_nonempty {A} (seq : list A) g :
  seq ≠ [] → ∃ x, random.choice seq g = Return (x, drawn 1 g) ∧ x ∈ seq.
Proof.
  intros Hne. unfold random.choice. destruct seq as [|a seq]; [done|].
  set (l := a :: seq).
  pose proof (Z.mod_pos_bound (tape g (cursor g)) (Z.of_nat (length l))
                ltac:(simpl; lia)) as Hb.
  destruct (lookup_lt_is_Some_2 l (Z.to_nat (tape g (cursor g) `mod` Z.of_nat (length l))))
    as [x Hx]; [lia|].
  exists x. split; [|by eapply list_elem_of_lookup_2].
  unfold mbind, M_bind, random._randbelow, random.next_raw; simpl.
  unfold mbind, M_bind; simpl. fold l.
  change (S (length seq)) with (length l). by rewrite Hx.
Qed.

(* ===================================================================== *)
(** * More on the transform engine                                         *)
(* ===================================================================== *)

Lemma np_any_eq_true arr v :
  np_any_eq arr v = true ↔ ∃ x y, getpixel arr x y = Some v.
Proof.
  unfold np_any_eq, getpixel. rewrite existsb_exists. split.
  - intros (row & Hrow & Hex). apply existsb_exists in Hex as (p & Hp & Heq).
    apply Z.eqb_eq in Heq as <-.
    apply list_elem_of_In, list_elem_of_lookup in Hrow as [y Hy].
    apply list_elem_of_In, list_elem_of_lookup in Hp as [x Hx].
    exists x, y. by rewrite Hy.
  - intros (x & y & Hxy). destruct (im_rows arr !! y) as [row|] eqn:Hy; [|done].
    simpl in Hxy. exists row. split.
    + apply list_elem_of_In. by eapply list_elem_of_lookup_2.
    + apply existsb_exists. exists v. split; [|by apply Z.eqb_eq].
      apply list_elem_of_In. by eapply list_elem_of_lookup_2.
Qed.

Section TransformFacts.
Context {R : Resampling}.
Variable disk : string → option (Image RGBA).

(** X8. The transform engine looks at the file before it draws anything: a
    missing file ends with [FileNotFoundError], and a foreground in mode
    RGBA is refused with the assertion on its transparency exactly when
    none of its stored pixels has alpha 0; in both cases whatever the
    oracle holds. *)
Theorem foreground_without_transparent_pixel_is_refused fg fg_path g :
  (disk fg_path = None →
   _transform_foreground disk fg fg_path g = Raise FileNotFoundError) ∧
  (∀ image, disk fg_path = Some image →
     (_transform_foreground disk fg fg_path g
        = Raise (AssertionError "foreground needs to have some transparency") ↔
      ¬ ∃ x y p, getpixel image x y = Some p ∧ alpha_of p = 0)).
Proof.
  split.
  - intros Hfile. unfold _transform_foreground. apply bind_Raise.
    unfold Image_open. by rewrite Hfile.
  - intros image Hfile.
    assert (Halpha : np_any_eq (getchannel3 image) 0 = true ↔
                     ∃ x y p, getpixel image x y = Some p ∧ alpha_of p = 0).
    { rewrite np_any_eq_true. unfold getchannel3. setoid_rewrite getpixel_image_map.
      split.
      - intros (x & y & Hxy). destruct (getpixel image x y) as [p|] eqn:Hp; [|done].
        injection Hxy as Hxy. by exists x, y, p.
      - intros (x & y & p & Hp & Hzero). exists x, y. by rewrite Hp; simpl; rewrite Hzero. }
    unfold _transform_foreground.
    rewrite (bind_step _ _ _ image g) by (unfold Image_open; by rewrite Hfile).
    destruct (np_any_eq (getchannel3 image) 0) eqn:Hany.
    + split; [|intros Hnone; destruct Hnone; by apply Halpha].
      intros Hraise. exfalso.
      rewrite (bind_step _ _ _ () g) in Hraise by done.
      rewrite (bind_step _ _ _ _ _ (pick_angle_degrees_run g)) in Hraise.
      rewrite (bind_step _ _ _ _ _ (pick_scale_run (drawn 1 g))) in Hraise.
      apply bind_Raise_inv in Hraise as [Hsize | (new_size & g2 & _ & Hraise)].
      * by apply scaled_size_Raise in Hsize.
      * apply bind_Raise_inv in Hraise as [Hresize | (resized & g3 & _ & Hraise)].
        -- by apply Image_resize_Raise in Hresize as [?|?].
        -- by rewrite (bind_step _ _ _ _ _ (pick_brightness_factor_run g3)) in Hraise.
    + split; [|by intros _; apply bind_Raise].
      intros _ Hsome. apply Halpha in Hsome. congruence.
Qed.


End TransformFacts.

(** A foreground in mode RGBA without a transparent pixel. *)
Definition opaque_foreground : Image RGBA := Image_new (2%nat, 2%nat) (200, 100, 50, 255).

Definition opaque_disk (path : string) : option (Image RGBA) :=
  if decide (path = "in/foregrounds/s/c/opaque.png") then Some opaque_foreground else None.

Lemma foreground_without_transparent_pixel_is_refused_witness :
  _transform_foreground (R := nearest) opaque_disk
      (mkForeground "s" "c" "in/foregrounds/s/c/opaque.png" (255, 0, 0))
      "in/foregrounds/s/c/opaque.png" (draws [])
    = Raise (AssertionError "foreground needs to have some transparency").
Proof.
  destruct (foreground_without_transparent_pixel_is_refused (R := nearest) opaque_disk
              (mkForeground "s" "c" "in/foregrounds/s/c/opaque.png" (255, 0, 0))
              "in/foregrounds/s/c/opaque.png" (draws []))
    as [_ Hopaque].
  apply (Hopaque opaque_foreground); [reflexivity|].
  intros (x & y & p & Hp & Hzero).
  assert (np_any_eq (getchannel3 opaque_foreground) 0 = true) as Hany.
  { apply np_any_eq_true. exists x, y. unfold getchannel3.
    rewrite getpixel_image_map, Hp. simpl. by rewrite Hzero. }
  vm_compute in Hany. discriminate Hany.
Defined.


(* ===================================================================== *)
(** * More on the compositor                                               *)
(* ===================================================================== *)

Lemma BLEND_RGBA_0 p1 p2 : byte_RGBA p1 → BLEND_RGBA 0 p1 p2 = p1.
Proof.
  destruct p1 as [[[r g] b] a]. intros (?&?&?&?). unfold BLEND_RGBA; simpl in *.
  by rewrite !BLEND_0.
Qed.

Lemma BLEND_RGBA_255 p1 p2 : byte_RGBA p2 → BLEND_RGBA 255 p1 p2 = p2.
Proof.
  destruct p2 as [[[r g] b] a]. intros (?&?&?&?). unfold BLEND_RGBA; simpl in *.
  by rewrite !BLEND_255.
Qed.

Lemma pixel_getchannel3 im x y :
  pixel 0 (getchannel3 im) x y = alpha_of (pixel transparent im x y).
Proof.
  unfold pixel, getchannel3. rewrite getpixel_image_map. by destruct (getpixel im x y).
Qed.

(** The pixel [(x, y)] lies in the box of size [w] x [h] at [(px, py)]. *)
Definition in_box (px py : Z) (w h : nat) (x y : nat) : Prop :=
  px ≤ Z.of_nat x < px + Z.of_nat w ∧ py ≤ Z.of_nat y < py + Z.of_nat h.

Global Instance in_box_dec px py w h x y : Decision (in_box px py w h x y).
Proof. unfold in_box. apply _. Defined.

Lemma pixel_paste {A} (d : A) dst src px py x y :
  in_range dst x y →
  pixel d (paste d dst src (px, py)) x y =
    if decide (in_box px py (im_width src) (im_height src) x y)
    then pixel d src (Z.to_nat (Z.of_nat x - px)) (Z.to_nat (Z.of_nat y - py))
    else pixel d dst x y.
Proof.
  intros [Hx Hy]. unfold paste. rewrite pixel_tabulate by done. simpl.
  case_decide as Hbox; unfold in_box in Hbox.
  - assert ((0 <=? Z.of_nat x - px) && (Z.of_nat x - px <? Z.of_nat (im_width src))
            && (0 <=? Z.of_nat y - py) && (Z.of_nat y - py <? Z.of_nat (im_height src))
            = true) as ->; [|done].
    rewrite !andb_true_iff, !Z.leb_le, !Z.ltb_lt. lia.
  - assert ((0 <=? Z.of_nat x - px) && (Z.of_nat x - px <? Z.of_nat (im_width src))
            && (0 <=? Z.of_nat y - py) && (Z.of_nat y - py <? Z.of_nat (im_height src))
            = false) as ->; [|done].
    apply not_true_is_false. rewrite !andb_true_iff, !Z.leb_le, !Z.ltb_lt. lia.
Qed.

Section CompositorMore.
Context {R : Resampling}.
Variable disk : string → option (Image RGBA).

(** What an iteration of the compositor that returns has computed. *)
Lemma compose_foreground_Return fg composite composite_mask g composite' mask' u g' :
  compose_foreground disk fg (composite, composite_mask) g
    = Return (composite', mask', u, g') →
  ∃ fg_image position,
    _transform_foreground disk fg (foreground_path fg) g = Return (fg_image, drawn 3 g) ∧
    paste_position_for composite fg_image (drawn 3 g) = Return (position, drawn 5 g) ∧
    g' = drawn 5 g ∧
    composite' =
      Image_composite BLEND_RGBA transparent
        (paste transparent (Image_new (im_size composite) transparent) fg_image position)
        composite
        (paste 0 (Image_new (im_size composite) 0) (getchannel3 fg_image) position) ∧
    u = np_greater
          (paste 0 (Image_new (im_size composite) 0) (getchannel3 fg_image) position) 200 ∧
    im_size mask' = im_size composite_mask.
Proof.
  intros Hrun. unfold compose_foreground in Hrun.
  apply bind_Return in Hrun as (fg_image & g1 & Htransform & Hrun).
  apply bind_Return in Hrun as (position & g2 & Hplace & Hrun).
  apply ret_Return in Hrun as [[= <- <- <-] <-].
  pose proof Htransform as Hdrawn.
  apply _transform_foreground_Return in Hdrawn as (?&?&?&?&?&?&_&_&_&_&_&_&_&_&->).
  pose proof Hplace as Hpos. apply paste_position_for_Return in Hpos as [_ ->].
  rewrite drawn_drawn in *. simpl in *.
  by exists fg_image, position.
Qed.

(** X10. An iteration of the compositor pastes the transformed foreground in a
    box that lies inside the canvas.  Outside the box nothing is occupied
    and the composite keeps its pixel.  Inside the box a pixel is occupied
    exactly when the alpha of the foreground there is above 200; the
    composite takes the pixel of the foreground where its alpha is 255 and
    keeps its own where it is 0. *)
Theorem pasted_foreground_pixels fg composite composite_mask g composite' mask' u g' :
  compose_foreground disk fg (composite, composite_mask) g
    = Return (composite', mask', u, g') →
  ∃ fg_image px py,
    _transform_foreground disk fg (foreground_path fg) g = Return (fg_image, drawn 3 g) ∧
    g' = drawn 5 g ∧
    0 ≤ px ≤ Z.of_nat (im_width composite) - Z.of_nat (im_width fg_image) ∧
    0 ≤ py ≤ Z.of_nat (im_height composite) - Z.of_nat (im_height fg_image) ∧
    ∀ x y, in_range composite x y →
      let old := pixel transparent composite x y in
      let new := pixel transparent composite' x y in
      if decide (in_box px py (im_width fg_image) (im_height fg_image) x y) then
        let p := pixel transparent fg_image
                       (Z.to_nat (Z.of_nat x - px)) (Z.to_nat (Z.of_nat y - py)) in
        (pixel 0 u x y = 1 ↔ 200 < alpha_of p) ∧
        (alpha_of p = 255 → byte_RGBA p → new = p) ∧
        (alpha_of p = 0 → byte_RGBA old → new = old)
      else
        pixel 0 u x y = 0 ∧ (byte_RGBA old → new = old).
Proof.
  intros Hrun.
  apply compose_foreground_Return in Hrun
    as (fg_image & [px py] & Htransform & Hplace & -> & -> & -> & _).
  exists fg_image, px, py. split; [done|]. split; [done|].
  assert (0 ≤ px ≤ Z.of_nat (im_width composite) - Z.of_nat (im_width fg_image) ∧
          0 ≤ py ≤ Z.of_nat (im_height composite) - Z.of_nat (im_height fg_image))
    as [Hpx Hpy].
  { unfold paste_position_for in Hplace.
    apply bind_Return in Hplace as ([] & g1 & Hassert & Hplace).
    apply assert_Return in Hassert as [_ ->].
    apply bind_Return in Hplace as (x & g1 & Hx & Hplace).
    apply bind_Return in Hplace as (y & g2 & Hy & Hplace).
    apply ret_Return in Hplace as [[= <- <-] _].
    apply randint_range in Hx as [Hx _]. apply randint_range in Hy as [Hy _]. lia. }
  split; [done|]. split; [done|].
  intros x y Hxy old new.
  assert (Hcanvas : ∀ A (c : A), in_range (Image_new (im_size composite) c) x y)
    by (intros; exact Hxy).
  assert (Hnew : new = BLEND_RGBA
            (pixel 0 (paste 0 (Image_new (im_size composite) 0)
                            (getchannel3 fg_image) (px, py)) x y)
            old
            (pixel transparent
               (paste transparent (Image_new (im_size composite) transparent)
                      fg_image (px, py)) x y)).
  { unfold new, Image_composite. destruct Hxy. by rewrite pixel_tabulate. }
  assert (Hu : pixel 0 (np_greater
                  (paste 0 (Image_new (im_size composite) 0)
                         (getchannel3 fg_image) (px, py)) 200) x y
               = if 200 <? pixel 0 (paste 0 (Image_new (im_size composite) 0)
                                          (getchannel3 fg_image) (px, py)) x y
                 then 1 else 0).
  { unfold np_greater. erewrite pixel_image_map; [done|].
    unfold paste. destruct Hxy. by apply getpixel_tabulate. }
  rewrite Hu, Hnew, !pixel_paste by done.
  change (im_width (getchannel3 fg_image)) with (im_width fg_image).
  change (im_height (getchannel3 fg_image)) with (im_height fg_image).
  case_decide as Hbox.
  - intros p. rewrite pixel_getchannel3. fold p. split_and!.
    + destruct (200 <? alpha_of p) eqn:Halpha.
      * apply Z.ltb_lt in Halpha. by split.
      * apply Z.ltb_ge in Halpha. split; [done | lia].
    + intros -> Hp. by apply BLEND_RGBA_255.
    + intros -> Hold. by apply BLEND_RGBA_0.
  - unfold Image_new. destruct Hxy. rewrite !pixel_tabulate by done.
    split; [done|]. intros Hold. by apply BLEND_RGBA_0.
Qed.

Lemma compose_images_loop_sizes foregrounds : ∀ composite mask g composite' mask' g',
  for_each (λ fg st, r ← compose_foreground disk fg st; mret r.1) foregrounds
           (composite, mask) g = Return (composite', mask', g') →
  im_size composite' = im_size composite ∧ im_size mask' = im_size mask.
Proof.
  induction foregrounds as [|fg fgs IH]; intros c m g c' m' g' Hrun.
  - apply ret_Return in Hrun as [[= <- <-] _]. done.
  - cbn [for_each] in Hrun.
    apply bind_Return in Hrun as ([c1 m1] & g1 & Hstep & Hrun).
    apply bind_Return in Hstep as ([[c1' m1'] u] & g1' & Hstep & Hret).
    apply ret_Return in Hret as [[= <- <-] <-].
    apply compose_foreground_Return in Hstep as (?&?&_&_&_&->&_&Hm).
    apply IH in Hrun as [-> ->]. done.
Qed.

Variable self : Self.

Lemma _compose_images_sizes foregrounds background_path g composite mask g' :
  _compose_images disk self foregrounds background_path g = Return (composite, mask, g') →
  im_size composite = (Z.to_nat (width self), Z.to_nat (height self)) ∧
  im_size mask = (Z.to_nat (width self), Z.to_nat (height self)).
Proof.
  intros Hrun. unfold _compose_images in Hrun.
  apply bind_Return in Hrun as ([c0 m0] & g0 & Hcrop & Hloop).
  apply compose_images_loop_sizes in Hloop as [-> ->].
  pose proof (crop_background_spec disk self _ _ _ _ _ Hcrop) as (Hc0 & Hm0 & _).
  by rewrite Hm0, Hc0.
Qed.

(** X11. The outcomes of the compositor that the background decides: a missing
    file, a background narrower or lower than the output, and, when the
    compositor returns, a composite and a mask of exactly the output size
    over a background that is large enough. *)
Theorem compositor_needs_a_background_of_the_output_size foregrounds background_path g :
  (disk background_path = None →
   _compose_images disk self foregrounds background_path g = Raise FileNotFoundError) ∧
  (∀ background, disk background_path = Some background →
     Z.of_nat (im_width background) < width self →
     _compose_images disk self foregrounds background_path g
       = Raise (AssertionError "anchura deseada mayor que ancho de fondo")) ∧
  (∀ background, disk background_path = Some background →
     width self ≤ Z.of_nat (im_width background) →
     Z.of_nat (im_height background) < height self →
     _compose_images disk self foregrounds background_path g
       = Raise (AssertionError "altura deseada mayor que alto de fondo")) ∧
  (∀ composite mask g',
     _compose_images disk self foregrounds background_path g
       = Return (composite, mask, g') →
     im_size composite = (Z.to_nat (width self), Z.to_nat (height self)) ∧
     im_size mask = (Z.to_nat (width self), Z.to_nat (height self)) ∧
     ∃ background, disk background_path = Some background ∧
                   width self ≤ Z.of_nat (im_width background) ∧
                   height self ≤ Z.of_nat (im_height background)).
Proof.
  split_and!.
  - intros Hfile. unfold _compose_images, crop_background. do 2 apply bind_Raise.
    unfold Image_open. by rewrite Hfile.
  - intros background Hfile Hnarrow. unfold _compose_images, crop_background.
    apply bind_Raise.
    rewrite (bind_step _ _ _ background g) by (unfold Image_open; by rewrite Hfile).
    apply bind_Raise. unfold assert. by rewrite (proj2 (Z.leb_gt 0 _)) by lia.
  - intros background Hfile Hwide Hlow. unfold _compose_images, crop_background.
    apply bind_Raise.
    rewrite (bind_step _ _ _ background g) by (unfold Image_open; by rewrite Hfile).
    rewrite (proj2 (Z.leb_le 0 (Z.of_nat (im_width background) - width self))) by lia.
    rewrite (bind_step _ _ _ () g) by done.
    apply bind_Raise. unfold assert. by rewrite (proj2 (Z.leb_gt 0 _)) by lia.
  - intros composite mask g' Hrun.
    destruct (_compose_images_sizes _ _ _ _ _ _ Hrun) as [-> ->].
    split; [done|]. split; [done|].
    unfold _compose_images in Hrun.
    apply bind_Return in Hrun as ([c0 m0] & g0 & Hcrop & _).
    unfold crop_background in Hcrop.
    apply bind_Return in Hcrop as (background & g1 & Hopen & Hcrop).
    unfold Image_open in Hopen.
    destruct (disk background_path) as [b|] eqn:Hfile; [|done].
    apply ret_Return in Hopen as [-> _].
    apply bind_Return in Hcrop as ([] & g2 & Hw & Hcrop).
    apply assert_Return in Hw as [Hw _]. apply Z.leb_le in Hw.
    apply bind_Return in Hcrop as ([] & g3 & Hh & _).
    apply assert_Return in Hh as [Hh _]. apply Z.leb_le in Hh.
    exists background. split; [done|]. lia.
Qed.

(** X12. A transformed foreground that is wider or higher than the canvas is
    not clipped: the overflow assertion ends the sample. *)
Theorem oversized_foreground_ends_the_sample fg rest background_path g
    composite mask g1 fg_image g2 :
  crop_background disk self background_path g = Return (composite, mask, g1) →
  _transform_foreground disk fg (foreground_path fg) g1 = Return (fg_image, g2) →
  (im_width composite < im_width fg_image)%nat ∨
  (im_height composite < im_height fg_image)%nat →
  _compose_images disk self (fg :: rest) background_path g
    = Raise (AssertionError "foreground es demasiado grande para la salida requerida").
Proof.
  intros Hcrop Htransform Hover. unfold _compose_images.
  rewrite (bind_step _ _ _ _ _ Hcrop). cbn [for_each].
  do 2 apply bind_Raise. unfold compose_foreground.
  rewrite (bind_step _ _ _ _ _ Htransform). apply bind_Raise.
  by apply paste_position_for_overflow.
Qed.

End CompositorMore.

Lemma paint_cases x y init layers :
  (paint x y init layers = init ∧
   ∀ i layer, layers !! i = Some layer → pixel 0 layer.2 x y ≠ 1) ∨
  (∃ i layer, layers !! i = Some layer ∧ pixel 0 layer.2 x y = 1 ∧
              paint x y init layers = layer.1).
Proof.
  induction layers as [|layer layers IH] using rev_ind.
  - left. split; [done|]. by intros i layer.
  - rewrite paint_snoc. unfold paint_pixel. case_decide as Hocc.
    + right. exists (length layers), layer. by rewrite list_lookup_middle.
    + destruct IH as [[-> Hfree] | (i & l & Hi & Hp & ->)].
      * left. split; [done|]. intros i l Hi.
        destruct (decide (i = length layers)) as [->|Hne].
        -- rewrite list_lookup_middle in Hi by done. by injection Hi as <-.
        -- apply (Hfree i). apply lookup_lt_Some in Hi as Hlt.
           rewrite length_app in Hlt; simpl in Hlt.
           by rewrite lookup_app_l in Hi by lia.
      * right. exists i, l. split_and!; [|done..]. by apply lookup_app_l_Some.
Qed.

Section MaskBackground.
Context {R : Resampling}.
Variable disk : string → option (Image RGBA).
Variable self : Self.

(** X13. In the mask of a sample a pixel has the background color exactly when
    no slot occupies it: the palette has no black. *)
Theorem mask_is_background_exactly_where_no_slot_occupies
    g0 foregrounds background_path g composite mask log g' x y :
  choose_foregrounds self g0 = Return (foregrounds, g) →
  _compose_images_log disk self foregrounds background_path g
    = Return (composite, mask, log, g') →
  (x < Z.to_nat (width self))%nat → (y < Z.to_nat (height self))%nat →
  (getpixel mask x y = Some black ↔
   ∀ k u, log !! k = Some u → pixel 0 u x y ≠ 1).
Proof.
  intros Hfgs Hlog Hx Hy.
  apply choose_foregrounds_Return in Hfgs as [_ Hpalette].
  apply _compose_images_log_spec in Hlog
    as (Hlen & _ & _ & _ & Hpixels); [|by apply palette_by_slot_bytes].
  rewrite Hpixels by done.
  set (layers := zip (mask_rgb_color <$> foregrounds) log).
  assert (Hlayer : ∀ k u, log !! k = Some u →
            ∃ fg, foregrounds !! k = Some fg ∧ layers !! k = Some (mask_rgb_color fg, u)).
  { intros k u Hu. apply lookup_lt_Some in Hu as Hk. rewrite Hlen in Hk.
    destruct (lookup_lt_is_Some_2 foregrounds k Hk) as [fg Hfg].
    exists fg. split; [done|]. apply lookup_zip_with_Some.
    exists (mask_rgb_color fg), u. by rewrite list_lookup_fmap, Hfg. }
  split.
  - intros [= Hblack] k u Hu Hocc.
    destruct (paint_cases x y black layers)
      as [[_ Hfree] | (i & [c ui] & Hi & _ & Hpaint)].
    + destruct (Hlayer k u Hu) as (fg & _ & Hk). by apply (Hfree k _ Hk).
    + rewrite Hpaint in Hblack. simpl in Hblack. subst c.
      apply lookup_zip_with_Some in Hi as (c & u' & [= <- <-] & Hc & _).
      rewrite list_lookup_fmap in Hc.
      destruct (foregrounds !! i) as [fg|] eqn:Hfg; [|done]. injection Hc as Hc.
      apply (mask_colors_not_black i black); [|done]. rewrite <- Hc. by apply Hpalette.
  - intros Hfree. f_equal. apply paint_unoccupied.
    intros i [c u] Hi. apply lookup_zip_with_Some in Hi as (c' & u' & [= <- <-] & _ & Hu).
    by apply (Hfree i).
Qed.

End MaskBackground.

Lemma pasted_foreground_pixels_witness :
  ∃ composite' mask' u g' fg_image,
    compose_foreground (R := nearest) example_disk (square_in_slot (255, 0, 0))
        (plain_background, Image_new (64%nat, 64%nat) black) (draws [])
      = Return (composite', mask', u, g') ∧
    _transform_foreground (R := nearest) example_disk (square_in_slot (255, 0, 0))
        "in/foregrounds/s/c/square.png" (draws [])
      = Return (fg_image, drawn 3 (draws [])) ∧
    g' = drawn 5 (draws []).
Proof.
  eassert (compose_foreground (R := nearest) example_disk (square_in_slot (255, 0, 0))
             (plain_background, Image_new (64%nat, 64%nat) black) (draws [])
           = Return (_, _, _, _)) as Hrun by (vm_compute; reflexivity).
  destruct (pasted_foreground_pixels (R := nearest) _ _ _ _ _ _ _ _ _ Hrun)
    as (fg_image & px & py & Htransform & Hg & _).
  eexists _, _, _, _, fg_image. split; [exact Hrun|]. split; [exact Htransform | exact Hg].
Defined.

Lemma compositor_needs_a_background_of_the_output_size_witness :
  _compose_images (R := nearest) example_disk example_self [square_in_slot (255, 0, 0)]
      "in/backgrounds/missing.jpg" (draws [])
    = Raise FileNotFoundError ∧
  _compose_images (R := nearest) example_disk
      (mkSelf 1 65 64 ".jpg" "out" [] ["in/backgrounds/plain.jpg"])
      [square_in_slot (255, 0, 0)] "in/backgrounds/plain.jpg" (draws [])
    = Raise (AssertionError "anchura deseada mayor que ancho de fondo").
Proof.
  split.
  - destruct (compositor_needs_a_background_of_the_output_size (R := nearest)
                example_disk example_self [square_in_slot (255, 0, 0)]
                "in/backgrounds/missing.jpg" (draws [])) as (Hmissing & _).
    apply Hmissing. reflexivity.
  - destruct (compositor_needs_a_background_of_the_output_size (R := nearest)
                example_disk (mkSelf 1 65 64 ".jpg" "out" [] ["in/backgrounds/plain.jpg"])
                [square_in_slot (255, 0, 0)]
                "in/backgrounds/plain.jpg" (draws [])) as (_ & Hnarrow & _).
    apply (Hnarrow plain_background); [reflexivity | vm_compute; reflexivity].
Defined.

(** A 130 x 130 cut-out: halved it is still wider than an output of 64. *)
Definition oversized_foreground : Image RGBA :=
  tabulate 130 130 (λ x y,
    if decide (x = 0%nat ∧ y = 0%nat) then transparent else (200, 100, 50, 255)).

Definition oversized_disk (path : string) : option (Image RGBA) :=
  if decide (path = "in/foregrounds/s/c/oversized.png") then Some oversized_foreground
  else if decide (path = "in/backgrounds/plain.jpg") then Some plain_background
  else None.

Lemma oversized_foreground_ends_the_sample_witness :
  _compose_images (R := nearest) oversized_disk example_self
      [mkForeground "s" "c" "in/foregrounds/s/c/oversized.png" (255, 0, 0)]
      "in/backgrounds/plain.jpg" (draws [])
    = Raise (AssertionError "foreground es demasiado grande para la salida requerida").
Proof.
  eapply (oversized_foreground_ends_the_sample (R := nearest) oversized_disk example_self
            (mkForeground "s" "c" "in/foregrounds/s/c/oversized.png" (255, 0, 0)) []);
    [vm_compute; reflexivity | vm_compute; reflexivity | left; vm_compute; lia].
Defined.

Lemma mask_is_background_exactly_where_no_slot_occupies_witness :
  ∃ g composite mask u0 u1 u2 g',
    choose_foregrounds example_self (draws [2])
      = Return ([square_in_slot (255, 0, 0); square_in_slot (0, 255, 0);
                 square_in_slot (0, 0, 255)], g) ∧
    _compose_images_log (R := nearest) example_disk example_self
        [square_in_slot (255, 0, 0); square_in_slot (0, 255, 0);
         square_in_slot (0, 0, 255)] "in/backgrounds/plain.jpg" g
      = Return (composite, mask, [u0; u1; u2], g') ∧
    (getpixel mask 3 3 = Some black ↔
     ∀ k u, [u0; u1; u2] !! k = Some u → pixel 0 u 3 3 ≠ 1).
Proof.
  destruct three_squares_at_the_origin
    as (g & composite & mask & u0 & u1 & u2 & g' & Hfgs & Hlog & _).
  exists g, composite, mask, u0, u1, u2, g'. split; [exact Hfgs|]. split; [exact Hlog|].
  apply (mask_is_background_exactly_where_no_slot_occupies (R := nearest)
           example_disk example_self _ _ _ _ _ _ _ _ 3%nat 3%nat Hfgs Hlog);
    vm_compute; lia.
Defined.

(* ===================================================================== *)
(** * More on the choice of the foregrounds                                *)
(* ===================================================================== *)

Lemma dict_getitem_Return {V} (d : list (string * V)) key g v g' :
  dict_getitem d key g = Return (v, g') → (key, v) ∈ d ∧ g' = g.
Proof.
  unfold dict_getitem. destruct (list_find _ d) as [[i [k v']]|] eqn:Hfind; [|done].
  intros Hret. apply ret_Return in Hret as [<- <-]. split; [|done].
  apply list_find_Some in Hfind as (Hi & Hk & _). simpl in Hk. subst k.
  by eapply list_elem_of_lookup_2.
Qed.

Lemma dict_getitem_key {V} (d : list (string * V)) key g :
  key ∈ d.*1 → ∃ v, dict_getitem d key g = Return (v, g) ∧ (key, v) ∈ d.
Proof.
  intros Hkey. apply list_elem_of_fmap in Hkey as ([k v0] & -> & Hin).
  unfold dict_getitem. cbn [fst].
  destruct (list_find (λ kv : string * V, kv.1 = k) d) as [[i [k' v]]|] eqn:Hfind.
  - exists v. split; [done|].
    apply list_find_Some in Hfind as (Hi & Hk & _). simpl in Hk. subst k'.
    by eapply list_elem_of_lookup_2.
  - apply list_find_None in Hfind. rewrite Forall_forall in Hfind.
    by destruct (Hfind _ Hin).
Qed.

(** The file [f] is in the dict under category [c] of super category [s]. *)
Definition dict_listed (d : list (string * list (string * list string)))
    (s c f : string) : Prop :=
  ∃ categories files, (s, categories) ∈ d ∧ (c, files) ∈ categories ∧ f ∈ files.

(** The keys are different from each other, at both levels. *)
Definition dict_keys_unique (d : list (string * list (string * list string))) : Prop :=
  NoDup d.*1 ∧ ∀ s categories, (s, categories) ∈ d → NoDup categories.*1.

(** Every super category has a category and every category has a file. *)
Definition dict_filled (d : list (string * list (string * list string))) : Prop :=
  ∀ s categories, (s, categories) ∈ d →
    categories ≠ [] ∧ ∀ c files, (c, files) ∈ categories → files ≠ [].

(** The file of the foreground is listed in [foregrounds_dict] under its
    super category and category. *)
Definition listed (self : Self) (fg : Foreground) : Prop :=
  dict_listed (foregrounds_dict self)
              (super_category fg) (category fg) (foreground_path fg).

(** What the choice of a foreground needs of the dict (lines 254-256). *)
Definition dict_ready (d : list (string * list (string * list string))) : Prop :=
  d ≠ [] ∧ dict_filled d.

Section ChoiceFacts.
Variable self : Self.

Lemma choose_foreground_listed fg_i foregrounds g foregrounds' g' :
  choose_foreground self fg_i foregrounds g = Return (foregrounds', g') →
  ∃ fg, foregrounds' = foregrounds ++ [fg] ∧ listed self fg ∧
        mask_colors !! fg_i = Some (mask_rgb_color fg) ∧ g' = drawn 3 g.
Proof.
  intros Hrun. unfold choose_foreground in Hrun.
  apply bind_Return in Hrun as (s & g1 & Hs & Hrun).
  apply choice_Return in Hs as [_ ->].
  apply bind_Return in Hrun as (cats & g2 & Hcats & Hrun).
  apply dict_getitem_Return in Hcats as [Hcats ->].
  apply bind_Return in Hrun as (c & g3 & Hc & Hrun).
  apply choice_Return in Hc as [_ ->].
  apply bind_Return in Hrun as (files & g4 & Hfiles & Hrun).
  apply dict_getitem_Return in Hfiles as [Hfiles ->].
  apply bind_Return in Hrun as (path & g5 & Hpath & Hrun).
  apply choice_Return in Hpath as [Hpath ->].
  apply bind_Return in Hrun as (color & g6 & Hcolor & Hrun).
  unfold list_getitem in Hcolor. destruct (mask_colors !! fg_i) as [color'|]; [|done].
  apply ret_Return in Hcolor as [-> <-]. apply ret_Return in Hrun as [<- <-].
  eexists. split; [done|]. rewrite !drawn_drawn. split_and!; [|done..].
  by exists cats, files.
Qed.

Lemma choose_foreground_ready fg_i foregrounds g :
  dict_ready (foregrounds_dict self) → (fg_i < 3)%nat →
  ∃ fg, choose_foreground self fg_i foregrounds g
          = Return (foregrounds ++ [fg], drawn 3 g).
Proof.
  intros [Hne Hready] Hslot. unfold choose_foreground.
  destruct (choice_nonempty (foregrounds_dict self).*1 g) as (s & Hs & Hsin).
  { by destruct (foregrounds_dict self). }
  rewrite (bind_step _ _ _ _ _ Hs).
  destruct (dict_getitem_key (foregrounds_dict self) s (drawn 1 g) Hsin)
    as (cats & Hcats & Hcatsin).
  rewrite (bind_step _ _ _ _ _ Hcats).
  destruct (Hready s cats Hcatsin) as [Hcne Hfiles].
  destruct (choice_nonempty cats.*1 (drawn 1 g)) as (c & Hc & Hcin).
  { by destruct cats. }
  rewrite (bind_step _ _ _ _ _ Hc).
  destruct (dict_getitem_key cats c (drawn 1 (drawn 1 g)) Hcin) as (files & Hf & Hfin).
  rewrite (bind_step _ _ _ _ _ Hf).
  destruct (choice_nonempty files (drawn 1 (drawn 1 g))) as (path & Hpath & _).
  { by apply (Hfiles c). }
  rewrite (bind_step _ _ _ _ _ Hpath).
  destruct (lookup_lt_is_Some_2 mask_colors fg_i) as [color Hcolor]; [simpl; lia|].
  unfold list_getitem. rewrite Hcolor.
  rewrite (bind_step _ _ _ color (drawn 1 (drawn 1 (drawn 1 g)))) by done.
  rewrite !drawn_drawn. by eexists.
Qed.

Lemma choose_foreground_loop_listed n : ∀ start foregrounds g foregrounds' g',
  for_each (choose_foreground self) (seq start n) foregrounds g
    = Return (foregrounds', g') →
  ∃ new, foregrounds' = foregrounds ++ new ∧ length new = n ∧
         Forall (listed self) new ∧ g' = drawn (3 * n) g.
Proof.
  induction n as [|n IH]; intros start fgs g fgs' g' Hrun; simpl in Hrun.
  - apply ret_Return in Hrun as [<- <-]. exists []. rewrite app_nil_r.
    split_and!; [done..|]. by destruct g.
  - apply bind_Return in Hrun as (fgs1 & g1 & Hstep & Hrun).
    apply choose_foreground_listed in Hstep as (fg & -> & Hlisted & _ & ->).
    apply IH in Hrun as (new & -> & Hlen & Hnew & ->).
    exists (fg :: new). rewrite <- app_assoc, drawn_drawn.
    split_and!; [done | by simpl; rewrite Hlen | by constructor | f_equal; lia].
Qed.

Lemma choose_foreground_loop_ready n : ∀ start foregrounds g,
  dict_ready (foregrounds_dict self) → (start + n ≤ 3)%nat →
  ∃ foregrounds',
    for_each (choose_foreground self) (seq start n) foregrounds g
      = Return (foregrounds', drawn (3 * n) g).
Proof.
  induction n as [|n IH]; intros start fgs g Hready Hn; cbn [seq for_each].
  - exists fgs. by destruct g.
  - destruct (choose_foreground_ready start fgs g Hready) as (fg & Hstep); [lia|].
    rewrite (bind_step _ _ _ _ _ Hstep).
    destruct (IH (S start) (fgs ++ [fg]) (drawn 3 g) Hready) as (fgs' & Hrun); [lia|].
    exists fgs'. rewrite Hrun, drawn_drawn. do 3 f_equal. lia.
Qed.

Lemma choose_foregrounds_listed g foregrounds g' :
  choose_foregrounds self g = Return (foregrounds, g') →
  Z.of_nat (length foregrounds) = 1 + tape g (cursor g) `mod` 3 ∧
  g' = drawn (1 + 3 * length foregrounds) g ∧
  Forall (listed self) foregrounds.
Proof.
  intros Hrun. unfold choose_foregrounds in Hrun.
  rewrite (bind_step _ _ _ _ _ (randint_run 1 max_foregrounds g ltac:(done))) in Hrun.
  apply choose_foreground_loop_listed in Hrun as (new & -> & Hlen & Hlisted & ->).
  simpl app in *. change (max_foregrounds - 1 + 1) with 3 in *.
  pose proof (Z.mod_pos_bound (tape g (cursor g)) 3 ltac:(lia)).
  split_and!.
  - rewrite Hlen. lia.
  - rewrite drawn_drawn, Hlen. f_equal. lia.
  - done.
Qed.

(** X14. The foregrounds of a sample: their number is 1 plus the first draw
    modulo 3, slot [i] has palette color [i], every one of them is a file
    listed under its super category and category, and each slot costs
    three draws. *)
Theorem chosen_foregrounds_are_listed g foregrounds g' :
  choose_foregrounds self g = Return (foregrounds, g') →
  Z.of_nat (length foregrounds) = 1 + tape g (cursor g) `mod` 3 ∧
  g' = drawn (1 + 3 * length foregrounds) g ∧
  ∀ slot fg, foregrounds !! slot = Some fg →
    listed self fg ∧ mask_colors !! slot = Some (mask_rgb_color fg).
Proof.
  intros Hrun. pose proof (choose_foregrounds_Return self _ _ _ Hrun) as [_ Hpalette].
  apply choose_foregrounds_listed in Hrun as (Hlen & Hdrawn & Hlisted).
  split_and!; [done..|].
  intros slot fg Hfg. split; [|by apply Hpalette].
  rewrite Forall_lookup in Hlisted. by apply (Hlisted slot).
Qed.

Lemma choose_foregrounds_ready g :
  dict_ready (foregrounds_dict self) →
  ∃ foregrounds,
    choose_foregrounds self g
      = Return (foregrounds, drawn (1 + 3 * length foregrounds) g).
Proof.
  intros Hready. unfold choose_foregrounds.
  rewrite (bind_step _ _ _ _ _ (randint_run 1 max_foregrounds g ltac:(done))).
  change (max_foregrounds - 1 + 1) with 3.
  pose proof (Z.mod_pos_bound (tape g (cursor g)) 3 ltac:(lia)) as Hb.
  set (n := Z.to_nat (1 + tape g (cursor g) `mod` 3)).
  destruct (choose_foreground_loop_ready n 0 [] (drawn 1 g) Hready)
    as (fgs & Hrun); [lia|].
  exists fgs. rewrite Hrun.
  apply choose_foreground_loop_listed in Hrun as (new & -> & Hlen & _).
  cbn [app]. rewrite Hlen, drawn_drawn. do 3 f_equal. lia.
Qed.

(** X15. When every super category has a category and every category has a
    file, the choice of the foregrounds returns, whatever is drawn; with no
    super category at all it ends with [IndexError]. *)
Theorem choice_of_foregrounds_returns_on_a_ready_dict g :
  (dict_ready (foregrounds_dict self) →
   ∃ foregrounds,
     choose_foregrounds self g
       = Return (foregrounds, drawn (1 + 3 * length foregrounds) g)) ∧
  (foregrounds_dict self = [] → choose_foregrounds self g = Raise IndexError).
Proof.
  split.
  - apply choose_foregrounds_ready.
  - intros Hempty. unfold choose_foregrounds.
    rewrite (bind_step _ _ _ _ _ (randint_run 1 max_foregrounds g ltac:(done))).
    change (max_foregrounds - 1 + 1) with 3.
    pose proof (Z.mod_pos_bound (tape g (cursor g)) 3 ltac:(lia)) as Hb.
    destruct (Z.to_nat (1 + tape g (cursor g) `mod` 3)) as [|n] eqn:Hn; [lia|].
    simpl. apply bind_Raise. unfold choose_foreground. apply bind_Raise.
    by rewrite Hempty.
Qed.

(** ** The color map of a sample *)

Lemma register_foregrounds_size foregrounds mju :
  palette_by_slot foregrounds →
  size (register_foregrounds foregrounds mju).2 = length foregrounds.
Proof.
  induction foregrounds as [|fg fgs IH] using rev_ind; intros Hpalette.
  - simpl. apply map_size_empty.
  - assert (Hprefix : palette_by_slot fgs).
    { intros slot fg' Hslot. apply Hpalette. by apply lookup_app_l_Some. }
    rewrite register_foregrounds_snoc, length_app; simpl.
    rewrite map_size_insert_None; [rewrite IH by done; lia|].
    destruct (_ !! _) as [item|] eqn:Hlookup; [|done].
    apply register_foregrounds_lookup in Hlookup as (slot & fg' & Hslot & Hkey & _).
    apply lookup_lt_Some in Hslot as Hlt.
    pose proof (mask_colors_keys_distinct _ _ _ _
                  (Hpalette (length fgs) fg ltac:(by rewrite list_lookup_middle))
                  (Hprefix _ _ Hslot) Hkey). lia.
Qed.

End ChoiceFacts.

(** X16. The color map of a sample has one key for each slot, so between one
    and three keys, and a string is a key exactly when it is [str] of the
    palette color of one of the slots. *)
Theorem color_map_has_one_key_per_slot {R : Resampling} disk self i st g st' sample g' :
  generate_sample disk self i st g = Return (st', sample, g') →
  size (sample_color_categories sample) = length (sample_foregrounds sample) ∧
  (1 ≤ size (sample_color_categories sample) ≤ 3)%nat ∧
  ∀ key, is_Some (sample_color_categories sample !! key) ↔
         ∃ slot color, (slot < length (sample_foregrounds sample))%nat ∧
                       mask_colors !! slot = Some color ∧ key = str_RGB color.
Proof.
  destruct st as [mju saved], st' as [mju' saved']. intros Hrun.
  apply generate_sample_Return in Hrun
    as (bg & g1 & g2 & composite & _ & Hfgs & _ & _ & -> & _).
  apply choose_foregrounds_Return in Hfgs as [Hlen Hpalette].
  rewrite register_foregrounds_size by done. split; [done|]. split; [done|].
  intros key. split.
  - intros [item Hitem].
    apply register_foregrounds_lookup in Hitem as (slot & fg & Hslot & -> & _).
    exists slot, (mask_rgb_color fg). split_and!; [|by apply Hpalette|done].
    by eapply lookup_lt_Some.
  - intros (slot & color & Hslot & Hcolor & ->).
    destruct (lookup_lt_is_Some_2 _ _ Hslot) as [fg Hfg].
    pose proof (Hpalette _ _ Hfg) as Hc. rewrite Hcolor in Hc. injection Hc as ->.
    eexists. by apply (register_foregrounds_slot _ _ slot).
Qed.

(* ===================================================================== *)
(** * The names of the files of a sample                                   *)
(* ===================================================================== *)

Lemma string_length_app (s t : string) :
  String.length (s +:+ t) = (String.length s + String.length t)%nat.
Proof. induction s as [|c s IH]; simpl; [done | by rewrite IH]. Qed.

Lemma string_app_cancel_l (s t1 t2 : string) : s +:+ t1 = s +:+ t2 → t1 = t2.
Proof. induction s as [|c s IH]; simpl; [done | intros [= H]; by apply IH]. Qed.

Lemma string_app_cancel_r (t s1 s2 : string) : s1 +:+ t = s2 +:+ t → s1 = s2.
Proof.
  revert s2. induction s1 as [|c s1 IH]; intros [|c2 s2] Heq.
  - done.
  - apply (f_equal String.length) in Heq.
    rewrite !string_length_app in Heq. simpl in Heq. lia.
  - apply (f_equal String.length) in Heq.
    rewrite !string_length_app in Heq. simpl in Heq. lia.
  - simpl in Heq. injection Heq as -> Heq. f_equal. by apply IH.
Qed.

Lemma zeros_length n : String.length (zeros n) = n.
Proof.
  induction n as [|n IH]; [done|]. cbn [zeros]. by rewrite string_length_app, IH.
Qed.

(** The decimal digits of a positive number start with a digit that is not
    0, and a number below [10^k] has at most [k] digits. *)
Lemma pretty_N_go_head x : ∀ s,
  (0 < x)%N → ∃ c t, pretty_N_go x s = String c t ∧ c ≠ "0"%char.
Proof.
  induction (N.lt_wf_0 x) as [x _ IH]; intros s Hx.
  rewrite pretty_N_go_step by done.
  destruct (decide (x < 10)%N) as [Hsmall|Hlarge].
  - rewrite N.div_small, pretty_N_go_0, N.mod_small by done.
    eexists _, _. split; [done|].
    assert (x = 1 ∨ x = 2 ∨ x = 3 ∨ x = 4 ∨ x = 5 ∨ x = 6 ∨ x = 7 ∨ x = 8 ∨ x = 9)%N
      as Hdigit by lia.
    by repeat destruct Hdigit as [->|Hdigit]; [..|subst x].
  - apply IH.
    + apply N.div_lt; lia.
    + apply N.div_str_pos. lia.
Qed.

Lemma pretty_N_go_length k : ∀ x s,
  (x < 10 ^ N.of_nat k)%N →
  (String.length (pretty_N_go x s) ≤ String.length s + k)%nat.
Proof.
  induction k as [|k IH]; intros x s Hx.
  - assert (x = 0%N) as -> by (simpl in Hx; lia). rewrite pretty_N_go_0. lia.
  - destruct (decide (x = 0%N)) as [->|Hpos]; [rewrite pretty_N_go_0; lia|].
    rewrite pretty_N_go_step by lia.
    etrans; [apply IH|simpl; lia].
    apply N.Div0.div_lt_upper_bound.
    by rewrite Nat2N.inj_succ, N.pow_succ_r' in Hx.
Qed.

Lemma pretty_nat_head (n : nat) :
  ∃ c t, pretty n = String c t ∧ (c = "0"%char → n = 0%nat).
Proof.
  unfold pretty, pretty_nat, pretty, pretty_N.
  case_decide as Hzero.
  - exists "0"%char, "". split; [done|]. lia.
  - destruct (pretty_N_go_head (N.of_nat n) "") as (c & t & -> & Hc); [lia|].
    by exists c, t.
Qed.

Lemma pretty_nat_length (n k : nat) :
  (0 < k)%nat → (n < 10 ^ k)%nat → (String.length (pretty n) ≤ k)%nat.
Proof.
  intros Hk Hn. unfold pretty, pretty_nat, pretty, pretty_N.
  case_decide as Hzero; [simpl; lia|].
  apply (pretty_N_go_length k (N.of_nat n) "").
  replace 10%N with (N.of_nat 10) by done. rewrite <- Nat2N.inj_pow. lia.
Qed.

Lemma zero_padded_length padding i :
  String.length (zero_padded padding i) = Nat.max padding (String.length (pretty i)).
Proof. unfold zero_padded. rewrite string_length_app, zeros_length. lia. Qed.

Lemma zeros_app_inj a b (s t : string) :
  (∀ c r, s = String c r → c = "0"%char → r = "") → s ≠ "" →
  (∀ c r, t = String c r → c = "0"%char → r = "") → t ≠ "" →
  zeros a +:+ s = zeros b +:+ t → s = t.
Proof.
  revert b. induction a as [|a IH]; intros b Hs Hsne Ht Htne Heq.
  - destruct b as [|b]; [done|]. simpl in Heq. destruct s as [|c r]; [done|].
    injection Heq as -> Heq. rewrite (Hs _ _ eq_refl eq_refl) in Heq.
    destruct b; simpl in Heq; [by destruct t | done].
  - destruct b as [|b]; simpl in Heq.
    + destruct t as [|c r]; [done|].
      injection Heq as <- Heq. rewrite (Ht _ _ eq_refl eq_refl) in Heq.
      destruct a; simpl in Heq; [by destruct s | done].
    + injection Heq as Heq. by apply (IH b).
Qed.

Lemma pretty_nat_zero_alone (n : nat) c r :
  pretty n = String c r → c = "0"%char → r = "".
Proof.
  intros Hn ->. destruct (pretty_nat_head n) as (c & t & Hhead & Hzero).
  rewrite Hhead in Hn. injection Hn as -> ->.
  by rewrite (Hzero eq_refl) in Hhead; injection Hhead as <-.
Qed.

Lemma pretty_nat_nonempty (n : nat) : pretty n ≠ "".
Proof. destruct (pretty_nat_head n) as (c & t & -> & _). done. Qed.

Lemma zero_padded_inj padding i j :
  zero_padded padding i = zero_padded padding j → i = j.
Proof.
  unfold zero_padded. intros Heq. apply (inj pretty).
  apply zeros_app_inj in Heq;
    [done | apply pretty_nat_zero_alone | apply pretty_nat_nonempty
          | apply pretty_nat_zero_alone | apply pretty_nat_nonempty].
Qed.

(** X17. The name of the files of sample [i] ([f'{i:0{self.zero_padding}}']):
    different samples have different names, so no sample overwrites the
    files of another; a name has at least eight characters, and exactly
    eight up to sample 99999999. *)
Theorem sample_names_are_distinct :
  (∀ i j, zero_padded zero_padding i = zero_padded zero_padding j → i = j) ∧
  (∀ i, (8 ≤ String.length (zero_padded zero_padding i))%nat) ∧
  (∀ i, (i < 10 ^ 8)%nat → String.length (zero_padded zero_padding i) = 8%nat).
Proof.
  split_and!.
  - apply zero_padded_inj.
  - intros i. rewrite zero_padded_length. unfold zero_padding. lia.
  - intros i Hi. rewrite zero_padded_length.
    pose proof (pretty_nat_length i 8 ltac:(lia) Hi). unfold zero_padding. lia.
Qed.

(* ===================================================================== *)
(** * The registry and the files of a whole run                            *)
(* ===================================================================== *)

(** Every category that a mask definition names is under its super
    category in the taxonomy. *)
Definition masks_covered (self : MaskJsonUtils.t) : Prop :=
  ∀ path definition color item,
    MaskJsonUtils.masks self !! path = Some definition →
    color_categories definition !! color = Some item →
    item_category item ∈ categories_of self (item_super_category item).

Lemma init_covered output_dir : masks_covered (MaskJsonUtils.__init__ output_dir).
Proof.
  intros path definition color item Hget.
  unfold MaskJsonUtils.__init__ in Hget; simpl in Hget. by rewrite lookup_empty in Hget.
Qed.

Lemma add_category_covered category super_category self :
  masks_covered self →
  masks_covered (MaskJsonUtils.add_category category super_category self).2.
Proof.
  intros Hcovered path definition color item Hget Hitem.
  destruct (add_category_spec category super_category self) as (_ & Hmasks & Htax & _).
  cbn zeta in Hmasks, Htax. rewrite Hmasks in Hget. apply Htax. left.
  by eapply Hcovered.
Qed.

Lemma add_mask_covered image_path mask_path (cc : gmap string CategoryItem) self :
  masks_covered self →
  masks_covered (MaskJsonUtils.add_mask image_path mask_path cc self).2.
Proof.
  intros Hcovered. destruct (MaskJsonUtils.masks self !! image_path) eqn:Hfresh.
  - unfold MaskJsonUtils.add_mask. by rewrite Hfresh.
  - destruct (add_mask_fresh self image_path mask_path cc Hfresh)
      as (_ & Hmasks & _ & Htax). cbn zeta in Hmasks, Htax.
    intros path definition color item Hget Hitem. rewrite Hmasks in Hget.
    apply Htax. destruct (decide (path = image_path)) as [->|Hne].
    + rewrite lookup_insert_eq in Hget. injection Hget as <-. simpl in Hitem.
      right. exists color. by destruct item.
    + rewrite lookup_insert_ne in Hget by done. left. by eapply Hcovered.
Qed.

(** X18. The exported object is closed: the registry starts covered, each of
    its two mutators keeps it covered, and then every category that the
    exported masks name under a color is in the exported list of its super
    category. *)
Theorem exported_taxonomy_covers_the_masks :
  (∀ output_dir, masks_covered (MaskJsonUtils.__init__ output_dir)) ∧
  (∀ category super_category self,
     masks_covered self →
     masks_covered (MaskJsonUtils.add_category category super_category self).2) ∧
  (∀ image_path mask_path (cc : gmap string CategoryItem) self,
     masks_covered self →
     masks_covered (MaskJsonUtils.add_mask image_path mask_path cc self).2) ∧
  (∀ self, masks_covered self →
     ∀ path definition color item,
       (MaskJsonUtils.write_masks_to_json self).1 !! path = Some definition →
       color_categories definition !! color = Some item →
       ∃ categories,
         (MaskJsonUtils.write_masks_to_json self).2 !! item_super_category item
           = Some categories ∧
         item_category item ∈ categories).
Proof.
  split_and!.
  - apply init_covered.
  - apply add_category_covered.
  - apply add_mask_covered.
  - intros self Hcovered path definition color item Hget Hitem.
    specialize (Hcovered path definition color item Hget Hitem).
    unfold MaskJsonUtils.write_masks_to_json, MaskJsonUtils.get_super_categories; simpl.
    rewrite lookup_fmap. unfold categories_of in Hcovered.
    destruct (MaskJsonUtils.super_categories self !! item_super_category item)
      as [set|]; simpl in *; [|set_solver].
    eexists. split; [done|]. by apply elem_of_elements.
Qed.

Section Dataset.
Context {R : Resampling}.
Variable disk : string → option (Image RGBA).
Variable self : Self.

(** The paths of the two files of sample [i], relative to the output
    directory (lines 271-281). *)
Definition image_name (i : nat) : string :=
  "images/" +:+ zero_padded zero_padding i +:+ output_type self.

Definition mask_name (i : nat) : string :=
  "masks/" +:+ zero_padded zero_padding i +:+ ".png".

Definition saved_names (i : nat) : list string :=
  [output_dir self +:+ "/" +:+ image_name i; output_dir self +:+ "/" +:+ mask_name i].

Lemma image_name_inj i j : image_name i = image_name j → i = j.
Proof.
  unfold image_name. intros Heq. apply string_app_cancel_l in Heq.
  apply string_app_cancel_r in Heq. by apply zero_padded_inj in Heq.
Qed.

Lemma mask_name_inj i j : mask_name i = mask_name j → i = j.
Proof.
  unfold mask_name. intros Heq. apply string_app_cancel_l in Heq.
  apply string_app_cancel_r in Heq. by apply zero_padded_inj in Heq.
Qed.

Lemma image_name_mask_name i j : image_name i ≠ mask_name j.
Proof. done. Qed.

Lemma saved_names_NoDup n : NoDup (seq 0 n ≫= saved_names).
Proof.
  apply NoDup_bind; [| |apply NoDup_seq].
  - intros i j name _ _ Hi Hj. unfold saved_names in Hi, Hj.
    rewrite !elem_of_cons, elem_of_nil in Hi, Hj.
    destruct Hi as [->|[->|[]]], Hj as [Hj|[Hj|[]]];
      do 2 apply string_app_cancel_l in Hj.
    + by apply image_name_inj.
    + by destruct (image_name_mask_name i j).
    + by destruct (image_name_mask_name j i).
    + by apply mask_name_inj.
  - intros i _. unfold saved_names. apply NoDup_cons. split; [|apply NoDup_singleton].
    rewrite list_elem_of_singleton. intros Heq.
    do 2 apply string_app_cancel_l in Heq. by destruct (image_name_mask_name i i).
Qed.

Lemma register_foregrounds_registry foregrounds mju :
  MaskJsonUtils.masks (register_foregrounds foregrounds mju).1 = MaskJsonUtils.masks mju ∧
  (masks_covered mju → masks_covered (register_foregrounds foregrounds mju).1).
Proof.
  induction foregrounds as [|fg fgs [IHmasks IHcovered]] using rev_ind; [done|].
  rewrite register_foregrounds_snoc. cbn zeta. cbn [fst].
  destruct (add_category_spec (category fg) (super_category fg)
              (register_foregrounds fgs mju).1) as (_ & Hmasks & _).
  cbn zeta in Hmasks. rewrite Hmasks. split; [done|].
  intros Hcovered. by apply add_category_covered, IHcovered.
Qed.

(** What one sample adds to the files and to the registry. *)
Lemma generate_sample_step i mju saved g mju' saved' sample g' :
  generate_sample disk self i (mju, saved) g = Return (mju', saved', sample, g') →
  saved' = saved ++
    [(output_dir self +:+ "/" +:+ image_name i, sample_composite sample);
     (output_dir self +:+ "/" +:+ mask_name i, sample_mask sample)] ∧
  im_size (sample_composite sample) = (Z.to_nat (width self), Z.to_nat (height self)) ∧
  im_size (sample_mask sample) = (Z.to_nat (width self), Z.to_nat (height self)) ∧
  (masks_covered mju → masks_covered mju') ∧
  (MaskJsonUtils.masks mju !! image_name i = None →
   MaskJsonUtils.masks mju'
     = <[image_name i := mkMaskDefinition (mask_name i) (sample_color_categories sample)]>
         (MaskJsonUtils.masks mju)).
Proof.
  intros Hrun.
  assert (Hsaved : saved' = saved ++
    [(output_dir self +:+ "/" +:+ image_name i, sample_composite sample);
     (output_dir self +:+ "/" +:+ mask_name i, sample_mask sample)]).
  { unfold generate_sample in Hrun.
    apply bind_Return in Hrun as (background_path & g1 & _ & Hrun).
    apply bind_Return in Hrun as (foregrounds & g2 & _ & Hrun).
    apply bind_Return in Hrun as ([composite mask] & g3 & _ & Hrun).
    destruct (register_foregrounds foregrounds mju) as [mju1 cc].
    apply ret_Return in Hrun as [[= <- <- <-] <-]. simpl.
    by rewrite <- app_assoc. }
  apply generate_sample_Return in Hrun
    as (bg & g1 & g2 & composite & _ & _ & Hcompose & Hcomposite & Hcc & Himage & Hmask & ->).
  apply _compose_images_sizes in Hcompose as [Hsize Hmasksize].
  destruct (register_foregrounds_registry (sample_foregrounds sample) mju)
    as [Hmasks Hcovered].
  split_and!.
  - done.
  - rewrite Hcomposite. exact Hsize.
  - exact Hmasksize.
  - intros Hc. by apply add_mask_covered, Hcovered.
  - intros Hfresh. rewrite Himage, Hmask.
    fold (image_name i). fold (mask_name i).
    destruct (add_mask_fresh (register_foregrounds (sample_foregrounds sample) mju).1
                (image_name i) (mask_name i) (sample_color_categories sample))
      as (_ & Hinsert & _).
    { by rewrite Hmasks. }
    cbn zeta in Hinsert. by rewrite Hinsert, Hmasks.
Qed.

Lemma generate_images_loop n : ∀ start mju saved g mju' saved' g',
  for_each (λ i st, r ← generate_sample disk self i st; mret r.1)
           (seq start n) (mju, saved) g = Return (mju', saved', g') →
  (∀ i, (start ≤ i)%nat → MaskJsonUtils.masks mju !! image_name i = None) →
  saved'.*1 = saved.*1 ++ (seq start n ≫= saved_names) ∧
  (∀ file, file ∈ saved' →
     file ∈ saved ∨
     im_size file.2 = (Z.to_nat (width self), Z.to_nat (height self))) ∧
  size (MaskJsonUtils.masks mju') = (size (MaskJsonUtils.masks mju) + n)%nat ∧
  (∀ i, (start ≤ i < start + n)%nat →
     ∃ cc, MaskJsonUtils.masks mju' !! image_name i
             = Some (mkMaskDefinition (mask_name i) cc)) ∧
  (∀ path definition, MaskJsonUtils.masks mju !! path = Some definition →
     MaskJsonUtils.masks mju' !! path = Some definition) ∧
  (masks_covered mju → masks_covered mju').
Proof.
  induction n as [|n IH]; intros start mju saved g mju' saved' g' Hrun Hfresh.
  - apply ret_Return in Hrun as [[= <- <-] _].
    split_and!; [by rewrite app_nil_r | by left | lia | lia | done | done].
  - cbn [seq for_each] in Hrun.
    apply bind_Return in Hrun as ([mju1 saved1] & g1 & Hstep & Hrun).
    apply bind_Return in Hstep as ([[mju1' saved1'] sample] & g1' & Hstep & Hret).
    apply ret_Return in Hret as [[= -> ->] ->].
    apply generate_sample_step in Hstep as (-> & Hsize & Hmasksize & Hcov1 & Hmasks1).
    specialize (Hmasks1 (Hfresh start ltac:(lia))).
    assert (Hfresh1 : ∀ i, (S start ≤ i)%nat →
                           MaskJsonUtils.masks mju1 !! image_name i = None).
    { intros i Hi. rewrite Hmasks1, lookup_insert_ne; [apply Hfresh; lia|].
      intros Heq. apply image_name_inj in Heq. lia. }
    apply IH in Hrun as (Hnames & Hsizes & Hcount & Hentries & Hkept & Hcov); [|done].
    split_and!.
    + rewrite Hnames, fmap_app. cbn [seq]. rewrite bind_cons, <- app_assoc. done.
    + intros file Hfile. destruct (Hsizes file Hfile) as [Hold|Hnew]; [|by right].
      rewrite elem_of_app, !elem_of_cons, elem_of_nil in Hold.
      destruct Hold as [Hold|[->|[->|[]]]]; [by left| by right..].
    + rewrite Hcount, Hmasks1, map_size_insert_None by (apply Hfresh; lia). lia.
    + intros i Hi. destruct (decide (i = start)) as [->|Hne].
      * eexists. apply Hkept. by rewrite Hmasks1, lookup_insert_eq.
      * apply Hentries. lia.
    + intros path definition Hget. apply Hkept. rewrite Hmasks1.
      rewrite lookup_insert_ne; [done|]. intros <-.
      rewrite Hfresh in Hget by lia. done.
    + intros Hc. by apply Hcov, Hcov1.
Qed.

(** X19. A whole run that returns has saved two files for each of the [count]
    samples, image then mask, in the order of the samples, under names
    that are all different, each file of the output size; the exported
    object has one mask entry for each sample, from the path of its image
    to the path of its mask, and every category that an entry names is in
    the exported list of its super category. *)
Theorem run_saves_two_files_and_one_entry_per_sample g masks supers saved g' :
  _generate_images disk self g = Return (masks, supers, saved, g') →
  let n := Z.to_nat (count self) in
  saved.*1 = seq 0 n ≫= saved_names ∧
  NoDup saved.*1 ∧
  (∀ file, file ∈ saved →
     im_size file.2 = (Z.to_nat (width self), Z.to_nat (height self))) ∧
  size masks = n ∧
  (∀ i, (i < n)%nat →
     ∃ cc, masks !! image_name i = Some (mkMaskDefinition (mask_name i) cc)) ∧
  (∀ path definition color item,
     masks !! path = Some definition →
     color_categories definition !! color = Some item →
     ∃ categories, supers !! item_super_category item = Some categories ∧
                   item_category item ∈ categories).
Proof.
  intros Hrun n. unfold _generate_images in Hrun.
  apply bind_Return in Hrun as ([mju saved0] & g1 & Hloop & Hret).
  apply ret_Return in Hret as [[= <- <- <-] _].
  apply generate_images_loop in Hloop
    as (Hnames & Hsizes & Hcount & Hentries & _ & Hcov); [|done].
  fold n in Hnames, Hcount, Hentries. simpl in *.
  specialize (Hcov (init_covered _)).
  split_and!.
  - exact Hnames.
  - rewrite Hnames. apply saved_names_NoDup.
  - intros file Hfile. destruct (Hsizes file Hfile) as [Hold|Hnew]; [|done].
    by apply elem_of_nil in Hold.
  - unfold MaskJsonUtils.get_masks. by rewrite Hcount, map_size_empty.
  - intros i Hi. apply Hentries. lia.
  - intros path definition color item Hget Hitem.
    specialize (Hcov path definition color item Hget Hitem).
    unfold MaskJsonUtils.get_super_categories. rewrite lookup_fmap.
    unfold categories_of in Hcov.
    destruct (MaskJsonUtils.super_categories mju !! item_super_category item)
      as [set|]; simpl in *; [|set_solver].
    eexists. split; [done|]. by apply elem_of_elements.
Qed.

End Dataset.

(* ===================================================================== *)
(** * The walk of the input directory                                      *)
(* ===================================================================== *)

Lemma dict_alter_keys {V} (f : V → V) key d : (dict_alter f key d).*1 = d.*1.
Proof.
  induction d as [|[k v] d IH]; [done|]. cbn [dict_alter].
  case_decide; rewrite !fmap_cons; [done|]. by rewrite IH.
Qed.

Lemma dict_alter_elem {V} (f : V → V) key d k v :
  NoDup d.*1 →
  (k, v) ∈ dict_alter f key d ↔
  (k ≠ key ∧ (k, v) ∈ d) ∨ (k = key ∧ ∃ v1, (key, v1) ∈ d ∧ v = f v1).
Proof.
  induction d as [|[k0 v0] d IH]; cbn [dict_alter]; rewrite ?fmap_cons; intros Hnodup.
  - split; [intros H; by apply elem_of_nil in H|].
    intros [[_ H]|(_ & v1 & H & _)]; by apply elem_of_nil in H.
  - apply NoDup_cons in Hnodup as [Hk0 Hnodup].
    assert (Hkey : ∀ v', (k0, v') ∉ d).
    { intros v' Hin. apply Hk0. apply list_elem_of_fmap. by exists (k0, v'). }
    case_decide as Heq.
    + subst k0. setoid_rewrite elem_of_cons. naive_solver.
    + setoid_rewrite elem_of_cons. rewrite (IH Hnodup). naive_solver.
Qed.

Lemma dict_setdefault_keys {V} key (v : V) d :
  NoDup d.*1 → NoDup (dict_setdefault key v d).*1 ∧ key ∈ (dict_setdefault key v d).*1.
Proof.
  intros Hnodup. unfold dict_setdefault. case_bool_decide as Hin; [done|].
  rewrite fmap_app. simpl. split.
  - apply NoDup_app. split_and!; [done| |apply NoDup_singleton].
    intros k Hk ->%list_elem_of_singleton. done.
  - apply elem_of_app. right. by apply list_elem_of_singleton.
Qed.

Lemma dict_setdefault_elem {V} key (v0 : V) d k v :
  (k, v) ∈ dict_setdefault key v0 d ↔
  (k, v) ∈ d ∨ ((key ∉ d.*1) ∧ k = key ∧ v = v0).
Proof.
  unfold dict_setdefault. case_bool_decide as Hin.
  - split; [by left|]. by intros [?|[? _]].
  - rewrite elem_of_app, list_elem_of_singleton. split.
    + intros [?|[= -> ->]]; [by left | by right].
    + intros [?|(_ & -> & ->)]; [by left | by right].
Qed.

Lemma dict_alter_alter {V} (f1 f2 : V → V) key d :
  dict_alter f2 key (dict_alter f1 key d) = dict_alter (λ v, f2 (f1 v)) key d.
Proof.
  induction d as [|[k v] d IH]; [done|]. cbn [dict_alter].
  case_decide as Hk; cbn [dict_alter].
  - by rewrite decide_True.
  - by rewrite decide_False, IH.
Qed.

(** [setdefault] followed by an update in place. *)
Definition dict_upsert {V} (key : string) (v0 : V) (f : V → V) (d : list (string * V))
    : list (string * V) :=
  dict_alter f key (dict_setdefault key v0 d).

Lemma dict_upsert_nil {V} key (v0 : V) f : dict_upsert key v0 f [] = [(key, f v0)].
Proof.
  unfold dict_upsert, dict_setdefault. rewrite bool_decide_eq_false_2 by apply not_elem_of_nil.
  cbn [app dict_alter]. by rewrite decide_True.
Qed.

Lemma dict_upsert_keys {V} key (v0 : V) f d :
  NoDup d.*1 → NoDup (dict_upsert key v0 f d).*1.
Proof.
  intros Hnodup. unfold dict_upsert. rewrite dict_alter_keys.
  by apply dict_setdefault_keys.
Qed.

Lemma dict_upsert_elem {V} key (v0 : V) f d k v :
  NoDup d.*1 →
  (k, v) ∈ dict_upsert key v0 f d ↔
  (k ≠ key ∧ (k, v) ∈ d) ∨
  (k = key ∧ ((∃ v1, (key, v1) ∈ d ∧ v = f v1) ∨ ((key ∉ d.*1) ∧ v = f v0))).
Proof.
  intros Hnodup. unfold dict_upsert.
  rewrite dict_alter_elem by (by apply dict_setdefault_keys).
  setoid_rewrite dict_setdefault_elem. split.
  - intros [[Hne [Hin|(_ & -> & _)]]|(-> & v1 & [Hin|(Hfresh & _ & ->)] & ->)].
    + left. done.
    + done.
    + right. split; [done|]. left. by exists v1.
    + right. split; [done|]. by right.
  - intros [[Hne Hin]|(-> & [(v1 & Hin & ->)|(Hfresh & ->)])].
    + left. split; [done|]. by left.
    + right. split; [done|]. exists v1. split; [by left|done].
    + right. split; [done|]. exists v0. split; [by right|done].
Qed.

Section InputDirectoryFacts.
Variable suffix : string → string.

(** ** What the scan of the foregrounds finds *)

Lemma add_foreground_upsert s c f d :
  add_foreground s c f d = dict_upsert s [] (dict_upsert c [] (λ files : list string, files ++ [f])) d.
Proof. unfold add_foreground, dict_upsert. by rewrite dict_alter_alter. Qed.

Lemma upsert_file_elem c f categories c' files' :
  NoDup categories.*1 →
  (c', files') ∈ dict_upsert c [] (λ files : list string, files ++ [f]) categories ↔
  (c' ≠ c ∧ (c', files') ∈ categories) ∨
  (c' = c ∧ ((∃ files, (c, files) ∈ categories ∧ files' = files ++ [f]) ∨
             ((c ∉ categories.*1) ∧ files' = [f]))).
Proof. intros Hnodup. by rewrite dict_upsert_elem. Qed.

Lemma add_foreground_elem s c f d s' categories' :
  NoDup d.*1 →
  (s', categories') ∈ add_foreground s c f d ↔
  (s' ≠ s ∧ (s', categories') ∈ d) ∨
  (s' = s ∧
   ((∃ categories, (s, categories) ∈ d ∧
       categories' = dict_upsert c [] (λ files : list string, files ++ [f]) categories) ∨
    ((s ∉ d.*1) ∧ categories' = [(c, [f])]))).
Proof.
  intros Hnodup. rewrite add_foreground_upsert, dict_upsert_elem by done.
  by rewrite dict_upsert_nil.
Qed.

Lemma add_foreground_keys_unique s c f d :
  dict_keys_unique d → dict_keys_unique (add_foreground s c f d).
Proof.
  intros [Hnodup Hnested]. split.
  - rewrite add_foreground_upsert. by apply dict_upsert_keys.
  - intros s' categories' Hin.
    apply (add_foreground_elem _ _ _ _ _ _ Hnodup) in Hin
      as [[_ Hin]|(-> & [(categories & Hin & ->)|(_ & ->)])].
    + by eapply Hnested.
    + by eapply dict_upsert_keys, Hnested.
    + apply NoDup_singleton.
Qed.

Lemma add_foreground_filled s c f d :
  dict_keys_unique d → dict_filled d → dict_filled (add_foreground s c f d).
Proof.
  intros [Hnodup Hnested] Hfilled s' categories' Hin.
  apply (add_foreground_elem _ _ _ _ _ _ Hnodup) in Hin
    as [[_ Hin]|(-> & [(categories & Hin & ->)|(_ & ->)])].
  - by eapply Hfilled.
  - destruct (Hfilled _ _ Hin) as [Hne Hfiles]. split.
    + destruct categories as [|[c0 files0] rest]; [done|].
      unfold dict_upsert, dict_setdefault. case_bool_decide; simpl; by case_decide.
    + intros c' files' Hc.
      apply (upsert_file_elem _ _ _ _ _ (Hnested _ _ Hin)) in Hc
        as [[_ Hc]|(-> & [(files & Hc & ->)|(_ & ->)])].
      * by eapply Hfiles.
      * by destruct files.
      * done.
  - split; [done|]. intros c' files' [= -> ->]%list_elem_of_singleton. done.
Qed.

Lemma add_foreground_listed s c f d s' c' f' :
  dict_keys_unique d →
  dict_listed (add_foreground s c f d) s' c' f' ↔
  dict_listed d s' c' f' ∨ (s' = s ∧ c' = c ∧ f' = f).
Proof.
  intros [Hnodup Hnested]. unfold dict_listed. split.
  - intros (categories' & files' & Hs & Hc & Hf).
    apply (add_foreground_elem _ _ _ _ _ _ Hnodup) in Hs
      as [[_ Hs]|(-> & [(categories & Hs & ->)|(_ & ->)])].
    + left. by exists categories', files'.
    + apply (upsert_file_elem _ _ _ _ _ (Hnested _ _ Hs)) in Hc
        as [[_ Hc]|(-> & [(files & Hc & ->)|(_ & ->)])].
      * left. by exists categories, files'.
      * apply elem_of_app in Hf as [Hf|Hf%list_elem_of_singleton].
        -- left. by exists categories, files.
        -- by right.
      * apply list_elem_of_singleton in Hf. by right.
    + apply list_elem_of_singleton in Hc as [= -> ->].
      apply list_elem_of_singleton in Hf. by right.
  - intros Hlisted.
    assert (Hnew : ∀ categories, NoDup categories.*1 →
              ∃ files, (c, files) ∈ dict_upsert c [] (λ files : list string, files ++ [f]) categories ∧
                       f ∈ files).
    { intros categories Hcats. destruct (decide (c ∈ categories.*1)) as [Hin|Hfresh].
      - apply list_elem_of_fmap in Hin as ([c0 files] & -> & Hin).
        exists (files ++ [f]). split; [|set_solver].
        apply upsert_file_elem; [done|]. right. split; [done|]. left. by exists files.
      - exists [f]. split; [|set_solver].
        apply upsert_file_elem; [done|]. right. split; [done|]. by right. }
    destruct Hlisted as [(categories & files & Hs & Hc & Hf)|(-> & -> & ->)].
    + destruct (decide (s' = s)) as [->|Hne].
      * exists (dict_upsert c [] (λ files : list string, files ++ [f]) categories).
        destruct (decide (c' = c)) as [->|Hnec].
        -- exists (files ++ [f]). split_and!; [| |set_solver].
           ++ apply add_foreground_elem; [done|]. right. split; [done|]. left.
              by exists categories.
           ++ apply upsert_file_elem; [by eapply Hnested|]. right. split; [done|].
              left. by exists files.
        -- exists files. split_and!; [| |done].
           ++ apply add_foreground_elem; [done|]. right. split; [done|]. left.
              by exists categories.
           ++ apply upsert_file_elem; [by eapply Hnested|]. by left.
      * exists categories, files. split_and!; [|done..].
        apply add_foreground_elem; [done|]. by left.
    + destruct (decide (s ∈ d.*1)) as [Hin|Hfresh].
      * apply list_elem_of_fmap in Hin as ([s0 categories] & -> & Hin).
        destruct (Hnew categories) as (files & Hc & Hf); [by eapply Hnested|].
        exists (dict_upsert c [] (λ files : list string, files ++ [f]) categories), files.
        split_and!; [|done..].
        apply add_foreground_elem; [done|]. right. split; [done|]. left.
        by exists categories.
      * exists [(c, [f])], [f]. split_and!; [|set_solver..].
        apply add_foreground_elem; [done|]. right. split; [done|]. by right.
Qed.

(** A loop whose steps keep the keys unique and the dict filled, and add
    to the listed files what [adds] tells, does so over all its items. *)
Lemma scan_loop {X} (step : list (string * list (string * list string)) → X →
                            list (string * list (string * list string)))
    (adds : X → string → string → string → Prop) :
  (∀ d x, dict_keys_unique d →
     dict_keys_unique (step d x) ∧ (dict_filled d → dict_filled (step d x)) ∧
     ∀ s c f, dict_listed (step d x) s c f ↔ dict_listed d s c f ∨ adds x s c f) →
  ∀ xs d, dict_keys_unique d →
    dict_keys_unique (foldl step d xs) ∧
    (dict_filled d → dict_filled (foldl step d xs)) ∧
    ∀ s c f, dict_listed (foldl step d xs) s c f ↔
             dict_listed d s c f ∨ ∃ x, x ∈ xs ∧ adds x s c f.
Proof.
  intros Hstep xs. induction xs as [|x xs IH]; intros d Hunique; simpl.
  - split_and!; [done..|]. intros s c f. split; [by left|].
    intros [?|(x & Hx & _)]; [done|]. by apply elem_of_nil in Hx.
  - destruct (Hstep d x Hunique) as (Hunique1 & Hfilled1 & Hlisted1).
    destruct (IH _ Hunique1) as (Hunique' & Hfilled' & Hlisted').
    split_and!; [done|by intros; apply Hfilled', Hfilled1|].
    intros s c f. rewrite Hlisted', Hlisted1. setoid_rewrite elem_of_cons.
    naive_solver.
Qed.

(** What the three loops add. *)
Definition file_adds (super_category category path : string) (x : Entry)
    (s c f : string) : Prop :=
  ∃ name, x = File name ∧ suffix name = ".png" ∧
          s = super_category ∧ c = category ∧ f = joinpath path name.

Definition category_adds (super_category path : string) (x : Entry)
    (s c f : string) : Prop :=
  ∃ category files file,
    x = Dir category files ∧ file ∈ files ∧
    file_adds super_category category (joinpath path category) file s c f.

Definition super_category_adds (path : string) (x : Entry) (s c f : string) : Prop :=
  ∃ super_category categories category_dir,
    x = Dir super_category categories ∧ category_dir ∈ categories ∧
    category_adds super_category (joinpath path super_category) category_dir s c f.

Lemma scan_category_step super_category category path d x :
  dict_keys_unique d →
  dict_keys_unique (scan_category suffix super_category category path d x) ∧
  (dict_filled d → dict_filled (scan_category suffix super_category category path d x)) ∧
  ∀ s c f, dict_listed (scan_category suffix super_category category path d x) s c f ↔
           dict_listed d s c f ∨ file_adds super_category category path x s c f.
Proof.
  intros Hunique. unfold scan_category, file_adds.
  destruct x as [name|name children|name]; [case_decide as Hsuffix|..].
  - split_and!; [done..|]. intros s c f. split; [by left|].
    intros [?|(name' & [= <-] & ? & _)]; done.
  - split_and!.
    + by apply add_foreground_keys_unique.
    + by apply add_foreground_filled.
    + intros s c f. rewrite add_foreground_listed by done. naive_solver.
  - split_and!; [done..|]. intros s c f. split; [by left|].
    intros [?|(name' & [=] & _)]; done.
  - split_and!; [done..|]. intros s c f. split; [by left|].
    intros [?|(name' & [=] & _)]; done.
Qed.

Lemma scan_super_category_step super_category path d x :
  dict_keys_unique d →
  dict_keys_unique (scan_super_category suffix super_category path d x) ∧
  (dict_filled d → dict_filled (scan_super_category suffix super_category path d x)) ∧
  ∀ s c f, dict_listed (scan_super_category suffix super_category path d x) s c f ↔
           dict_listed d s c f ∨ category_adds super_category path x s c f.
Proof.
  intros Hunique. unfold scan_super_category, category_adds.
  destruct x as [name|category files|name].
  - split_and!; [done..|]. intros s c f. split; [by left|].
    intros [?|(? & ? & ? & [=] & _)]; done.
  - destruct (scan_loop _ _
                (scan_category_step super_category category (joinpath path category))
                files d Hunique) as (Hunique' & Hfilled' & Hlisted').
    split_and!; [done..|]. intros s c f. rewrite Hlisted'. naive_solver.
  - split_and!; [done..|]. intros s c f. split; [by left|].
    intros [?|(? & ? & ? & [=] & _)]; done.
Qed.

Lemma scan_foregrounds_step path d x :
  dict_keys_unique d →
  dict_keys_unique (scan_foregrounds suffix path d x) ∧
  (dict_filled d → dict_filled (scan_foregrounds suffix path d x)) ∧
  ∀ s c f, dict_listed (scan_foregrounds suffix path d x) s c f ↔
           dict_listed d s c f ∨ super_category_adds path x s c f.
Proof.
  intros Hunique. unfold scan_foregrounds, super_category_adds.
  destruct x as [name|super_category categories|name].
  - split_and!; [done..|]. intros s c f. split; [by left|].
    intros [?|(? & ? & ? & [=] & _)]; done.
  - destruct (scan_loop _ _
                (scan_super_category_step super_category (joinpath path super_category))
                categories d Hunique) as (Hunique' & Hfilled' & Hlisted').
    split_and!; [done..|]. intros s c f. rewrite Hlisted'. naive_solver.
  - split_and!; [done..|]. intros s c f. split; [by left|].
    intros [?|(? & ? & ? & [=] & _)]; done.
Qed.

(** A [.png] file at depth three of the foregrounds directory. *)
Definition png_file (path : string) (children : list Entry) (s c f : string) : Prop :=
  ∃ categories files name,
    Dir s categories ∈ children ∧ Dir c files ∈ categories ∧ File name ∈ files ∧
    suffix name = ".png" ∧ f = joinpath (joinpath (joinpath path s) c) name.

Lemma scan_foregrounds_loop path children :
  let d := foldl (scan_foregrounds suffix path) [] children in
  dict_keys_unique d ∧ dict_filled d ∧
  ∀ s c f, dict_listed d s c f ↔ png_file path children s c f.
Proof.
  destruct (scan_loop _ _ (scan_foregrounds_step path) children []) as (Hunique & Hfilled & Hlisted).
  { split; [apply NoDup_nil_2|]. intros s categories Hin. by apply elem_of_nil in Hin. }
  cbn zeta. split; [done|]. split.
  { apply Hfilled. intros s categories Hin. by apply elem_of_nil in Hin. }
  intros s c f. rewrite Hlisted.
  unfold png_file, super_category_adds, category_adds, file_adds, dict_listed. split.
  - intros [(? & ? & Hin & _)|(x & Hx & s0 & categories & category_dir & -> & Hcat
                               & c0 & files & file & -> & Hfile
                               & name & -> & Hsuffix & -> & -> & ->)].
    + by apply elem_of_nil in Hin.
    + by exists categories, files, name.
  - intros (categories & files & name & Hs & Hc & Hname & Hsuffix & ->).
    right. exists (Dir s categories). split; [done|].
    exists s, categories, (Dir c files). split; [done|]. split; [done|].
    exists c, files, (File name). split; [done|]. split; [done|].
    by exists name.
Qed.

Lemma dict_filled_listed d :
  dict_filled d → d ≠ [] ↔ ∃ s c f, dict_listed d s c f.
Proof.
  intros Hfilled. split.
  - destruct d as [|[s categories] d]; [done|]. intros _.
    destruct (Hfilled s categories) as [Hne Hfiles]; [by left|].
    destruct categories as [|[c files] categories]; [done|].
    pose proof (Hfiles c files ltac:(by left)) as Hfile.
    destruct files as [|f files]; [done|].
    exists s, c, f, ((c, f :: files) :: categories), (f :: files).
    split_and!; by left.
  - intros (s & c & f & categories & files & Hin & _) ->. by apply elem_of_nil in Hin.
Qed.

Lemma _validate_and_process_foregrounds_Found path foregrounds_dir d :
  _validate_and_process_foregrounds suffix path foregrounds_dir = Found d →
  ∃ name children,
    foregrounds_dir = Dir name children ∧ dict_filled d ∧
    ∀ s c f, dict_listed d s c f ↔ png_file path children s c f.
Proof.
  destruct foregrounds_dir as [name|name children|name]; [done| |done].
  unfold _validate_and_process_foregrounds.
  destruct (scan_foregrounds_loop path children) as (_ & Hfilled & Hlisted).
  cbn zeta in *. case_bool_decide; [|done]. intros [= <-].
  by exists name, children.
Qed.

(** X20. The scan of the foregrounds: what is not a directory cannot be
    listed, [iterdir()] raises its [OSError] ([NotADirectoryError], or
    [FileNotFoundError] on a dangling link); a directory gives a dict
    exactly when it has a [.png] file at depth three, and the assertion
    fails otherwise.  The dict lists
    exactly those files, each under the names of its two directories; its
    keys are different from each other, every super category has a
    category and every category has a file. *)
Theorem foregrounds_scan_lists_the_png_files path foregrounds_dir :
  match _validate_and_process_foregrounds suffix path foregrounds_dir with
  | Found d =>
      ∃ name children,
        foregrounds_dir = Dir name children ∧
        d ≠ [] ∧ dict_keys_unique d ∧ dict_filled d ∧
        ∀ s c f, dict_listed d s c f ↔ png_file path children s c f
  | Failed e =>
      e = AssertionError "no se encontraron foregrouns validos" ∧
      ∃ name children,
        foregrounds_dir = Dir name children ∧ ∀ s c f, ¬ png_file path children s c f
  | IterdirError => ∀ name children, foregrounds_dir ≠ Dir name children
  end.
Proof.
  destruct foregrounds_dir as [name|name children|name]; [done| |done].
  unfold _validate_and_process_foregrounds.
  destruct (scan_foregrounds_loop path children) as (Hunique & Hfilled & Hlisted).
  cbn zeta in *. set (d := foldl (scan_foregrounds suffix path) [] children) in *.
  case_bool_decide as Hlen.
  - exists name, children. split_and!; [done| |done..].
    intros Hnil. rewrite Hnil in Hlen. simpl in Hlen. lia.
  - split; [done|]. exists name, children. split; [done|].
    intros s c f Hfile. apply Hlisted in Hfile.
    assert (d ≠ []) as Hne by (apply dict_filled_listed; [done|by exists s, c, f]).
    destruct d; [done|]. simpl in Hlen. lia.
Qed.

(** The background of an entry, if it is one. *)
Definition background_of (path : string) (x : Entry) : option string :=
  match x with
  | File name =>
      if bool_decide (suffix name ∈ allowed_background_types)
      then Some (joinpath path name) else None
  | _ => None
  end.

Lemma scan_background_loop path children : ∀ backgrounds,
  foldl (scan_background suffix path) backgrounds children
    = backgrounds ++ omap (background_of path) children.
Proof.
  induction children as [|x children IH]; intros backgrounds; simpl.
  - by rewrite app_nil_r.
  - rewrite IH. unfold scan_background, background_of.
    destruct x as [name|name sub|name]; [|done..].
    case_bool_decide as Hout.
    + by rewrite bool_decide_eq_false_2.
    + rewrite bool_decide_eq_true_2 by done.
      by rewrite <- app_assoc.
Qed.

(** X21. The scan of the backgrounds keeps, in the order of the directory, the
    files whose suffix is [.png], [.jpg] or [.jpeg], and nothing else:
    directories and other entries are skipped, also when their name has
    such a suffix.  The assertion fails exactly when nothing is kept. *)
Theorem backgrounds_scan_keeps_the_image_files path backgrounds_dir :
  match _validate_and_process_backgrounds suffix path backgrounds_dir with
  | Found backgrounds =>
      backgrounds ≠ [] ∧
      ∃ name children,
        backgrounds_dir = Dir name children ∧
        backgrounds = omap (background_of path) children ∧
        ∀ file, file ∈ backgrounds ↔
          ∃ name, File name ∈ children ∧ file = joinpath path name ∧
                  suffix name ∈ [".png"; ".jpg"; ".jpeg"]
  | Failed e =>
      e = AssertionError "no hay backgrounds" ∧
      ∃ name children,
        backgrounds_dir = Dir name children ∧
        ∀ name, File name ∈ children → suffix name ∉ [".png"; ".jpg"; ".jpeg"]
  | IterdirError => ∀ name children, backgrounds_dir ≠ Dir name children
  end.
Proof.
  destruct backgrounds_dir as [name|name children|name]; [done| |done].
  unfold _validate_and_process_backgrounds. cbn zeta.
  rewrite scan_background_loop. cbn [app].
  assert (Hmem : ∀ file, file ∈ omap (background_of path) children ↔
            ∃ name, File name ∈ children ∧ file = joinpath path name ∧
                    suffix name ∈ [".png"; ".jpg"; ".jpeg"]).
  { intros file. rewrite list_elem_of_omap. unfold background_of. split.
    - intros ([name'|?|?] & Hin & Hsome); [|done..].
      case_bool_decide as Hsuffix; [|done]. injection Hsome as <-. by exists name'.
    - intros (name' & Hin & -> & Hsuffix). exists (File name'). split; [done|].
      by rewrite bool_decide_eq_true_2. }
  case_bool_decide as Hlen.
  - split; [intros Hnil; rewrite Hnil in Hlen; simpl in Hlen; lia|].
    by exists name, children.
  - split; [done|]. exists name, children. split; [done|].
    intros name' Hin Hsuffix.
    assert (joinpath path name' ∈ omap (background_of path) children) as Hfile
      by (apply Hmem; by exists name').
    destruct (omap _ children); [by apply elem_of_nil in Hfile|]. simpl in Hlen. lia.
Qed.

Lemma find_directories_loop children : ∀ dirs,
  let dirs' := foldl find_directories dirs children in
  (dirs'.1 = dirs.1 ∧ (∀ x, x ∈ children → entry_name x ≠ "foregrounds") ∨
   ∃ x, x ∈ children ∧ entry_name x = "foregrounds" ∧ dirs'.1 = Some x) ∧
  (dirs'.2 = dirs.2 ∧ (∀ x, x ∈ children → entry_name x ≠ "backgrounds") ∨
   ∃ x, x ∈ children ∧ entry_name x = "backgrounds" ∧ dirs'.2 = Some x).
Proof.
  induction children as [|x children IH]; intros dirs; cbn zeta; cbn [foldl].
  - split; left; (split; [done|]); intros x Hx; by apply elem_of_nil in Hx.
  - assert (Hfg : (find_directories dirs x).1 = dirs.1 ∧ entry_name x ≠ "foregrounds" ∨
                  entry_name x = "foregrounds" ∧ (find_directories dirs x).1 = Some x).
    { unfold find_directories. repeat case_decide; simpl; auto. }
    assert (Hbg : (find_directories dirs x).2 = dirs.2 ∧ entry_name x ≠ "backgrounds" ∨
                  entry_name x = "backgrounds" ∧ (find_directories dirs x).2 = Some x).
    { unfold find_directories. repeat case_decide; simpl; auto.
      left. split; [done|]. congruence. }
    specialize (IH (find_directories dirs x)). cbn zeta in IH.
    destruct IH as [IHfg IHbg].
    generalize dependent (foldl find_directories (find_directories dirs x) children).
    generalize dependent (find_directories dirs x).
    intros dirs1 Hfg Hbg dirs' IHfg IHbg. setoid_rewrite elem_of_cons.
    split.
    + destruct IHfg as [[-> Hnone]|(x' & Hin & Hname & ->)].
      * destruct Hfg as [[-> Hx]|[Hx ->]].
        -- left. split; [done|]. intros x' [->|Hx']; [done|by apply Hnone].
        -- right. exists x. by split_and!; [left|..].
      * right. exists x'. by split_and!; [right|..].
    + destruct IHbg as [[-> Hnone]|(x' & Hin & Hname & ->)].
      * destruct Hbg as [[-> Hx]|[Hx ->]].
        -- left. split; [done|]. intros x' [->|Hx']; [done|by apply Hnone].
        -- right. exists x. by split_and!; [left|..].
      * right. exists x'. by split_and!; [right|..].
Qed.

Lemma scan_input_directory_Found path input_dir foregrounds_dict backgrounds :
  scan_input_directory suffix path input_dir = Found (foregrounds_dict, backgrounds) →
  ∃ name children foregrounds_dir backgrounds_dir,
    input_dir = Some (Dir name children) ∧
    foregrounds_dir ∈ children ∧ entry_name foregrounds_dir = "foregrounds" ∧
    backgrounds_dir ∈ children ∧ entry_name backgrounds_dir = "backgrounds" ∧
    _validate_and_process_foregrounds suffix (joinpath path "foregrounds") foregrounds_dir
      = Found foregrounds_dict ∧
    _validate_and_process_backgrounds suffix (joinpath path "backgrounds") backgrounds_dir
      = Found backgrounds.
Proof.
  destruct input_dir as [[name|name children|name]|]; [done| |done..].
  unfold scan_input_directory.
  destruct (find_directories_loop children (None, None)) as [Hfg Hbg].
  cbn zeta in *. destruct (foldl find_directories (None, None) children) as [fg bg].
  cbn [fst snd] in *.
  destruct Hfg as [[-> _]|(fg_dir & Hfgin & Hfgname & ->)]; [done|].
  destruct Hbg as [[-> _]|(bg_dir & Hbgin & Hbgname & ->)]; [done|].
  rewrite Hfgname, Hbgname.
  destruct (_validate_and_process_foregrounds suffix _ fg_dir) as [d| |] eqn:Hd; [|done..].
  destruct (_validate_and_process_backgrounds suffix _ bg_dir) as [b| |] eqn:Hb; [|done..].
  intros [= <- <-]. by exists name, children, fg_dir, bg_dir.
Qed.

(** X22. The outcomes of the walk that the input directory itself decides: a
    path that does not exist fails the first assertion; in a directory
    without an entry named [foregrounds], or without one named
    [backgrounds], the walk ends with [AttributeError], since nothing has
    set the attribute that the assertions of lines 171 and 172 read: they
    never fail.  A walk that succeeds has scanned an entry of each name. *)
Theorem missing_input_directories_raise_AttributeError path name children :
  scan_input_directory suffix path None
    = Failed (AssertionError ("input_dir no existe: " +:+ path)) ∧
  ((∀ x, x ∈ children → entry_name x ≠ "foregrounds") →
   scan_input_directory suffix path (Some (Dir name children)) = Failed AttributeError) ∧
  ((∀ x, x ∈ children → entry_name x ≠ "backgrounds") →
   scan_input_directory suffix path (Some (Dir name children)) = Failed AttributeError) ∧
  (∀ foregrounds_dict backgrounds,
     scan_input_directory suffix path (Some (Dir name children))
       = Found (foregrounds_dict, backgrounds) →
     ∃ foregrounds_dir backgrounds_dir,
       foregrounds_dir ∈ children ∧ entry_name foregrounds_dir = "foregrounds" ∧
       backgrounds_dir ∈ children ∧ entry_name backgrounds_dir = "backgrounds" ∧
       _validate_and_process_foregrounds suffix (joinpath path "foregrounds") foregrounds_dir
         = Found foregrounds_dict ∧
       _validate_and_process_backgrounds suffix (joinpath path "backgrounds") backgrounds_dir
         = Found backgrounds).
Proof.
  split; [done|].
  destruct (find_directories_loop children (None, None)) as [Hfg Hbg].
  cbn zeta in *. unfold scan_input_directory.
  destruct (foldl find_directories (None, None) children) as [fg bg] eqn:Hdirs.
  cbn [fst snd] in *. split_and!.
  - intros Hnone. destruct Hfg as [[-> _]|(x & Hin & Hname & _)]; [done|].
    by destruct (Hnone x Hin).
  - intros Hnone. destruct Hbg as [[-> _]|(x & Hin & Hname & _)].
    + by destruct fg.
    + by destruct (Hnone x Hin).
  - intros d b Hfound.
    pose proof (scan_input_directory_Found path (Some (Dir name children)) d b) as Hscan.
    unfold scan_input_directory in Hscan. rewrite Hdirs in Hscan. cbn [fst snd] in Hscan.
    destruct (Hscan Hfound) as (? & ? & fg_dir & bg_dir & [= <- <-] & ?).
    by exists fg_dir, bg_dir.
Qed.

(** X23. After a walk and a validation that succeed, lines 248-256 of the
    generation loop cannot fail: whatever is drawn, the choice of the
    background returns a file kept by the scan of the backgrounds, and the
    choice of the foregrounds returns [.png] files of depth three of the
    foregrounds directory, each with the names of its directories as super
    category and category. *)
Theorem validated_input_makes_the_choices_safe
    path input_dir foregrounds_dict found_backgrounds args output g self g' g0 :
  scan_input_directory suffix path input_dir = Found (foregrounds_dict, found_backgrounds) →
  _validate_and_process_args args output foregrounds_dict found_backgrounds g
    = Return (self, g') →
  ∃ name children foregrounds_dir_name foregrounds_children background foregrounds,
    input_dir = Some (Dir name children) ∧
    Dir foregrounds_dir_name foregrounds_children ∈ children ∧
    random.choice (backgrounds self) g0 = Return (background, drawn 1 g0) ∧
    background ∈ found_backgrounds ∧
    choose_foregrounds self (drawn 1 g0)
      = Return (foregrounds, drawn (2 + 3 * length foregrounds) g0) ∧
    ∀ fg, fg ∈ foregrounds →
      png_file (joinpath path "foregrounds") foregrounds_children
               (super_category fg) (category fg) (foreground_path fg).
Proof.
  intros Hscan Hargs.
  apply scan_input_directory_Found in Hscan
    as (name & children & fg_dir & bg_dir & -> & Hfgin & Hfgname & _ & _ & Hfg & Hbg).
  apply _validate_and_process_args_Return in Hargs
    as (_ & _ & _ & Hfgne & Hbgne & _ & output_type & _ & ->).
  apply _validate_and_process_foregrounds_Found in Hfg
    as (fg_name & fg_children & -> & Hfilled & Hlisted).
  destruct (choice_nonempty found_backgrounds g0 Hbgne) as (background & Hchoice & Hin).
  destruct (choose_foregrounds_ready
              (mkSelf (args_count args) (args_width args) (args_height args) output_type
                      (args_output_dir args) foregrounds_dict found_backgrounds)
              (drawn 1 g0)) as (foregrounds & Hfgs); [by split|].
  exists name, children, fg_name, fg_children, background, foregrounds.
  split_and!; [done..| |].
  - rewrite Hfgs, drawn_drawn. do 3 f_equal. lia.
  - intros fg Hfgin'. apply choose_foregrounds_listed in Hfgs as (_ & _ & Hall).
    rewrite Forall_forall in Hall. by apply Hlisted, Hall.
Qed.

End InputDirectoryFacts.

(* ===================================================================== *)
(** * The output directory and a whole run of [main]                       *)
(* ===================================================================== *)

Lemma string_app_assoc (a b c : string) : (a +:+ b) +:+ c = a +:+ b +:+ c.
Proof.
  induction a as [|x a IH]; [done|].
  change (String x ((a +:+ b) +:+ c) = String x (a +:+ b +:+ c)). by rewrite IH.
Qed.

Lemma string_app_neq_l (s t : string) : t ≠ "" → s +:+ t ≠ s.
Proof.
  intros Ht Heq. apply (f_equal String.length) in Heq.
  rewrite string_length_app in Heq. destruct t; [done|]. simpl in Heq. lia.
Qed.

Lemma save_directories_not_created output_dir :
  (joinpath output_dir "images" ∉ created_directories output_dir) ∧
  (joinpath output_dir "masks" ∉ created_directories output_dir).
Proof.
  unfold created_directories, joinpath.
  split; rewrite !elem_of_cons, elem_of_nil;
    (intros [Heq|[Heq|[Heq|[]]]];
       [by apply string_app_neq_l in Heq
       |apply string_app_cancel_l in Heq; discriminate Heq..]).
Qed.

(** X24. The files of a sample go to [images] and [masks] under the output
    directory (lines 275 and 281), and neither is one of the directories
    that the validation creates: it creates [imágenes] and [máscaras]. *)
Theorem samples_are_saved_outside_the_created_directories {R : Resampling}
    (disk : string → option (Image RGBA)) self i st g st' sample g' :
  generate_sample disk self i st g = Return (st', sample, g') →
  let image_dir := joinpath (output_dir self) "images" in
  let mask_dir := joinpath (output_dir self) "masks" in
  st'.2 = st.2 ++
    [(joinpath image_dir (zero_padded zero_padding i +:+ output_type self),
      sample_composite sample);
     (joinpath mask_dir (zero_padded zero_padding i +:+ ".png"), sample_mask sample)] ∧
  (image_dir ∉ created_directories (output_dir self)) ∧
  (mask_dir ∉ created_directories (output_dir self)).
Proof.
  destruct st as [mju saved], st' as [mju' saved']. intros Hrun image_dir mask_dir.
  apply generate_sample_step in Hrun as (-> & _).
  destruct (save_directories_not_created (output_dir self)) as [Himages Hmasks].
  split_and!; [|done..]. cbn [snd]. do 3 f_equal.
  - unfold image_dir, image_name, joinpath. by rewrite !string_app_assoc.
  - do 2 f_equal. unfold mask_dir, mask_name, joinpath. by rewrite !string_app_assoc.
Qed.

Lemma bind_pair_length {A B} (f : A → list B) (l : list A) :
  (∀ x, length (f x) = 2%nat) → length (l ≫= f) = (2 * length l)%nat.
Proof.
  intros Hf. induction l as [|x l IH]; [done|].
  rewrite bind_cons, length_app, Hf, IH. simpl. lia.
Qed.

(** X25. A run of [main] that returns: the arguments were valid; it has saved
    [count] images and [count] masks, alternating, each of the requested
    width and height, under the names of the samples, the images with the
    validated extension ([.jpg] when the output type is omitted) and the
    masks with [.png]; and the exported object has [count] mask entries. *)
Theorem completed_run_has_count_samples {R : Resampling}
    (disk : string → option (Image RGBA)) args output found_foregrounds found_backgrounds
    g masks supers saved g' :
  main disk args output found_foregrounds found_backgrounds g
    = Return (masks, supers, saved, g') →
  let n := Z.to_nat (args_count args) in
  (0 < n)%nat ∧ length saved = (2 * n)%nat ∧ size masks = n ∧
  (∀ file, file ∈ saved →
     im_size file.2 = (Z.to_nat (args_width args), Z.to_nat (args_height args))) ∧
  ∃ extension,
    (args_output_type args = None ∧ extension = ".jpg" ∨
     ∃ name, args_output_type args = Some name ∧ name ∈ ["png"; "jpg"; "jpeg"] ∧
             extension = "." +:+ name) ∧
    saved.*1 = seq 0 n ≫= λ i,
      [args_output_dir args +:+ "/" +:+ "images/" +:+ zero_padded zero_padding i +:+ extension;
       args_output_dir args +:+ "/" +:+ "masks/" +:+ zero_padded zero_padding i +:+ ".png"].
Proof.
  intros Hrun n. unfold main in Hrun.
  apply bind_Return in Hrun as (self & g1 & Hargs & Hrun).
  apply _validate_and_process_args_Return in Hargs
    as (Hcount & _ & _ & _ & _ & _ & extension & Hextension & ->).
  unfold _generate_images in Hrun.
  apply bind_Return in Hrun as ([mju saved0] & g2 & Hloop & Hret).
  apply ret_Return in Hret as [[= <- <- <-] _].
  apply generate_images_loop in Hloop as (Hnames & Hsizes & Hmasks & _); [|done].
  cbn [count width height output_dir output_type fst snd fmap list_fmap app] in *.
  fold n in Hnames, Hmasks.
  split_and!; [lia| | | |].
  - rewrite <- (length_fmap fst), Hnames. rewrite bind_pair_length by done.
    by rewrite length_seq.
  - unfold MaskJsonUtils.write_masks_to_json, MaskJsonUtils.get_masks. cbn [fst].
    rewrite Hmasks. unfold MaskJsonUtils.__init__. cbn [MaskJsonUtils.masks].
    by rewrite map_size_empty.
  - intros file Hfile. destruct (Hsizes file Hfile) as [Hold|Hnew]; [|done].
    by apply elem_of_nil in Hold.
  - by exists extension.
Qed.

(* ===================================================================== *)
(** * Further examples                                                     *)
(* ===================================================================== *)

Lemma returns_Return {A} (r : result A) : returns r = true → ∃ a, r = Return a.
Proof. destruct r as [a|e]; [by exists a | done]. Qed.

Lemma first_registration_of_a_path_stays_witness :
  MaskJsonUtils.get_masks
    (MaskJsonUtils.add_mask "images/00000000.jpg" "masks/00000000.png"
       {["(255, 0, 0)" := mkCategoryItem "c" "s"]} (MaskJsonUtils.__init__ "out")).2
    !! "images/00000000.jpg"
  = Some (mkMaskDefinition "masks/00000000.png" {["(255, 0, 0)" := mkCategoryItem "c" "s"]}).
Proof.
  destruct (first_registration_of_a_path_stays (MaskJsonUtils.__init__ "out")
              "images/00000000.jpg" "masks/00000000.png"
              {["(255, 0, 0)" := mkCategoryItem "c" "s"]}) as (Hentry & _);
    [reflexivity|].
  exact Hentry.
Defined.

Lemma chosen_foregrounds_are_listed_witness :
  ∃ foregrounds g',
    choose_foregrounds example_self (draws [2]) = Return (foregrounds, g') ∧
    Z.of_nat (length foregrounds) = 3 ∧
    ∀ slot fg, foregrounds !! slot = Some fg → listed example_self fg.
Proof.
  eassert (choose_foregrounds example_self (draws [2]) = Return (_, _)) as Hrun
    by (vm_compute; reflexivity).
  eexists _, _. split; [exact Hrun|].
  destruct (chosen_foregrounds_are_listed example_self _ _ _ Hrun) as (Hlen & _ & Hlisted).
  split; [exact Hlen|].
  intros slot fg Hfg. destruct (Hlisted slot fg Hfg) as [Hfile _]. exact Hfile.
Defined.

Lemma choice_of_foregrounds_returns_on_a_ready_dict_witness :
  ∃ foregrounds,
    choose_foregrounds example_self (draws [1; 0; 0; 0; 0; 0; 0])
      = Return (foregrounds, drawn (1 + 3 * length foregrounds) (draws [1; 0; 0; 0; 0; 0; 0])).
Proof.
  destruct (choice_of_foregrounds_returns_on_a_ready_dict example_self
              (draws [1; 0; 0; 0; 0; 0; 0])) as [Hready _].
  apply Hready. split; [discriminate|].
  intros s categories [= -> ->]%list_elem_of_singleton. split; [discriminate|].
  intros c files [= -> ->]%list_elem_of_singleton. discriminate.
Defined.

Lemma color_map_has_one_key_per_slot_witness :
  ∃ st' sample g',
    generate_sample (R := nearest) example_disk example_self 0 empty_state (draws [0; 1])
      = Return (st', sample, g') ∧
    size (sample_color_categories sample) = length (sample_foregrounds sample) ∧
    (1 ≤ size (sample_color_categories sample) ≤ 3)%nat.
Proof.
  destruct (returns_Return (generate_sample (R := nearest) example_disk example_self 0
                              empty_state (draws [0; 1])))
    as ([[st' sample] g'] & Hrun); [vm_compute; reflexivity|].
  exists st', sample, g'. split; [exact Hrun|].
  destruct (color_map_has_one_key_per_slot (R := nearest) _ _ _ _ _ _ _ _ Hrun)
    as (Hsize & Hbounds & _).
  split; [exact Hsize | exact Hbounds].
Defined.

(** Two samples, as [.png]. *)
Definition two_sample_self : Self :=
  mkSelf 2 64 64 ".png" "out"
         [("s", [("c", ["in/foregrounds/s/c/square.png"])])]
         ["in/backgrounds/plain.jpg"].

Lemma run_saves_two_files_and_one_entry_per_sample_witness :
  ∃ masks supers saved g',
    _generate_images (R := nearest) example_disk two_sample_self (draws [])
      = Return (masks, supers, saved, g') ∧
    saved.*1 = ["out/images/00000000.png"; "out/masks/00000000.png";
                "out/images/00000001.png"; "out/masks/00000001.png"] ∧
    size masks = 2%nat.
Proof.
  destruct (returns_Return (_generate_images (R := nearest) example_disk two_sample_self
                              (draws [])))
    as ([[[masks supers] saved] g'] & Hrun); [vm_compute; reflexivity|].
  exists masks, supers, saved, g'. split; [exact Hrun|].
  destruct (run_saves_two_files_and_one_entry_per_sample (R := nearest) _ _ _ _ _ _ _ Hrun)
    as (Hnames & _ & _ & Hcount & _).
  split; [exact Hnames | exact Hcount].
Defined.

Lemma samples_are_saved_outside_the_created_directories_witness :
  ∃ st' sample g',
    generate_sample (R := nearest) example_disk example_self 7 empty_state (draws [])
      = Return (st', sample, g') ∧
    st'.2.*1 = ["out/images/00000007.jpg"; "out/masks/00000007.png"] ∧
    "out/images" ∉ ["out"; "out/imágenes"; "out/máscaras"].
Proof.
  destruct (returns_Return (generate_sample (R := nearest) example_disk example_self 7
                              empty_state (draws [])))
    as ([[st' sample] g'] & Hrun); [vm_compute; reflexivity|].
  exists st', sample, g'. split; [exact Hrun|].
  destruct (samples_are_saved_outside_the_created_directories (R := nearest)
              _ _ _ _ _ _ _ _ Hrun) as (Hsaved & Himages & _).
  split; [|exact Himages].
  rewrite Hsaved. reflexivity.
Defined.

Lemma completed_run_has_count_samples_witness :
  ∃ masks supers saved g',
    main (R := nearest) example_disk (mkArgs true 2 64 64 (Some "png") "out")
         empty_output_directory
         [("s", [("c", ["in/foregrounds/s/c/square.png"])])] ["in/backgrounds/plain.jpg"]
         (draws [])
      = Return (masks, supers, saved, g') ∧
    length saved = 4%nat ∧ size masks = 2%nat.
Proof.
  destruct (returns_Return
              (main (R := nearest) example_disk (mkArgs true 2 64 64 (Some "png") "out")
                 empty_output_directory
                 [("s", [("c", ["in/foregrounds/s/c/square.png"])])]
                 ["in/backgrounds/plain.jpg"] (draws [])))
    as ([[[masks supers] saved] g'] & Hrun); [vm_compute; reflexivity|].
  exists masks, supers, saved, g'. split; [exact Hrun|].
  destruct (completed_run_has_count_samples (R := nearest) _ _ _ _ _ _ _ _ _ _ Hrun)
    as (_ & Hlength & Hcount & _).
  split; [exact Hlength | exact Hcount].
Defined.

(** The part of a name from its last dot on. *)
Fixpoint from_last_dot (name : string) : option string :=
  match name with
  | "" => None
  | String c rest =>
      match from_last_dot rest with
      | Some found => Some found
      | None => if decide (c = "."%char) then Some name else None
      end
  end.

(** [PurePath.suffix] as CPython defines it up to version 3.12: the name
    from its last dot on, when that dot is neither the first nor the last
    character of the name, and the empty string otherwise. *)
Definition suffix_3_12 (name : string) : string :=
  match name with
  | "" => ""
  | String _ rest =>
      match from_last_dot rest with
      | Some found => if decide (found = ".") then "" else found
      | None => ""
      end
  end.

(** An input directory: one foreground, one background and entries that
    the scans skip. *)
Definition example_input : Entry :=
  Dir "in"
    [File "LICENSE";
     Dir "foregrounds"
       [File "readme.md";
        Dir "s" [File "notes.txt";
                 Dir "c" [File "square.png"; File "square.jpg"; File ".png"; Dir "old.png" []]]];
     Dir "backgrounds" [Dir "more.jpg" []; File "plain.jpg"; File "plain.gif"]].

Lemma validated_input_makes_the_choices_safe_witness :
  ∃ background foregrounds,
    scan_input_directory suffix_3_12 "in" (Some example_input)
      = Found ([("s", [("c", ["in/foregrounds/s/c/square.png"])])],
               ["in/backgrounds/plain.jpg"]) ∧
    random.choice (backgrounds two_sample_self) (draws [5; 2])
      = Return (background, drawn 1 (draws [5; 2])) ∧
    choose_foregrounds two_sample_self (drawn 1 (draws [5; 2]))
      = Return (foregrounds, drawn (2 + 3 * length foregrounds) (draws [5; 2])).
Proof.
  assert (scan_input_directory suffix_3_12 "in" (Some example_input)
          = Found ([("s", [("c", ["in/foregrounds/s/c/square.png"])])],
                   ["in/backgrounds/plain.jpg"])) as Hscan by (vm_compute; reflexivity).
  assert (_validate_and_process_args (mkArgs true 2 64 64 (Some "png") "out")
            empty_output_directory
            [("s", [("c", ["in/foregrounds/s/c/square.png"])])]
            ["in/backgrounds/plain.jpg"] (draws [])
          = Return (two_sample_self, draws [])) as Hargs by (vm_compute; reflexivity).
  destruct (validated_input_makes_the_choices_safe suffix_3_12 _ _ _ _ _ _ _ _ _
              (draws [5; 2]) Hscan Hargs)
    as (_ & _ & _ & _ & background & foregrounds & _ & _ & Hbackground & _ & Hforegrounds & _).
  exists background, foregrounds. split; [exact Hscan|]. split; [exact Hbackground|].
  exact Hforegrounds.
Defined.

Lemma missing_input_directories_raise_AttributeError_witness :
  scan_input_directory suffix_3_12 "in" (Some (Dir "in" [Dir "backgrounds" [File "plain.jpg"]]))
    = Failed AttributeError.
Proof.
  destruct (missing_input_directories_raise_AttributeError suffix_3_12 "in" "in"
              [Dir "backgrounds" [File "plain.jpg"]]) as (_ & Hmissing & _).
  apply Hmissing. intros x [->|[]%elem_of_nil]%elem_of_cons. discriminate.
Defined.
